(** * pixellink: a packet codec over screen pixels

    Shallow embedding of [main.cpp]: the [Packet] frame, its serialisation
    into 3-byte pixels ([encodePacket]), the two-phase scan that reads it
    back ([decodePacket]), and the sender / receiver loops started by
    [main].

    The codec is written once, over any monad that offers the display
    capability [Surface] and the mutex [screenMutex].  It is run in three
    instances: a state monad over a pixel store that also logs every pixel
    operation (used for all codec proofs, and executable), interaction
    trees (used for the two endless loops and for [main]), and programs of
    pixel and mutex actions that a scheduler interleaves (used for the
    mutual exclusion of concurrent calls). *)

From Stdlib Require Import String.
From Stdlib Require Import ZArith List Lia Bool.
From Stdlib Require Import Strings.Byte.
From ExtLib Require Import Structures.Monad.
From ITree Require Import ITree ITreeFacts.
Import ListNotations.
Import MonadNotation.
Local Open Scope Z_scope.
Local Open Scope monad_scope.

(* ===================================================================== *)
(** ** Machine data *)
(* ===================================================================== *)

(** [unsigned char]. *)
Definition uchar : Type := Byte.byte.

Definition uchar_to_Z (b : uchar) : Z := Z.of_N (Byte.to_N b).

(** Conversion to [unsigned char] keeps the low eight bits. *)
Definition Z_to_uchar (z : Z) : uchar :=
  match Byte.of_N (Z.to_N (z mod 256)) with
  | Some b => b
  | None => x00
  end.

(** Conversion to [uint32_t] is reduction modulo 2^32. *)
Definition to_uint32 (z : Z) : Z := z mod 2 ^ 32.

(** [#define PREFIX 0xCAFEBABE] *)
Definition PREFIX : Z := 0xCAFEBABE.

(** The object representation of a [uint32_t], as [memcpy] sees it.  Every
    Windows target is little-endian: least significant byte first. *)
Definition bytes_of_uint32 (v : Z) : list uchar :=
  [ Z_to_uchar v;
    Z_to_uchar (Z.shiftr v 8);
    Z_to_uchar (Z.shiftr v 16);
    Z_to_uchar (Z.shiftr v 24) ].

(** Reading a [uint32_t] back from the first four bytes of a buffer. *)
Definition uint32_of_bytes (l : list uchar) : Z :=
  let b (i : nat) := uchar_to_Z (nth i l x00) in
  Z.lor (Z.lor (b 0%nat) (Z.shiftl (b 1%nat) 8))
        (Z.lor (Z.shiftl (b 2%nat) 16) (Z.shiftl (b 3%nat) 24)).

(** [memcpy(dst.data() + off, src, |src|)] on a vector that is long enough. *)
Definition memcpy (dst : list uchar) (off : nat) (src : list uchar) : list uchar :=
  firstn off dst ++ src ++ skipn (off + length src) dst.

(** [v.size()] of a vector. *)
Definition vsize {A} (v : list A) : Z := Z.of_nat (length v).

(** [v[i]] for an index inside the vector. *)
Definition vget (v : list uchar) (i : Z) : uchar := nth (Z.to_nat i) v x00.

(* ===================================================================== *)
(** ** Colours *)
(* ===================================================================== *)

Definition COLORREF : Type := Z.

(** Modelled from the spec: the colour macros of [<windows.h>] are not part
    of the repository.  The spec's capability boundary has [setPixel] take
    and [getPixel] return a triple (r, g, b) of bytes; [RGB] packs such a
    triple into a [COLORREF] (0x00bbggrr, each argument cast to [BYTE]) and
    [GetRValue], [GetGValue], [GetBValue] take it apart again. *)
Definition RGB (r g b : uchar) : COLORREF :=
  Z.lor (Z.lor (uchar_to_Z r) (Z.shiftl (uchar_to_Z g) 8))
        (Z.shiftl (uchar_to_Z b) 16).

Definition GetRValue (c : COLORREF) : uchar := Z_to_uchar c.
Definition GetGValue (c : COLORREF) : uchar := Z_to_uchar (Z.shiftr c 8).
Definition GetBValue (c : COLORREF) : uchar := Z_to_uchar (Z.shiftr c 16).

(* ===================================================================== *)
(** ** The frame *)
(* ===================================================================== *)

(** [struct Packet]. *)
Record Packet : Type := mkPacket {
  prefix : Z;               (* uint32_t *)
  size : Z;                 (* uint32_t *)
  payload : list uchar      (* std::vector<unsigned char> *)
}.

(** [Packet(const std::vector<unsigned char>& data)]: the initialiser
    [size(data.size())] narrows a [size_t] to [uint32_t]. *)
Definition Packet_of (data : list uchar) : Packet :=
  {| prefix := PREFIX; size := to_uint32 (vsize data); payload := data |}.

(** [Packet()]. *)
Definition Packet_empty : Packet :=
  {| prefix := 0; size := 0; payload := [] |}.

(** The serialisation step of [encodePacket]: a zero-filled buffer of
    [totalSize] bytes, then three [memcpy] calls. *)
Definition serialize (packet : Packet) : list uchar :=
  let totalSize := (4 + 4 + length (payload packet))%nat in
  let buffer := repeat x00 totalSize in
  let buffer := memcpy buffer 0 (bytes_of_uint32 (prefix packet)) in
  let buffer := memcpy buffer 4 (bytes_of_uint32 (size packet)) in
  memcpy buffer (4 + 4) (payload packet).

(* ===================================================================== *)
(** ** The display capability *)
(* ===================================================================== *)

Definition HDC : Type := Z.

(** Modelled from the spec: the display functions of [<windows.h>] are not
    part of the repository.  The spec lists them as the injected capability
    [setPixel(x, y, r,g,b)], [getPixel(x, y) -> (r,g,b)] and
    [horizontalResolution() -> int]. *)
Class Surface (m : Type -> Type) : Type := {
  SetPixel : HDC -> Z -> Z -> COLORREF -> m unit;
  GetPixel : HDC -> Z -> Z -> m COLORREF;
  GetDeviceCaps_HORZRES : HDC -> m Z
}.

(** [std::mutex screenMutex]: the one mutex of the process, with the two
    operations [std::lock_guard] performs on it. *)
Class Mutex (m : Type -> Type) : Type := {
  screenMutex_lock : m unit;
  screenMutex_unlock : m unit
}.

(* ===================================================================== *)
(** ** The codec *)
(* ===================================================================== *)

Section Codec.

Context {m : Type -> Type} `{Monad m} `{Surface m} `{Mutex m}.

(** [std::lock_guard<std::mutex> lock(screenMutex);] as the first statement
    of a function: the constructor locks the mutex, the destructor unlocks
    it when the function returns, on every path. *)
Definition lock_guard {A : Type} (body : m A) : m A :=
  screenMutex_lock ;;
  a <- body ;;
  screenMutex_unlock ;;
  ret a.

(** A [for (i = i0; cond(i); i = step(i)) body] loop threading the local
    variables [st].  [fuel] bounds the number of iterations; by
    [for_loop_steps] below every loop of the codec is given enough of it,
    and more would change nothing. *)
Fixpoint for_loop {St : Type} (fuel : nat) (cond : Z -> bool) (step : Z -> Z)
    (body : Z -> St -> m St) (i : Z) (st : St) : m St :=
  match fuel with
  | O => ret st
  | S fuel' =>
      if cond i
      then st' <- body i st ;; for_loop fuel' cond step body (step i) st'
      else ret st
  end.

(** The cursor rule that ends every loop body:
    [if (++x >= GetDeviceCaps(hdc, HORZRES)) { x = 0; y++; }]
    The coordinates are [int]s; they are taken as integers, which is what
    the code computes as long as they stay in the range of [int]. *)
Definition advance (hdc : HDC) (x y : Z) : m (Z * Z) :=
  let x := x + 1 in
  w <- GetDeviceCaps_HORZRES hdc ;;
  if x >=? w then ret (0, y + 1) else ret (x, y).

(** Body of the pixel loop of [encodePacket]. *)
Definition encode_body (hdc : HDC) (buffer : list uchar)
    (i : Z) (xy : Z * Z) : m (Z * Z) :=
  let '(x, y) := xy in
  let r := vget buffer i in
  let g := if i + 1 <? vsize buffer then vget buffer (i + 1) else x00 in
  let b := if i + 2 <? vsize buffer then vget buffer (i + 2) else x00 in
  let color := RGB r g b in
  SetPixel hdc x y color ;;
  advance hdc x y.

(** [void encodePacket(HDC hdc, int startX, int startY, const Packet& packet)]. *)
Definition encodePacket (hdc : HDC) (startX startY : Z) (packet : Packet) : m unit :=
  lock_guard (
    let buffer := serialize packet in
    for_loop (length buffer) (fun i => i <? vsize buffer) (fun i => i + 3)
             (encode_body hdc buffer) 0 (startX, startY) ;;
    ret tt).

(** Body shared by the two reading loops of [decodePacket]. *)
Definition decode_body (hdc : HDC) (_ : Z) (st : Z * Z * list uchar)
    : m (Z * Z * list uchar) :=
  let '(x, y, buffer) := st in
  color <- GetPixel hdc x y ;;
  let buffer := buffer ++ [GetRValue color] in
  let buffer := buffer ++ [GetGValue color] in
  let buffer := buffer ++ [GetBValue color] in
  '(x, y) <- advance hdc x y ;;
  ret (x, y, buffer).

(** [Packet decodePacket(HDC hdc, int startX, int startY)]. *)
Definition decodePacket (hdc : HDC) (startX startY : Z) : m Packet :=
  lock_guard (
    (* read prefix and size first *)
    '(x, y, buffer) <-
      for_loop 8 (fun i => i <? 4 + 4) (fun i => i + 3)
               (decode_body hdc) 0 (startX, startY, []) ;;
    let packet_prefix := uint32_of_bytes buffer in
    let packet_size := uint32_of_bytes (skipn 4 buffer) in
    (* validate prefix *)
    if negb (packet_prefix =? PREFIX) then ret Packet_empty
    else
      (* read the payload *)
      '(_, _, buffer) <-
        for_loop (Z.to_nat packet_size) (fun i => i <? packet_size)
                 (fun i => to_uint32 (i + 3))
                 (decode_body hdc) 0 (x, y, []) ;;
      ret {| prefix := packet_prefix;
             size := packet_size;
             payload := firstn (Z.to_nat packet_size) buffer |}).

End Codec.

(* ===================================================================== *)
(** ** First instance: a pixel store with a log of pixel operations *)
(* ===================================================================== *)

(** Modelled from the spec: the shared surface behind the capability.  Per
    the spec it is a noiseless pixel-addressable store of unbounded height
    whose horizontal resolution is fixed. *)
Record Screen : Type := mkScreen {
  pixel : Z -> Z -> COLORREF;
  horzres : Z
}.

Definition set_pixel (s : Screen) (x y : Z) (c : COLORREF) : Screen :=
  {| pixel := fun x' y' => if (x' =? x) && (y' =? y) then c else pixel s x' y';
     horzres := horzres s |}.

(** One pixel operation, as it reaches the surface. *)
Inductive Op : Type :=
| OpSet (x y : Z) (c : COLORREF)
| OpGet (x y : Z).

(** State over the screen, and the operations performed in order. *)
Definition SM (A : Type) : Type := Screen -> A * Screen * list Op.

#[export] Instance Monad_SM : Monad SM := {
  ret := fun _ a s => (a, s, []);
  bind := fun _ _ c f s =>
    let '(a, s1, l1) := c s in
    let '(b, s2, l2) := f a s1 in
    (b, s2, l1 ++ l2)
}.

#[export] Instance Surface_SM : Surface SM := {
  SetPixel := fun _ x y c s => (tt, set_pixel s x y c, [OpSet x y c]);
  GetPixel := fun _ x y s => (pixel s x y, s, [OpGet x y]);
  GetDeviceCaps_HORZRES := fun _ s => (horzres s, s, [])
}.

(** The log is of pixel operations.  The mutex is no part of the screen:
    on the one thread of control this instance has, it is free whenever it
    is asked for, and taking and releasing it changes nothing. *)
#[export] Instance Mutex_SM : Mutex SM := {
  screenMutex_lock := fun s => (tt, s, []);
  screenMutex_unlock := fun s => (tt, s, [])
}.

Definition result {A} (r : A * Screen * list Op) : A := fst (fst r).
Definition screen_after {A} (r : A * Screen * list Op) : Screen := snd (fst r).
Definition ops {A} (r : A * Screen * list Op) : list Op := snd r.



(* ===================================================================== *)
(** ** Second instance: interaction trees, the loops and [main] *)
(* ===================================================================== *)

(** Everything the process asks of its environment. *)
Variant winE : Type -> Type :=
| EvSetPixel (hdc : HDC) (x y : Z) (c : COLORREF) : winE unit
| EvGetPixel (hdc : HDC) (x y : Z) : winE COLORREF
| EvHorzRes (hdc : HDC) : winE Z
| EvGetDC : winE HDC                          (* GetDC(NULL) *)
| EvReleaseDC (hdc : HDC) : winE unit         (* ReleaseDC(NULL, hdc) *)
| EvCout (s : String.string) : winE unit      (* std::cout << s *)
| EvCerr (s : String.string) : winE unit      (* std::cerr << s << std::endl *)
| EvEndl : winE unit                          (* std::cout << std::endl *)
| EvGetLine : winE String.string              (* std::getline(std::cin, s) *)
| EvCinInt : winE Z                           (* std::cin >> instance *)
| EvCinIgnore : winE unit                     (* std::cin.ignore() *)
| EvSleep (ms : Z) : winE unit.               (* std::this_thread::sleep_for *)

#[export] Instance Surface_itree : Surface (itree winE) := {
  SetPixel := fun hdc x y c => ITree.trigger (EvSetPixel hdc x y c);
  GetPixel := fun hdc x y => ITree.trigger (EvGetPixel hdc x y);
  GetDeviceCaps_HORZRES := fun hdc => ITree.trigger (EvHorzRes hdc)
}.

(** The events are what the process asks of its environment.  The mutex
    is inside the process, and each role runs on one thread: the mutex is
    free whenever it is asked for, so taking and releasing it is no event
    and returns at once. *)
#[export] Instance Mutex_itree : Mutex (itree winE) := {
  screenMutex_lock := Ret tt;
  screenMutex_unlock := Ret tt
}.

(** [std::vector<unsigned char> payload(message.begin(), message.end())] *)
Definition payload_of_string (message : String.string) : list uchar :=
  String.list_byte_of_string message.

(** [std::string message(p.payload.begin(), p.payload.end())] *)
Definition string_of_payload (p : list uchar) : String.string :=
  String.string_of_list_byte p.

(** The inner [while (true)] of [senderLoop]: poll until a frame carries
    the prefix, print it, [break]. *)
Definition wait_for_reply (hdc : HDC) (rxStartX rxStartY : Z) : itree winE unit :=
  ITree.iter (fun _ : unit =>
    reply <- decodePacket hdc rxStartX rxStartY ;;
    if prefix reply =? PREFIX then
      ITree.trigger (EvCout "Them: "%string) ;;
      ITree.trigger (EvCout (string_of_payload (payload reply))) ;;
      ITree.trigger EvEndl ;;
      ret (inr tt)
    else
      ITree.trigger (EvSleep 100) ;;
      ret (inl tt)) tt.

(** [void senderLoop(HDC, int txStartX, int txStartY, int rxStartX, int rxStartY)] *)
Definition senderLoop (hdc : HDC) (txStartX txStartY rxStartX rxStartY : Z)
    : itree winE unit :=
  ITree.forever (
    ITree.trigger (EvCout "You: "%string) ;;
    message <- ITree.trigger EvGetLine ;;
    (* send message *)
    let packet := Packet_of (payload_of_string message) in
    encodePacket hdc txStartX txStartY packet ;;
    (* wait for reply *)
    wait_for_reply hdc rxStartX rxStartY).

(** [void receiverLoop(HDC, int rxStartX, int rxStartY, int txStartX, int txStartY)] *)
Definition receiverLoop (hdc : HDC) (rxStartX rxStartY txStartX txStartY : Z)
    : itree winE unit :=
  ITree.forever (
    (* wait for message *)
    received <- decodePacket hdc rxStartX rxStartY ;;
    (if prefix received =? PREFIX then
       ITree.trigger (EvCout "Them: "%string) ;;
       ITree.trigger (EvCout (string_of_payload (payload received))) ;;
       ITree.trigger EvEndl ;;
       (* got reply *)
       ITree.trigger (EvCout "You: "%string) ;;
       reply <- ITree.trigger EvGetLine ;;
       (* send reply *)
       let packet := Packet_of (payload_of_string reply) in
       encodePacket hdc txStartX txStartY packet
     else ret tt) ;;
    ITree.trigger (EvSleep 100)).

Definition NULL : HDC := 0.

(** [main] from the test of [instance] on: the role dispatch, then the
    release of the device context and [return 0].  A worker thread that is
    joined at once runs as a plain call. *)
Definition main_dispatch (hdc : HDC) (instance : Z) : itree winE Z :=
  (if instance =? 1 then senderLoop hdc 0 0 0 10
   else if instance =? 2 then receiverLoop hdc 0 0 0 10
   else ITree.trigger (EvCerr "Invalid instance number."%string)) ;;
  (* release device context *)
  ITree.trigger (EvReleaseDC hdc) ;;
  ret 0.

(** [int main()]. *)
Definition main : itree winE Z :=
  (* get the screen device context *)
  hdc <- ITree.trigger EvGetDC ;;
  if hdc =? NULL then
    ITree.trigger (EvCerr "Failed to get device context."%string) ;;
    ret 1
  else
    ITree.trigger (EvCout "Enter instance (1 or 2): "%string) ;;
    instance <- ITree.trigger EvCinInt ;;
    ITree.trigger EvCinIgnore ;;
    main_dispatch hdc instance.

(* ===================================================================== *)
(** ** Reference functions for the statements *)
(* ===================================================================== *)

(** One application of the cursor rule on a surface [w] pixels wide. *)
Definition next_xy (w : Z) (xy : Z * Z) : Z * Z :=
  let '(x, y) := xy in
  if x + 1 >=? w then (0, y + 1) else (x + 1, y).

(** The cursor after [n] pixels. *)
Fixpoint cursor (w : Z) (n : nat) (xy : Z * Z) : Z * Z :=
  match n with
  | O => xy
  | S n' => cursor w n' (next_xy w xy)
  end.

(** The coordinates of the first [n] pixels of a scan region. *)
Fixpoint track (w : Z) (n : nat) (xy : Z * Z) : list (Z * Z) :=
  match n with
  | O => []
  | S n' => xy :: track w n' (next_xy w xy)
  end.

(** The three bytes one pixel holds. *)
Definition pixel_bytes (c : COLORREF) : list uchar :=
  [GetRValue c; GetGValue c; GetBValue c].

(** The bytes held by the first [n] pixels of the scan region at [xy]. *)
Definition scan (s : Screen) (n : nat) (xy : Z * Z) : list uchar :=
  flat_map (fun p => pixel_bytes (pixel s (fst p) (snd p)))
           (track (horzres s) n xy).

(** The colour [encodePacket] makes of the buffer bytes [i], [i+1], [i+2]. *)
Definition colour_at (buffer : list uchar) (i : Z) : COLORREF :=
  RGB (vget buffer i)
      (if i + 1 <? vsize buffer then vget buffer (i + 1) else x00)
      (if i + 2 <? vsize buffer then vget buffer (i + 2) else x00).

(** The colours of [k] consecutive pixels, from buffer index [i] on. *)
Fixpoint colours (buffer : list uchar) (k : nat) (i : Z) : list COLORREF :=
  match k with
  | O => []
  | S k' => colour_at buffer i :: colours buffer k' (i + 3)
  end.

(** Writing a list of pixels in order. *)
Fixpoint paint (s : Screen) (l : list (Z * Z * COLORREF)) : Screen :=
  match l with
  | [] => s
  | (x, y, c) :: l' => paint (set_pixel s x y c) l'
  end.

Definition op_set (p : Z * Z * COLORREF) : Op := OpSet (fst (fst p)) (snd (fst p)) (snd p).
Definition op_get (p : Z * Z) : Op := OpGet (fst p) (snd p).

(** The number of pixels that hold [n] bytes: ceil(n / 3). *)
Definition pixels_for (n : Z) : nat := Z.to_nat ((n + 2) / 3).

(** [k] runs of a loop body whose index goes up by three. *)
Fixpoint steps {St : Type} (k : nat) (body : Z -> St -> SM St) (i : Z) (st : St)
    : SM St :=
  match k with
  | O => ret st
  | S k' => st' <- body i st ;; steps k' body (i + 3) st'
  end.

Definition is_get (o : Op) : bool :=
  match o with OpGet _ _ => true | OpSet _ _ _ => false end.

Definition op_xy (o : Op) : Z * Z :=
  match o with
  | OpSet x y _ => (x, y)
  | OpGet x y => (x, y)
  end.

(** The pixels [encodePacket] writes, in order. *)
Definition encode_writes (w : Z) (startX startY : Z) (packet : Packet)
    : list (Z * Z * COLORREF) :=
  let buffer := serialize packet in
  let k := pixels_for (vsize buffer) in
  combine (track w k (startX, startY)) (colours buffer k 0).

(** The header as [decodePacket] reads it: the bytes of three pixels. *)
Definition header (s : Screen) (startX startY : Z) : list uchar :=
  scan s 3 (startX, startY).

Definition header_prefix (s : Screen) (startX startY : Z) : Z :=
  uint32_of_bytes (header s startX startY).

Definition header_size (s : Screen) (startX startY : Z) : Z :=
  uint32_of_bytes (skipn 4 (header s startX startY)).

(** Encode a payload at a start coordinate, then decode from the same
    coordinate. *)
Definition roundtrip (hdc : HDC) (startX startY : Z) (data : list uchar)
    (s : Screen) : Packet * Screen * list Op :=
  let sent := encodePacket (m := SM) hdc startX startY (Packet_of data) s in
  decodePacket (m := SM) hdc startX startY (screen_after sent).

(** Row first, then column. *)
Definition lex_lt (a b : Z * Z) : Prop :=
  snd a < snd b \/ (snd a = snd b /\ fst a < fst b).

(** The colours a screen holds at a list of coordinates. *)
Definition pixels_on (s : Screen) (l : list (Z * Z)) : list COLORREF :=
  List.map (fun p => pixel s (fst p) (snd p)) l.

(** A buffer read as a stream: zero beyond its end. *)
Definition byte_at (buffer : list uchar) (j : nat) : uchar := nth j buffer x00.

(** The byte that ends the payload decoded after an encode: a zero pad
    byte, or, when the payload length is 1 modulo 3, the red byte of the
    old pixel past the end of the written region. *)
Definition trailing_byte (s : Screen) (startX startY : Z) (data : list uchar) : uchar :=
  let past_end := cursor (horzres s) (pixels_for (8 + vsize data)) (startX, startY) in
  if vsize data mod 3 =? 1
  then GetRValue (pixel s (fst past_end) (snd past_end))
  else x00.

(** What is left of [main] once an unknown selector has been entered: the
    message on [std::cerr], the release of the device context, [return 0]. *)
Definition invalid_instance_exit (hdc : HDC) : itree winE Z :=
  Vis (EvCerr "Invalid instance number."%string)
      (fun _ => Vis (EvReleaseDC hdc) (fun _ => Ret 0)).

(* ===================================================================== *)
(** ** Inputs of the concrete runs *)
(* ===================================================================== *)

(** A screen of one colour. *)
Definition blank (c : COLORREF) (w : Z) : Screen :=
  {| pixel := fun _ _ => c; horzres := w |}.

(** A white screen, 1920 pixels wide: every byte of every pixel is 0xFF. *)
Definition white : Screen := blank 0xFFFFFF 1920.

Definition payload_A : list uchar := [x41].
Definition payload_AB : list uchar := [x41; x42].
Definition payload_ABC : list uchar := [x41; x42; x43].
Definition payload_hi : list uchar := [x68; x69].

(** A payload of exactly 2^32 zero bytes. *)
Definition oversized : list uchar := repeat x00 (Z.to_nat (2 ^ 32)).

(* ===================================================================== *)
(** ** Running a tree against an environment *)
(* ===================================================================== *)

(** What stands behind the events: the handle [GetDC] returns, the number
    typed at the prompt, the lines typed later, and the screen. *)
Record Env : Type := mkEnv {
  env_dc : HDC;
  env_selector : Z;
  env_lines : list String.string;
  env_screen : Screen
}.

(** The answer of the environment to one event, and the environment
    after it.  [std::getline] at the end of the input gives the empty
    line. *)
Definition answer {A : Type} (env : Env) (e : winE A) : A * Env :=
  match e in winE T return T * Env with
  | EvSetPixel _ x y c =>
      (tt, {| env_dc := env_dc env; env_selector := env_selector env;
              env_lines := env_lines env;
              env_screen := set_pixel (env_screen env) x y c |})
  | EvGetPixel _ x y => (pixel (env_screen env) x y, env)
  | EvHorzRes _ => (horzres (env_screen env), env)
  | EvGetDC => (env_dc env, env)
  | EvReleaseDC _ => (tt, env)
  | EvCout _ => (tt, env)
  | EvCerr _ => (tt, env)
  | EvEndl => (tt, env)
  | EvGetLine =>
      (hd String.EmptyString (env_lines env),
       {| env_dc := env_dc env; env_selector := env_selector env;
          env_lines := tl (env_lines env);
          env_screen := env_screen env |})
  | EvCinInt => (env_selector env, env)
  | EvCinIgnore => (tt, env)
  | EvSleep _ => (tt, env)
  end.

(** An event of any answer type, for the record of a run. *)
Inductive Event : Type :=
| Ev {A : Type} (e : winE A).

(** The first [fuel] steps of a tree in an environment: the events in
    order, the environment after them and, when the tree returns within
    those steps, its result. *)
Fixpoint run {R : Type} (fuel : nat) (env : Env) (t : itree winE R)
    : list Event * Env * option R :=
  match fuel with
  | O => ([], env, None)
  | S fuel' =>
      match observe t with
      | RetF r => ([], env, Some r)
      | TauF t' => run fuel' env t'
      | VisF e k =>
          let '(a, env') := answer env e in
          let '(tr, env'', r) := run fuel' env' (k a) in
          (Ev e :: tr, env'', r)
      end
  end.

Definition trace {R} (r : list Event * Env * option R) : list Event := fst (fst r).
Definition env_after {R} (r : list Event * Env * option R) : Env := snd (fst r).
Definition returned {R} (r : list Event * Env * option R) : option R := snd r.

(* ===================================================================== *)
(** ** More reference functions *)
(* ===================================================================== *)

Definition is_set (o : Op) : bool :=
  match o with OpSet _ _ _ => true | OpGet _ _ => false end.

(** Two screens that a scan cannot tell apart on a list of pixels. *)
Definition agree_on (s s' : Screen) (l : list (Z * Z)) : Prop :=
  horzres s' = horzres s
  /\ forall p, In p l -> pixel s' (fst p) (snd p) = pixel s (fst p) (snd p).

(** The pixels [decodePacket] reads on a screen, in order.  The handle is
    not part of an operation, so any one does. *)
Definition decode_reads (s : Screen) (startX startY : Z) : list (Z * Z) :=
  List.map op_xy (ops (decodePacket (m := SM) 1 startX startY s)).

(** A run put after a list of events that came before it. *)
Definition prepend {R : Type} (tr : list Event) (r : list Event * Env * option R)
    : list Event * Env * option R :=
  (tr ++ trace r, env_after r, returned r).

(** Every event of every run of a tree satisfies [P]. *)
Definition emits {R : Type} (P : Event -> Prop) (t : itree winE R) : Prop :=
  forall (fuel : nat) (env : Env), Forall P (trace (run fuel env t)).

(** The events of a role loop: everything but the release of the device
    context and a line on [std::cerr]. *)
Definition role_event (ev : Event) : Prop :=
  match ev with
  | Ev e =>
      match e with
      | EvReleaseDC _ => False
      | EvCerr _ => False
      | _ => True
      end
  end.

(** An environment with another screen. *)
Definition with_screen (env : Env) (s : Screen) : Env :=
  {| env_dc := env_dc env; env_selector := env_selector env;
     env_lines := env_lines env; env_screen := s |}.

(** An environment after one line has been read. *)
Definition line_read (env : Env) : Env :=
  {| env_dc := env_dc env; env_selector := env_selector env;
     env_lines := tl (env_lines env); env_screen := env_screen env |}.

(** The events of writing a list of pixels: each [SetPixel] is followed by
    the [GetDeviceCaps] of the cursor rule. *)
Definition write_events (hdc : HDC) (l : list (Z * Z * COLORREF)) : list Event :=
  flat_map (fun p => [Ev (EvSetPixel hdc (fst (fst p)) (snd (fst p)) (snd p));
                      Ev (EvHorzRes hdc)]) l.

(** The events of reading a list of pixels. *)
Definition read_events (hdc : HDC) (l : list (Z * Z)) : list Event :=
  flat_map (fun p => [Ev (EvGetPixel hdc (fst p) (snd p)); Ev (EvHorzRes hdc)]) l.

(** In every context, [t] started in [env] performs exactly the events
    [tr], one unit of fuel each, and goes on with the result [a] in the
    environment [env']. *)
Definition runs_as {A : Type} (t : itree winE A) (env : Env) (tr : list Event)
    (a : A) (env' : Env) : Prop :=
  forall (R : Type) (k : A -> itree winE R) (fuel : nat),
    run (length tr + fuel) env (ITree.bind t k) = prepend tr (run fuel env' (k a)).

(** One list is the beginning of another. *)
Definition prefix_of {A : Type} (l l' : list A) : Prop := exists rest, l' = l ++ rest.

(** One poll of a region that holds no frame: three pixels read, then the
    sleep. *)
Definition idle_poll (hdc : HDC) (w : Z) (rxStartX rxStartY : Z) : list Event :=
  read_events hdc (track w 3 (rxStartX, rxStartY)) ++ [Ev (EvSleep 100)].


(** What a role prints for a frame it accepted:
    [std::cout << "Them: " << message << std::endl]. *)
Definition shown (p : Packet) : list Event :=
  [Ev (EvCout "Them: "%string); Ev (EvCout (string_of_payload (payload p))); Ev EvEndl].

(** The prompt, the line read, and the frame of that line written from the
    transmit corner. *)
Definition typed (hdc : HDC) (txStartX txStartY : Z) (env : Env) : list Event :=
  [Ev (EvCout "You: "%string); Ev EvGetLine]
  ++ write_events hdc
       (encode_writes (horzres (env_screen env)) txStartX txStartY
          (Packet_of (payload_of_string (hd String.EmptyString (env_lines env))))).

(** The environment after that: one line consumed, the frame on the
    screen. *)
Definition after_typed (hdc : HDC) (txStartX txStartY : Z) (env : Env) : Env :=
  with_screen (line_read env)
    (screen_after
       (encodePacket (m := SM) hdc txStartX txStartY
          (Packet_of (payload_of_string (hd String.EmptyString (env_lines env))))
          (env_screen env))).
(** The layout Scenario A describes and [decodePacket] reads: the eight
    header bytes and one byte of filling in three pixels of their own,
    then the payload in pixels of its own, three bytes each, the last one
    filled up with zeros. *)
Definition aligned_writes (w : Z) (startX startY : Z) (data : list uchar) (filling : uchar)
    : list (Z * Z * COLORREF) :=
  let head := bytes_of_uint32 PREFIX ++ bytes_of_uint32 (vsize data) ++ [filling] in
  combine (track w (3 + pixels_for (vsize data)) (startX, startY))
          (colours head 3 0 ++ colours data (pixels_for (vsize data)) 0).

(* ===================================================================== *)
(** ** Third instance: threads of one process under a scheduler *)
(* ===================================================================== *)

(** A call as a thread performs it, one action at a time: the pixel
    operations and the two operations on [screenMutex].  Between two
    actions of a thread the scheduler may run any other thread. *)
Inductive Prog (A : Type) : Type :=
| Done (a : A)
| DoLock (k : Prog A)                                        (* screenMutex.lock() *)
| DoUnlock (k : Prog A)                                      (* screenMutex.unlock() *)
| DoSetPixel (hdc : HDC) (x y : Z) (c : COLORREF) (k : Prog A)
| DoGetPixel (hdc : HDC) (x y : Z) (k : COLORREF -> Prog A)
| DoHorzRes (hdc : HDC) (k : Z -> Prog A).

Arguments Done {A} a.
Arguments DoLock {A} k.
Arguments DoUnlock {A} k.
Arguments DoSetPixel {A} hdc x y c k.
Arguments DoGetPixel {A} hdc x y k.
Arguments DoHorzRes {A} hdc k.

Fixpoint Prog_bind {A B : Type} (p : Prog A) (f : A -> Prog B) : Prog B :=
  match p with
  | Done a => f a
  | DoLock k => DoLock (Prog_bind k f)
  | DoUnlock k => DoUnlock (Prog_bind k f)
  | DoSetPixel hdc x y c k => DoSetPixel hdc x y c (Prog_bind k f)
  | DoGetPixel hdc x y k => DoGetPixel hdc x y (fun c => Prog_bind (k c) f)
  | DoHorzRes hdc k => DoHorzRes hdc (fun w => Prog_bind (k w) f)
  end.

#[export] Instance Monad_Prog : Monad Prog := {
  ret := fun _ a => Done a;
  bind := fun _ _ p f => Prog_bind p f
}.

#[export] Instance Surface_Prog : Surface Prog := {
  SetPixel := fun hdc x y c => DoSetPixel hdc x y c (Done tt);
  GetPixel := fun hdc x y => DoGetPixel hdc x y (fun c => Done c);
  GetDeviceCaps_HORZRES := fun hdc => DoHorzRes hdc (fun w => Done w)
}.

#[export] Instance Mutex_Prog : Mutex Prog := {
  screenMutex_lock := DoLock (Done tt);
  screenMutex_unlock := DoUnlock (Done tt)
}.

(** What a thread does: a finite sequence of calls of the two functions
    that touch the screen, where a later call may depend on what an earlier
    [decodePacket] returned. *)
Inductive Script : Type :=
| Stop
| CallEncode (hdc : HDC) (startX startY : Z) (packet : Packet) (next : Script)
| CallDecode (hdc : HDC) (startX startY : Z) (next : Packet -> Script).

Fixpoint play (sc : Script) : Prog unit :=
  match sc with
  | Stop => ret tt
  | CallEncode hdc startX startY packet next =>
      encodePacket hdc startX startY packet ;; play next
  | CallDecode hdc startX startY next =>
      received <- decodePacket hdc startX startY ;; play (next received)
  end.

(** The process: the screen, the thread that owns [screenMutex] if any,
    and what is left to do of each thread. *)
Record Machine : Type := mkMachine {
  m_screen : Screen;
  m_owner : option nat;
  m_threads : list (Prog unit)
}.

(** What one step of a thread was. *)
Inductive Tag : Type :=
| TLock
| TUnlock
| TPixel (o : Op)
| TCaps.

(** [l] with its element [i] replaced. *)
Fixpoint set_nth {A : Type} (i : nat) (a : A) (l : list A) : list A :=
  match l, i with
  | [], _ => []
  | _ :: l', O => a :: l'
  | b :: l', S i' => b :: set_nth i' a l'
  end.

(** One step of thread [i], if it can take one.  [lock()] blocks while the
    mutex is owned; a thread that has returned takes no step.  Nothing in
    the machine keeps a thread that does not own the mutex from the
    pixels. *)
Definition step (i : nat) (m : Machine) : option (Tag * Machine) :=
  let s := m_screen m in
  let go (t : Tag) (s' : Screen) (o : option nat) (k : Prog unit) :=
    Some (t, {| m_screen := s'; m_owner := o;
                m_threads := set_nth i k (m_threads m) |}) in
  match nth_error (m_threads m) i with
  | None => None
  | Some p =>
      match p with
      | Done _ => None
      | DoLock k =>
          match m_owner m with
          | None => go TLock s (Some i) k
          | Some _ => None
          end
      | DoUnlock k =>
          match m_owner m with
          | Some j => if Nat.eqb j i then go TUnlock s None k else None
          | None => None
          end
      | DoSetPixel _ x y c k => go (TPixel (OpSet x y c)) (set_pixel s x y c) (m_owner m) k
      | DoGetPixel _ x y k => go (TPixel (OpGet x y)) s (m_owner m) (k (pixel s x y))
      | DoHorzRes _ k => go TCaps s (m_owner m) (k (horzres s))
      end
  end.

(** An interleaving: the scheduler names a thread at each turn; a thread
    that cannot step loses its turn.  The result is the steps taken, each
    with its thread, and the machine reached. *)
Fixpoint exec (sched : list nat) (m : Machine) : list (nat * Tag) * Machine :=
  match sched with
  | [] => ([], m)
  | i :: sched' =>
      match step i m with
      | None => exec sched' m
      | Some (t, m') =>
          let '(tr, m'') := exec sched' m' in ((i, t) :: tr, m'')
      end
  end.

(** The process at the start: the mutex free, every thread at the
    beginning of its script. *)
Definition start (s : Screen) (scripts : list Script) : Machine :=
  {| m_screen := s; m_owner := None; m_threads := List.map play scripts |}.

(** Who holds the mutex after a sequence of steps, read off the steps
    alone: the thread of the last [lock] if no [unlock] came after it. *)
Definition holder_from (o : option nat) (tr : list (nat * Tag)) : option nat :=
  fold_left (fun o e => match snd e with
                        | TLock => Some (fst e)
                        | TUnlock => None
                        | _ => o
                        end) tr o.

Definition holder (tr : list (nat * Tag)) : option nat := holder_from None tr.

(** The shape of a call under a [lock_guard]: pixel operations and width
    queries only, then one [unlock], then the return. *)
Fixpoint guarded_body {A : Type} (p : Prog A) : Prop :=
  match p with
  | Done _ => False
  | DoLock _ => False
  | DoUnlock k => match k with Done _ => True | _ => False end
  | DoSetPixel _ _ _ _ k => guarded_body k
  | DoGetPixel _ _ _ k => forall c, guarded_body (k c)
  | DoHorzRes _ k => forall w, guarded_body (k w)
  end.

(** One [lock] first, then a guarded body. *)
Definition whole_call {A : Type} (p : Prog A) : Prop :=
  match p with
  | DoLock k => guarded_body k
  | _ => False
  end.

(** A thread that keeps the discipline: it touches the screen only
    between a [lock] and the next [unlock].  [held] says on which side of
    a [lock] the thread is. *)
Fixpoint disciplined {A : Type} (held : bool) (p : Prog A) : Prop :=
  match p with
  | Done _ => held = false
  | DoLock k => held = false /\ disciplined true k
  | DoUnlock k => held = true /\ disciplined false k
  | DoSetPixel _ _ _ _ k => held = true /\ disciplined true k
  | DoGetPixel _ _ _ k => held = true /\ forall c, disciplined true (k c)
  | DoHorzRes _ k => held = true /\ forall w, disciplined true (k w)
  end.

(** No operation on the mutex. *)
Fixpoint surface_only {A : Type} (p : Prog A) : Prop :=
  match p with
  | Done _ => True
  | DoLock _ => False
  | DoUnlock _ => False
  | DoSetPixel _ _ _ _ k => surface_only k
  | DoGetPixel _ _ _ k => forall c, surface_only (k c)
  | DoHorzRes _ k => forall w, surface_only (k w)
  end.

Definition owned_by (m : Machine) (i : nat) : bool :=
  match m_owner m with
  | Some j => Nat.eqb j i
  | None => false
  end.

(** Every thread keeps the discipline, and the owner is one of them. *)
Definition well_locked (m : Machine) : Prop :=
  (forall i p, nth_error (m_threads m) i = Some p -> disciplined (owned_by m i) p)
  /\ (forall j, m_owner m = Some j -> (j < length (m_threads m))%nat).

(** Two threads on the white screen: one sends "hi" from (0,0), the other
    reads at (0,0). *)
Definition writer_and_reader : list Script :=
  [CallEncode 1 0 0 (Packet_of payload_hi) Stop; CallDecode 1 0 0 (fun _ => Stop)].

(** Two threads that touch the screen without the guard: one writes two
    pixels, the other reads the same two. *)
Definition unguarded_pair : list (Prog unit) :=
  [ SetPixel 1 0 0 (RGB xbe xba xfe) ;; SetPixel 1 1 0 (RGB xca x02 x00) ;
    GetPixel 1 0 0 ;; GetPixel 1 1 0 ;; ret tt ].

(** A program run alone, in the first instance: the mutex is free and is
    given back, the pixel operations are logged. *)
Fixpoint solo {A : Type} (p : Prog A) : SM A :=
  fun s =>
    match p with
    | Done a => (a, s, [])
    | DoLock k => solo k s
    | DoUnlock k => solo k s
    | DoSetPixel _ x y c k =>
        let '(a, s', l) := solo k (set_pixel s x y c) in (a, s', OpSet x y c :: l)
    | DoGetPixel _ x y k =>
        let '(a, s', l) := solo (k (pixel s x y)) s in (a, s', OpGet x y :: l)
    | DoHorzRes _ k => solo (k (horzres s)) s
    end.

(** A thread that holds the mutex, run alone up to its [unlock]: the
    screen then, and what is left of the thread. *)
Fixpoint completes {A : Type} (p : Prog A) (s : Screen) : Screen * Prog A :=
  match p with
  | Done a => (s, Done a)
  | DoLock k => (s, DoLock k)
  | DoUnlock k => (s, k)
  | DoSetPixel _ x y c k => completes k (set_pixel s x y c)
  | DoGetPixel _ x y k => completes (k (pixel s x y)) s
  | DoHorzRes _ k => completes (k (horzres s)) s
  end.

(** The next call of a script as one indivisible step, computed by the
    first instance. *)
Definition call_step (sc : Script) (s : Screen) : option (Screen * Script) :=
  match sc with
  | Stop => None
  | CallEncode hdc startX startY packet next =>
      let r := encodePacket (m := SM) hdc startX startY packet s in
      Some (screen_after r, next)
  | CallDecode hdc startX startY next =>
      let r := decodePacket (m := SM) hdc startX startY s in
      Some (screen_after r, next (result r))
  end.

(** The calls run one after another, whole: at each turn the named thread
    makes its next call. *)
Fixpoint serial (order : list nat) (s : Screen) (scripts : list Script)
    : Screen * list Script :=
  match order with
  | [] => (s, scripts)
  | i :: order' =>
      match nth_error scripts i with
      | None => serial order' s scripts
      | Some sc =>
          match call_step sc s with
          | None => serial order' s scripts
          | Some (s', sc') => serial order' s' (set_nth i sc' scripts)
          end
      end
  end.

(** The threads of the [lock] steps, in order. *)
Definition lock_order (tr : list (nat * Tag)) : list nat :=
  List.map fst (filter (fun e => match snd e with TLock => true | _ => false end) tr).

(** The machine seen from the calls: every call that has taken the mutex
    counts as made.  [s0] and [scripts] are the screen and the scripts
    once the call in progress, if any, is through. *)
Definition settles (m : Machine) (s0 : Screen) (scripts : list Script) : Prop :=
  match m_owner m with
  | None => m_screen m = s0 /\ m_threads m = List.map play scripts
  | Some i =>
      (forall j, j <> i ->
                 nth_error (m_threads m) j = nth_error (List.map play scripts) j)
      /\ exists p sc,
           nth_error (m_threads m) i = Some p
           /\ nth_error scripts i = Some sc
           /\ completes p (m_screen m) = (s0, play sc)
  end.

(* ===================================================================== *)
(** ** Bytes, words and colours *)
(* ===================================================================== *)

Lemma uchar_to_Z_range (b : uchar) : 0 <= uchar_to_Z b < 256.
Proof.
  unfold uchar_to_Z. pose proof (Byte.to_N_bounded b). lia.
Qed.

Lemma Z_to_uchar_to_Z (b : uchar) : Z_to_uchar (uchar_to_Z b) = b.
Proof.
  unfold Z_to_uchar. pose proof (uchar_to_Z_range b) as Hb.
  rewrite Z.mod_small by lia. unfold uchar_to_Z.
  rewrite N2Z.id, Byte.of_to_N. reflexivity.
Qed.

Lemma uchar_to_Z_of_Z (z : Z) : uchar_to_Z (Z_to_uchar z) = z mod 256.
Proof.
  unfold Z_to_uchar, uchar_to_Z.
  assert (Hm : 0 <= z mod 256 < 256) by (apply Z.mod_pos_bound; lia).
  destruct (Byte.of_N (Z.to_N (z mod 256))) as [b|] eqn:E.
  - apply Byte.to_of_N in E. rewrite E. lia.
  - apply Byte.of_N_None_iff in E. lia.
Qed.

Lemma Z_to_uchar_mod (z : Z) : Z_to_uchar (z mod 256) = Z_to_uchar z.
Proof.
  unfold Z_to_uchar. rewrite Z.mod_mod by lia. reflexivity.
Qed.

Lemma Z_to_uchar_eq (z : Z) (b : uchar) :
  z mod 256 = uchar_to_Z b -> Z_to_uchar z = b.
Proof.
  intros E. rewrite <- Z_to_uchar_mod, E. apply Z_to_uchar_to_Z.
Qed.

Lemma land_shiftl_low (a b k : Z) :
  0 <= k -> 0 <= a < 2 ^ k -> Z.land a (Z.shiftl b k) = 0.
Proof.
  intros Hk Ha. apply Z.bits_inj'. intros n Hn.
  rewrite Z.land_spec, Z.bits_0.
  destruct (Z.ltb_spec n k) as [Hlt | Hge].
  - rewrite Z.shiftl_spec_low by lia. apply andb_false_r.
  - rewrite <- (Z.mod_small a (2 ^ k)) by lia.
    rewrite Z.mod_pow2_bits_high by lia. reflexivity.
Qed.

Lemma lor_shiftl_add (a b k : Z) :
  0 <= k -> 0 <= a < 2 ^ k -> Z.lor a (Z.shiftl b k) = a + b * 2 ^ k.
Proof.
  intros Hk Ha.
  rewrite <- Z.lxor_lor, <- Z.add_nocarry_lxor
    by (apply land_shiftl_low; assumption).
  rewrite Z.shiftl_mul_pow2 by lia. reflexivity.
Qed.

(** [RGB] as arithmetic: 0x00bbggrr. *)
Lemma RGB_sum (r g b : uchar) :
  RGB r g b = uchar_to_Z r + 256 * uchar_to_Z g + 65536 * uchar_to_Z b.
Proof.
  unfold RGB.
  pose proof (uchar_to_Z_range r). pose proof (uchar_to_Z_range g).
  pose proof (uchar_to_Z_range b).
  rewrite (lor_shiftl_add (uchar_to_Z r)) by lia.
  rewrite lor_shiftl_add by lia. lia.
Qed.

Lemma GetRValue_RGB (r g b : uchar) : GetRValue (RGB r g b) = r.
Proof.
  unfold GetRValue. apply Z_to_uchar_eq. rewrite RGB_sum.
  pose proof (uchar_to_Z_range r). Z.div_mod_to_equations. lia.
Qed.

Lemma GetGValue_RGB (r g b : uchar) : GetGValue (RGB r g b) = g.
Proof.
  unfold GetGValue. apply Z_to_uchar_eq. rewrite RGB_sum, Z.shiftr_div_pow2 by lia.
  pose proof (uchar_to_Z_range r). pose proof (uchar_to_Z_range g).
  change (2 ^ 8) with 256. Z.div_mod_to_equations. lia.
Qed.

Lemma GetBValue_RGB (r g b : uchar) : GetBValue (RGB r g b) = b.
Proof.
  unfold GetBValue. apply Z_to_uchar_eq. rewrite RGB_sum, Z.shiftr_div_pow2 by lia.
  pose proof (uchar_to_Z_range r). pose proof (uchar_to_Z_range g).
  pose proof (uchar_to_Z_range b).
  change (2 ^ 16) with 65536. Z.div_mod_to_equations. lia.
Qed.

(** A pixel gives back the triple that was packed into it. *)
Lemma pixel_bytes_RGB (r g b : uchar) : pixel_bytes (RGB r g b) = [r; g; b].
Proof.
  unfold pixel_bytes. rewrite GetRValue_RGB, GetGValue_RGB, GetBValue_RGB.
  reflexivity.
Qed.

(** A little-endian word, as arithmetic. *)
Lemma uint32_of_bytes_sum (b0 b1 b2 b3 : uchar) (rest : list uchar) :
  uint32_of_bytes (b0 :: b1 :: b2 :: b3 :: rest)
  = uchar_to_Z b0 + 256 * uchar_to_Z b1 + 65536 * uchar_to_Z b2
    + 16777216 * uchar_to_Z b3.
Proof.
  unfold uint32_of_bytes. cbn [nth].
  pose proof (uchar_to_Z_range b0). pose proof (uchar_to_Z_range b1).
  pose proof (uchar_to_Z_range b2). pose proof (uchar_to_Z_range b3).
  replace (Z.shiftl (uchar_to_Z b3) 24)
    with (Z.shiftl (Z.shiftl (uchar_to_Z b3) 8) 16)
    by (rewrite Z.shiftl_shiftl by lia; reflexivity).
  rewrite <- Z.shiftl_lor.
  rewrite (lor_shiftl_add (uchar_to_Z b0)), (lor_shiftl_add (uchar_to_Z b2)) by lia.
  rewrite lor_shiftl_add by lia. lia.
Qed.

Lemma uint32_of_bytes_range (l : list uchar) : 0 <= uint32_of_bytes l < 2 ^ 32.
Proof.
  assert (E : uint32_of_bytes l
              = uint32_of_bytes [nth 0 l x00; nth 1 l x00; nth 2 l x00; nth 3 l x00])
    by reflexivity.
  rewrite E, uint32_of_bytes_sum.
  pose proof (uchar_to_Z_range (nth 0 l x00)).
  pose proof (uchar_to_Z_range (nth 1 l x00)).
  pose proof (uchar_to_Z_range (nth 2 l x00)).
  pose proof (uchar_to_Z_range (nth 3 l x00)).
  lia.
Qed.

(** [memcpy] of a word out and back in gives the word, as a [uint32_t]. *)
Lemma uint32_of_bytes_of_uint32 (v : Z) (rest : list uchar) :
  uint32_of_bytes (bytes_of_uint32 v ++ rest) = v mod 2 ^ 32.
Proof.
  unfold bytes_of_uint32. cbn [app]. rewrite uint32_of_bytes_sum.
  rewrite !uchar_to_Z_of_Z, !Z.shiftr_div_pow2 by lia.
  change (2 ^ 8) with 256. change (2 ^ 16) with 65536.
  change (2 ^ 24) with 16777216. change (2 ^ 32) with 4294967296.
  Z.div_mod_to_equations. lia.
Qed.

(** The other direction: the four bytes are determined by the word. *)
Lemma bytes_of_uint32_of_bytes (b0 b1 b2 b3 : uchar) (rest : list uchar) :
  bytes_of_uint32 (uint32_of_bytes (b0 :: b1 :: b2 :: b3 :: rest))
  = [b0; b1; b2; b3].
Proof.
  rewrite uint32_of_bytes_sum. unfold bytes_of_uint32.
  pose proof (uchar_to_Z_range b0). pose proof (uchar_to_Z_range b1).
  pose proof (uchar_to_Z_range b2). pose proof (uchar_to_Z_range b3).
  rewrite !Z.shiftr_div_pow2 by lia.
  change (2 ^ 8) with 256. change (2 ^ 16) with 65536.
  change (2 ^ 24) with 16777216.
  repeat f_equal; apply Z_to_uchar_eq; Z.div_mod_to_equations; lia.
Qed.

(* ===================================================================== *)
(** ** Serialisation *)
(* ===================================================================== *)

(** The buffer is the two words, then the payload. *)
Lemma serialize_eq (packet : Packet) :
  serialize packet
  = bytes_of_uint32 (prefix packet) ++ bytes_of_uint32 (size packet)
    ++ payload packet.
Proof.
  unfold serialize, memcpy, bytes_of_uint32.
  cbn [repeat firstn skipn app Nat.add length].
  rewrite skipn_all2 by (rewrite repeat_length; lia).
  rewrite app_nil_r. reflexivity.
Qed.

Lemma serialize_length (packet : Packet) :
  vsize (serialize packet) = 8 + vsize (payload packet).
Proof.
  rewrite serialize_eq. unfold vsize, bytes_of_uint32.
  rewrite !length_app. cbn [length]. lia.
Qed.

(* ===================================================================== *)
(** ** Loop control: the fuel is enough *)
(* ===================================================================== *)

Lemma SM_bind_run {A B} (c : SM A) (f : A -> SM B) (s : Screen) :
  bind c f s
  = (result (f (result (c s)) (screen_after (c s))),
     screen_after (f (result (c s)) (screen_after (c s))),
     ops (c s) ++ ops (f (result (c s)) (screen_after (c s)))).
Proof.
  cbn. destruct (c s) as [[a s1] l1]. cbn.
  destruct (f a s1) as [[b s2] l2]. reflexivity.
Qed.

(** A loop [for (i = i0; i < n; i = step i)] whose step adds three below
    [n] runs its body ceil((n - i0) / 3) times, whatever fuel it is given
    beyond that many iterations. *)
Lemma for_loop_steps {St : Type} (body : Z -> St -> SM St) (n : Z) (step : Z -> Z) :
  (forall i, 0 <= i < n -> i mod 3 = 0 -> step i = i + 3) ->
  forall (fuel : nat) (i : Z) (st : St) (s : Screen),
    0 <= i -> i mod 3 = 0 -> n - i <= 3 * Z.of_nat fuel ->
    for_loop (m := SM) fuel (fun j => j <? n) step body i st s
    = steps (pixels_for (n - i)) body i st s.
Proof.
  intros Hstep. unfold pixels_for.
  induction fuel as [|fuel IH]; intros i st s Hi Hm Hf.
  - replace (Z.to_nat ((n - i + 2) / 3)) with O
      by (Z.div_mod_to_equations; lia).
    reflexivity.
  - cbn [for_loop]. destruct (Z.ltb_spec i n) as [Hlt | Hge].
    + replace (Z.to_nat ((n - i + 2) / 3))
        with (S (Z.to_nat ((n - (i + 3) + 2) / 3)))
        by (Z.div_mod_to_equations; lia).
      cbn [steps]. rewrite !SM_bind_run.
      rewrite Hstep by lia.
      rewrite IH; [reflexivity | lia | | lia].
      Z.div_mod_to_equations; lia.
    + replace (Z.to_nat ((n - i + 2) / 3)) with O
        by (Z.div_mod_to_equations; lia).
      reflexivity.
Qed.

(** The index of the payload loop is a [uint32_t]; it never wraps, because
    the largest [uint32_t] is a multiple of three. *)
Lemma uint32_step_no_wrap (n i : Z) :
  n < 2 ^ 32 -> 0 <= i < n -> i mod 3 = 0 -> to_uint32 (i + 3) = i + 3.
Proof.
  intros Hn Hi Hm. unfold to_uint32. apply Z.mod_small.
  change (2 ^ 32) with 4294967296 in *. Z.div_mod_to_equations. lia.
Qed.

(* ===================================================================== *)
(** ** What the loop bodies do *)
(* ===================================================================== *)

Lemma advance_run (hdc : HDC) (x y : Z) (s : Screen) :
  advance (m := SM) hdc x y s = (next_xy (horzres s) (x, y), s, []).
Proof.
  unfold advance, next_xy. cbn.
  destruct (x + 1 >=? horzres s); reflexivity.
Qed.

Lemma decode_body_run (hdc : HDC) (i x y : Z) (acc : list uchar) (s : Screen) :
  decode_body (m := SM) hdc i (x, y, acc) s
  = ((next_xy (horzres s) (x, y), acc ++ pixel_bytes (pixel s x y)), s, [OpGet x y]).
Proof.
  unfold decode_body. rewrite SM_bind_run. cbn [GetPixel Surface_SM result screen_after ops fst snd].
  rewrite SM_bind_run, advance_run. cbn [result screen_after ops fst snd].
  destruct (next_xy (horzres s) (x, y)) as [x' y'].
  cbn. rewrite <- !app_assoc. reflexivity.
Qed.

Lemma encode_body_run (hdc : HDC) (buffer : list uchar) (i x y : Z) (s : Screen) :
  encode_body (m := SM) hdc buffer i (x, y) s
  = (next_xy (horzres s) (x, y), set_pixel s x y (colour_at buffer i),
     [OpSet x y (colour_at buffer i)]).
Proof.
  unfold encode_body. rewrite SM_bind_run. cbn [SetPixel Surface_SM result screen_after ops fst snd].
  rewrite advance_run. reflexivity.
Qed.

(** [k] pixels read: the cursor moves [k] places, the bytes of the pixels
    under it are appended, the screen is as before. *)
Lemma steps_decode (hdc : HDC) (k : nat) :
  forall (i : Z) (xy : Z * Z) (acc : list uchar) (s : Screen),
    steps k (decode_body hdc) i (xy, acc) s
    = ((cursor (horzres s) k xy, acc ++ scan s k xy), s,
       List.map op_get (track (horzres s) k xy)).
Proof.
  induction k as [|k IH]; intros i [x y] acc s.
  - cbn. rewrite app_nil_r. reflexivity.
  - cbn [steps]. rewrite SM_bind_run, decode_body_run.
    cbn [result screen_after ops fst snd]. rewrite IH.
    unfold scan. cbn [cursor track flat_map List.map fst snd app op_get].
    rewrite <- app_assoc. reflexivity.
Qed.

Lemma horzres_paint (s : Screen) (l : list (Z * Z * COLORREF)) :
  horzres (paint s l) = horzres s.
Proof.
  revert s. induction l as [|[[x y] c] l IH]; intros s; cbn; [reflexivity|].
  rewrite IH. reflexivity.
Qed.

(** [k] pixels written: the cursor moves [k] places and the pixels under
    it take the colours of the buffer, three bytes each. *)
Lemma steps_encode (hdc : HDC) (buffer : list uchar) (k : nat) :
  forall (i : Z) (xy : Z * Z) (s : Screen),
    let writes := combine (track (horzres s) k xy) (colours buffer k i) in
    steps k (encode_body hdc buffer) i xy s
    = (cursor (horzres s) k xy, paint s writes, List.map op_set writes).
Proof.
  induction k as [|k IH]; intros i [x y] s; [reflexivity|].
  cbn [steps]. rewrite SM_bind_run, encode_body_run.
  cbn [result screen_after ops fst snd]. rewrite IH. reflexivity.
Qed.

(* ===================================================================== *)
(** ** The two codec functions in closed form *)
(* ===================================================================== *)

(** On one thread the guard changes nothing. *)
Lemma lock_guard_run {A : Type} (body : SM A) (s : Screen) :
  lock_guard (m := SM) body s = body s.
Proof.
  unfold lock_guard. cbn. destruct (body s) as [[a s1] l1].
  rewrite app_nil_r. reflexivity.
Qed.

Lemma encodePacket_run (hdc : HDC) (startX startY : Z) (packet : Packet) (s : Screen) :
  encodePacket (m := SM) hdc startX startY packet s
  = (tt, paint s (encode_writes (horzres s) startX startY packet),
     List.map op_set (encode_writes (horzres s) startX startY packet)).
Proof.
  unfold encodePacket. rewrite lock_guard_run. unfold encode_writes. rewrite SM_bind_run.
  rewrite for_loop_steps; [| intros; reflexivity | lia | reflexivity | unfold vsize; lia].
  rewrite Z.sub_0_r, steps_encode.
  cbn [result screen_after ops fst snd ret Monad_SM]. rewrite app_nil_r. reflexivity.
Qed.

Lemma header_loop_run (hdc : HDC) (startX startY : Z) (s : Screen) :
  for_loop (m := SM) 8 (fun i => i <? 4 + 4) (fun i => i + 3)
           (decode_body hdc) 0 (startX, startY, []) s
  = ((cursor (horzres s) 3 (startX, startY), header s startX startY), s,
     List.map op_get (track (horzres s) 3 (startX, startY))).
Proof.
  rewrite for_loop_steps; [| intros; reflexivity | lia | reflexivity | lia].
  change (pixels_for (4 + 4 - 0)) with 3%nat.
  rewrite steps_decode. reflexivity.
Qed.

Lemma payload_loop_run (hdc : HDC) (n : Z) (xy : Z * Z) (s : Screen) :
  0 <= n < 2 ^ 32 ->
  for_loop (m := SM) (Z.to_nat n) (fun i => i <? n) (fun i => to_uint32 (i + 3))
           (decode_body hdc) 0 (xy, []) s
  = ((cursor (horzres s) (pixels_for n) xy, scan s (pixels_for n) xy), s,
     List.map op_get (track (horzres s) (pixels_for n) xy)).
Proof.
  intros Hn.
  rewrite for_loop_steps;
    [| intros; apply (uint32_step_no_wrap n); lia | lia | reflexivity | lia].
  rewrite Z.sub_0_r, steps_decode. reflexivity.
Qed.

(** [decodePacket] in closed form: three header pixels, the prefix test,
    then ceil(size / 3) payload pixels cut to [size] bytes. *)
Lemma decodePacket_run (hdc : HDC) (startX startY : Z) (s : Screen) :
  decodePacket (m := SM) hdc startX startY s
  = let w := horzres s in
    let n := header_size s startX startY in
    let body := cursor w 3 (startX, startY) in
    if header_prefix s startX startY =? PREFIX
    then ({| prefix := header_prefix s startX startY;
             size := n;
             payload := firstn (Z.to_nat n) (scan s (pixels_for n) body) |},
          s,
          List.map op_get (track w 3 (startX, startY) ++ track w (pixels_for n) body))
    else (Packet_empty, s, List.map op_get (track w 3 (startX, startY))).
Proof.
  unfold decodePacket. rewrite lock_guard_run, SM_bind_run, header_loop_run.
  cbn [result screen_after ops fst snd].
  destruct (cursor (horzres s) 3 (startX, startY)) as [x y] eqn:Ec.
  fold (header_prefix s startX startY). fold (header_size s startX startY).
  cbv zeta.
  destruct (header_prefix s startX startY =? PREFIX) eqn:Ep; cbn [negb].
  - rewrite SM_bind_run, payload_loop_run by apply uint32_of_bytes_range.
    cbn [result screen_after ops fst snd].
    destruct (cursor (horzres s) (pixels_for (header_size s startX startY)) (x, y)).
    cbn [ret Monad_SM result screen_after ops fst snd].
    rewrite app_nil_r, List.map_app. reflexivity.
  - cbn [ret Monad_SM]. rewrite app_nil_r. reflexivity.
Qed.

Lemma track_length (w : Z) (n : nat) (xy : Z * Z) : length (track w n xy) = n.
Proof.
  revert xy. induction n as [|n IH]; intros xy; cbn; [reflexivity|].
  rewrite IH. reflexivity.
Qed.

Lemma scan_length (s : Screen) (n : nat) (xy : Z * Z) :
  length (scan s n xy) = (3 * n)%nat.
Proof.
  unfold scan. generalize (horzres s) as w. intros w. revert xy.
  induction n as [|n IH]; intros xy; [reflexivity|].
  cbn [track flat_map]. rewrite length_app, IH. cbn [pixel_bytes length]. lia.
Qed.

Lemma pixels_for_enough (n : Z) : 0 <= n -> (Z.to_nat n <= 3 * pixels_for n)%nat.
Proof.
  intros Hn. unfold pixels_for. Z.div_mod_to_equations. lia.
Qed.

Lemma forallb_is_get (l : list (Z * Z)) : forallb is_get (List.map op_get l) = true.
Proof.
  induction l as [|p l IH]; [reflexivity | exact IH].
Qed.

(* ===================================================================== *)
(** ** Decoding: what it leaves behind, what it returns *)
(* ===================================================================== *)

(** C10. [decodePacket] only reads: for every surface and start coordinate
    the surface after the call is the surface before it, every operation it
    performs is a [GetPixel], and decoding the region a second time returns
    an equal packet (the frame stays where it is). *)
Theorem decodePacket_leaves_surface (hdc : HDC) (startX startY : Z) (s : Screen) :
  let r := decodePacket (m := SM) hdc startX startY s in
  screen_after r = s
  /\ (forall x y, pixel (screen_after r) x y = pixel s x y)
  /\ forallb is_get (ops r) = true
  /\ result (decodePacket (m := SM) hdc startX startY (screen_after r)) = result r.
Proof.
  cbv zeta.
  assert (E : screen_after (decodePacket (m := SM) hdc startX startY s) = s).
  { rewrite decodePacket_run. cbv zeta.
    destruct (header_prefix s startX startY =? PREFIX); reflexivity. }
  split; [exact E|]. split; [intros; rewrite E; reflexivity|]. split.
  - rewrite decodePacket_run. cbv zeta.
    destruct (header_prefix s startX startY =? PREFIX); apply forallb_is_get.
  - rewrite E. reflexivity.
Qed.

(** The packet a decode returns has as many payload bytes as its [size]
    says, whether or not the prefix matched. *)
Lemma decodePacket_size (hdc : HDC) (startX startY : Z) (s : Screen) :
  let p := result (decodePacket (m := SM) hdc startX startY s) in
  size p = vsize (payload p).
Proof.
  cbv zeta. rewrite decodePacket_run. cbv zeta.
  destruct (header_prefix s startX startY =? PREFIX); [|reflexivity].
  cbn [result fst size payload]. unfold vsize.
  pose proof (uint32_of_bytes_range (skipn 4 (header s startX startY))) as Hr.
  fold (header_size s startX startY) in Hr.
  rewrite length_firstn, scan_length.
  pose proof (pixels_for_enough (header_size s startX startY)). lia.
Qed.

(** C7 (amended). A packet built from a payload of fewer than 2^32 bytes,
    and every packet [decodePacket] returns, has [size] equal to the byte
    length of [payload]. *)
Theorem packet_size_matches_payload (data : list uchar)
    (hdc : HDC) (startX startY : Z) (s : Screen) :
  vsize data < 2 ^ 32 ->
  size (Packet_of data) = vsize (payload (Packet_of data))
  /\ (let p := result (decodePacket (m := SM) hdc startX startY s) in
      size p = vsize (payload p)).
Proof.
  intros Hlt. split.
  - cbn [Packet_of size payload]. unfold to_uint32, vsize in *.
    apply Z.mod_small. lia.
  - apply decodePacket_size.
Qed.

Lemma packet_size_matches_payload_witness :
  let data := payload_hi in
  let s := blank 0xFFFFFF 1920 in
  size (Packet_of data) = vsize (payload (Packet_of data))
  /\ (let p := result (decodePacket (m := SM) 1 0 10 s) in
      size p = vsize (payload p)).
Proof.
  apply (packet_size_matches_payload (payload_hi) 1 0 10 (blank 0xFFFFFF 1920)).
  vm_compute. reflexivity.
Defined.

Lemma vsize_oversized : vsize oversized = 2 ^ 32.
Proof.
  unfold vsize, oversized. rewrite repeat_length, Z2Nat.id; lia.
Qed.

Lemma size_oversized : size (Packet_of oversized) = 0.
Proof.
  cbn [Packet_of size]. rewrite vsize_oversized.
  unfold to_uint32. apply Z.mod_same. lia.
Qed.

(** C7 (counterexample). For a payload of 2^32 bytes the constructor
    stores [size = 0], not the length of the payload. *)
Lemma packet_size_oversized :
  size (Packet_of oversized) = 0
  /\ size (Packet_of oversized) <> vsize (payload (Packet_of oversized)).
Proof.
  rewrite size_oversized. cbn [Packet_of payload]. rewrite vsize_oversized.
  split; [reflexivity | lia].
Qed.

(* ===================================================================== *)
(** ** Encoding: every length is accepted *)
(* ===================================================================== *)

Lemma colours_length (buffer : list uchar) (k : nat) (i : Z) :
  length (colours buffer k i) = k.
Proof.
  revert i. induction k as [|k IH]; intros i; cbn; [reflexivity|].
  rewrite IH. reflexivity.
Qed.

Lemma encode_writes_length (w startX startY : Z) (packet : Packet) :
  length (encode_writes w startX startY packet)
  = pixels_for (8 + vsize (payload packet)).
Proof.
  unfold encode_writes. rewrite length_combine, track_length, colours_length.
  rewrite serialize_length. lia.
Qed.

(** The first pixel written carries the first three bytes of the prefix
    and lies at the start coordinate. *)
Lemma encode_writes_first (w startX startY : Z) (data : list uchar) :
  exists rest,
    encode_writes w startX startY (Packet_of data)
    = (startX, startY, RGB xbe xba xfe) :: rest.
Proof.
  unfold encode_writes.
  pose proof (serialize_length (Packet_of data)) as Hlen.
  destruct (pixels_for (vsize (serialize (Packet_of data)))) as [|k] eqn:Ek.
  - exfalso. unfold pixels_for in Ek. rewrite Hlen in Ek. unfold vsize in Ek.
    revert Ek. Z.div_mod_to_equations. lia.
  - cbn [track colours combine]. eexists. f_equal. f_equal.
    unfold colour_at. rewrite Hlen.
    assert (H1 : (0 + 1 <? 8 + vsize (payload (Packet_of data))) = true)
      by (apply Z.ltb_lt; unfold vsize; lia).
    assert (H2 : (0 + 2 <? 8 + vsize (payload (Packet_of data))) = true)
      by (apply Z.ltb_lt; unfold vsize; lia).
    rewrite H1, H2, serialize_eq. reflexivity.
Qed.

(** C6 (counterexample). A payload of 2^32 bytes is not rejected: its
    length is stored as 0 and the pixels are written, beginning with the
    first three bytes of the prefix at the start coordinate. *)
Lemma encodePacket_oversized_not_rejected :
  let r := encodePacket (m := SM) 1 0 0 (Packet_of oversized) (blank 0 1920) in
  2 ^ 32 <= vsize oversized
  /\ size (Packet_of oversized) = 0
  /\ exists rest, ops r = OpSet 0 0 (RGB xbe xba xfe) :: rest.
Proof.
  cbv zeta. split; [rewrite vsize_oversized; lia|]. split.
  - apply size_oversized.
  - rewrite encodePacket_run. cbn [ops snd].
    destruct (encode_writes_first (horzres (blank 0 1920)) 0 0 oversized) as [rest E].
    rewrite E. eexists. reflexivity.
Qed.

(* ===================================================================== *)
(** ** Scenario A *)
(* ===================================================================== *)

(** Scenario A as the code runs it.  The 3-byte payload [0x41,0x42,0x43]
    serialises to the 11 bytes BE BA FE CA, 03 00 00 00, 41 42 43 (both
    words least significant byte first), and is written as four pixels:
    (BE,BA,FE), (CA,03,00), (00,00,41) and (42,43,00).  The first payload
    byte shares the third pixel with the last two bytes of the length, and
    the last pixel is filled up with one zero byte. *)
Theorem scenario_A_four_pixels (hdc : HDC) (startX startY : Z) (s : Screen) :
  let r := encodePacket (m := SM) hdc startX startY (Packet_of payload_ABC) s in
  serialize (Packet_of payload_ABC)
  = [xbe; xba; xfe; xca; x03; x00; x00; x00; x41; x42; x43]
  /\ ops r
     = List.map op_set
         (combine (track (horzres s) 4 (startX, startY))
                  [RGB xbe xba xfe; RGB xca x03 x00;
                   RGB x00 x00 x41; RGB x42 x43 x00]).
Proof.
  cbv zeta. split; [reflexivity|].
  rewrite encodePacket_run. reflexivity.
Qed.

(** On a 1920-wide surface, from (0,0), the payload of Scenario A is not
    written as one pixel (0x41,0x42,0x43) after two header pixels: four
    pixels are written and none of them has that colour. *)
Lemma scenario_A_not_three_pixels :
  let r := encodePacket (m := SM) 1 0 0 (Packet_of payload_ABC) (blank 0 1920) in
  ~ (exists h1 h2 x y, ops r = [h1; h2; OpSet x y (RGB x41 x42 x43)])
  /\ length (ops r) = 4%nat
  /\ ~ In (RGB x41 x42 x43)
          (List.map snd (encode_writes 1920 0 0 (Packet_of payload_ABC))).
Proof.
  cbv zeta. split; [| split].
  - intros (h1 & h2 & x & y & E). apply (f_equal (@length Op)) in E.
    vm_compute in E. discriminate E.
  - reflexivity.
  - vm_compute. intros [E | [E | [E | [E | []]]]]; discriminate E.
Qed.

(* ===================================================================== *)
(** ** Magic rejection *)
(* ===================================================================== *)

(** The word [decodePacket] compares with [PREFIX] is made of the first
    four bytes of the scan region, that is, of its first two pixels. *)
Lemma header_prefix_first4 (s : Screen) (startX startY : Z) :
  header_prefix s startX startY
  = uint32_of_bytes (firstn 4 (scan s 2 (startX, startY))).
Proof. reflexivity. Qed.

(** The prefix test fails exactly when those four bytes are not the bytes
    of the sentinel. *)
Lemma header_prefix_bytes (s : Screen) (startX startY : Z) :
  header_prefix s startX startY = PREFIX
  <-> firstn 4 (scan s 2 (startX, startY)) = bytes_of_uint32 PREFIX.
Proof.
  rewrite header_prefix_first4. unfold scan.
  cbn [track flat_map pixel_bytes app firstn]. split; intros E.
  - rewrite <- E. symmetry. apply bytes_of_uint32_of_bytes.
  - rewrite E. reflexivity.
Qed.

(** C4. Whenever the first four bytes read from the scan region are not
    the bytes of 0xCAFEBABE, whatever the other pixels hold, [decodePacket]
    returns the empty packet [Packet()], whose prefix is not the sentinel,
    and the only pixels it has read are the three that hold the 8-byte
    header: the payload loop is not entered. *)
Theorem decodePacket_rejects_foreign_magic (hdc : HDC) (startX startY : Z) (s : Screen) :
  firstn 4 (scan s 2 (startX, startY)) <> bytes_of_uint32 PREFIX ->
  let r := decodePacket (m := SM) hdc startX startY s in
  result r = Packet_empty
  /\ prefix (result r) <> PREFIX
  /\ ops r = List.map op_get (track (horzres s) 3 (startX, startY)).
Proof.
  intros Hne. cbv zeta. rewrite decodePacket_run. cbv zeta.
  destruct (Z.eqb_spec (header_prefix s startX startY) PREFIX) as [E | _].
  - exfalso. apply Hne. apply header_prefix_bytes. exact E.
  - cbn [result ops fst snd]. repeat split. discriminate.
Qed.

Lemma decodePacket_rejects_foreign_magic_witness :
  let s := blank 0xFFFFFF 1920 in
  let r := decodePacket (m := SM) 1 0 10 s in
  result r = Packet_empty
  /\ prefix (result r) <> PREFIX
  /\ ops r = List.map op_get (track (horzres s) 3 (0, 10)).
Proof.
  apply (decodePacket_rejects_foreign_magic 1 0 10 (blank 0xFFFFFF 1920)).
  vm_compute. discriminate.
Defined.

(* ===================================================================== *)
(** ** The role selector *)
(* ===================================================================== *)

(** For every selector other than 1 and 2, what is left of [main] is the
    tree of three steps [invalid_instance_exit]. *)
Lemma main_dispatch_invalid (hdc : HDC) (instance : Z) :
  instance <> 1 -> instance <> 2 ->
  eq_itree eq (main_dispatch hdc instance) (invalid_instance_exit hdc).
Proof.
  intros H1 H2. unfold main_dispatch, invalid_instance_exit.
  destruct (Z.eqb_spec instance 1) as [E | _]; [contradiction|].
  destruct (Z.eqb_spec instance 2) as [E | _]; [contradiction|].
  cbn [bind Monad_itree ret].
  rewrite bind_trigger. apply eqit_Vis. intros [].
  rewrite bind_trigger. apply eqit_Vis. intros [].
  reflexivity.
Qed.

(* ===================================================================== *)
(** ** The cursor never comes back *)
(* ===================================================================== *)

Lemma lex_lt_irrefl (a : Z * Z) : ~ lex_lt a a.
Proof. unfold lex_lt. lia. Qed.

Lemma lex_lt_trans (a b c : Z * Z) : lex_lt a b -> lex_lt b c -> lex_lt a c.
Proof. unfold lex_lt. lia. Qed.

Lemma next_xy_lex (w : Z) (xy : Z * Z) : lex_lt xy (next_xy w xy).
Proof.
  destruct xy as [x y]. unfold next_xy, lex_lt.
  destruct (x + 1 >=? w); cbn [fst snd]; lia.
Qed.

Lemma track_lex (w : Z) (k : nat) :
  forall xy p, In p (track w k xy) -> p = xy \/ lex_lt xy p.
Proof.
  induction k as [|k IH]; intros xy p Hin; [contradiction|].
  destruct Hin as [E | Hin]; [left; symmetry; exact E|].
  right. pose proof (next_xy_lex w xy) as Hn.
  destruct (IH _ _ Hin) as [-> | Hlt]; [exact Hn|].
  exact (lex_lt_trans _ _ _ Hn Hlt).
Qed.

Lemma cursor_lex (w : Z) (k : nat) :
  forall xy, cursor w k xy = xy \/ lex_lt xy (cursor w k xy).
Proof.
  induction k as [|k IH]; intros xy; [left; reflexivity|].
  right. cbn [cursor]. pose proof (next_xy_lex w xy) as Hn.
  destruct (IH (next_xy w xy)) as [-> | Hlt]; [exact Hn|].
  exact (lex_lt_trans _ _ _ Hn Hlt).
Qed.

(** The pixels of a scan region are pairwise distinct, for every width and
    every start coordinate. *)
Lemma track_NoDup (w : Z) (k : nat) : forall xy, NoDup (track w k xy).
Proof.
  induction k as [|k IH]; intros xy; cbn [track]; constructor; [|apply IH].
  intros Hin. apply track_lex in Hin.
  pose proof (next_xy_lex w xy) as Hn.
  destruct Hin as [E | Hlt].
  - rewrite <- E in Hn. exact (lex_lt_irrefl _ Hn).
  - exact (lex_lt_irrefl _ (lex_lt_trans _ _ _ Hn Hlt)).
Qed.

Lemma track_app (w : Z) (a b : nat) :
  forall xy, track w (a + b) xy = track w a xy ++ track w b (cursor w a xy).
Proof.
  induction a as [|a IH]; intros xy; [reflexivity|].
  cbn [Nat.add track cursor app]. rewrite IH. reflexivity.
Qed.

(** A pixel reached after the first [a] is not one of the first [a]. *)
Lemma track_beyond (w : Z) (a b : nat) (xy p : Z * Z) :
  In p (track w b (cursor w a xy)) -> ~ In p (track w a xy).
Proof.
  intros Hb Ha.
  pose proof (track_NoDup w (a + b) xy) as Hnd. rewrite track_app in Hnd.
  revert Hnd Ha Hb. generalize (track w a xy) as l1.
  generalize (track w b (cursor w a xy)) as l2. intros l2 l1.
  induction l1 as [|q l1 IH]; intros Hnd Ha Hb; [contradiction|].
  cbn [app] in Hnd. inversion Hnd as [|? ? Hq Hnd']; subst.
  destruct Ha as [-> | Ha].
  - apply Hq. apply in_or_app. right. exact Hb.
  - exact (IH Hnd' Ha Hb).
Qed.

(* ===================================================================== *)
(** ** Reading what was written *)
(* ===================================================================== *)

Lemma scan_pixels_on (s : Screen) (n : nat) (xy : Z * Z) :
  scan s n xy = flat_map pixel_bytes (pixels_on s (track (horzres s) n xy)).
Proof.
  unfold scan, pixels_on. induction (track (horzres s) n xy) as [|p l IH];
    [reflexivity|].
  cbn [flat_map List.map]. rewrite IH. reflexivity.
Qed.

Lemma pixel_set_same (s : Screen) (x y : Z) (c : COLORREF) :
  pixel (set_pixel s x y c) x y = c.
Proof. cbn. rewrite !Z.eqb_refl. reflexivity. Qed.

Lemma pixel_set_other (s : Screen) (x y x' y' : Z) (c : COLORREF) :
  (x', y') <> (x, y) -> pixel (set_pixel s x y c) x' y' = pixel s x' y'.
Proof.
  intros Hne. cbn.
  destruct (Z.eqb_spec x' x) as [-> |]; [|reflexivity].
  destruct (Z.eqb_spec y' y) as [-> |]; [|reflexivity].
  contradiction Hne. reflexivity.
Qed.

(** A pixel that is not painted keeps its colour. *)
Lemma pixel_paint_other (l : list (Z * Z * COLORREF)) :
  forall (s : Screen) (p : Z * Z),
    ~ In p (List.map fst l) -> pixel (paint s l) (fst p) (snd p) = pixel s (fst p) (snd p).
Proof.
  induction l as [|[[x y] c] l IH]; intros s p Hn; [reflexivity|].
  cbn [paint]. cbn [List.map In fst] in Hn.
  rewrite IH by tauto. apply pixel_set_other.
  destruct p as [x' y']. cbn [fst snd]. intros E. apply Hn. left. symmetry. exact E.
Qed.

Lemma pixels_on_paint_other (s : Screen) (l : list (Z * Z * COLORREF)) (q : list (Z * Z)) :
  (forall p, In p q -> ~ In p (List.map fst l)) ->
  pixels_on (paint s l) q = pixels_on s q.
Proof.
  intros Hq. unfold pixels_on. apply List.map_ext_in.
  intros p Hp. apply pixel_paint_other. exact (Hq p Hp).
Qed.

Lemma map_fst_combine_track (w : Z) (k : nat) (xy : Z * Z) (cs : list COLORREF) :
  length cs = k -> List.map fst (combine (track w k xy) cs) = track w k xy.
Proof.
  revert xy cs. induction k as [|k IH]; intros xy cs Hlen; [reflexivity|].
  destruct cs as [|c cs]; [discriminate|].
  cbn [track combine List.map fst]. rewrite IH by (cbn in Hlen; lia). reflexivity.
Qed.

(** After the pixels of a scan region have been painted, in order, with
    the colours [cs], the region holds exactly [cs]. *)
Lemma pixels_on_painted (w : Z) (k : nat) :
  forall (s : Screen) (xy : Z * Z) (cs : list COLORREF),
    length cs = k ->
    pixels_on (paint s (combine (track w k xy) cs)) (track w k xy) = cs.
Proof.
  induction k as [|k IH]; intros s xy cs Hlen.
  - destruct cs; [reflexivity | discriminate].
  - destruct cs as [|c cs]; [discriminate|]. cbn in Hlen.
    destruct xy as [x y]. cbn [track combine paint].
    change (pixels_on ?s' (?p :: ?l))
      with (pixel s' (fst p) (snd p) :: pixels_on s' l).
    rewrite IH by lia. f_equal.
    rewrite pixel_paint_other.
    + apply pixel_set_same.
    + rewrite map_fst_combine_track by lia. intros Hin.
      apply track_lex in Hin. pose proof (next_xy_lex w (x, y)) as Hn.
      destruct Hin as [E | Hlt].
      * rewrite <- E in Hn. exact (lex_lt_irrefl _ Hn).
      * exact (lex_lt_irrefl _ (lex_lt_trans _ _ _ Hn Hlt)).
Qed.

(* ===================================================================== *)
(** ** The bytes of the painted pixels *)
(* ===================================================================== *)

Lemma pixel_bytes_colour_at (buffer : list uchar) (j : nat) :
  pixel_bytes (colour_at buffer (Z.of_nat j))
  = [byte_at buffer j; byte_at buffer (S j); byte_at buffer (S (S j))].
Proof.
  unfold colour_at. rewrite pixel_bytes_RGB. unfold vget, byte_at, vsize.
  rewrite Nat2Z.id.
  replace (Z.to_nat (Z.of_nat j + 1)) with (S j) by lia.
  replace (Z.to_nat (Z.of_nat j + 2)) with (S (S j)) by lia.
  f_equal. f_equal; [|f_equal].
  - destruct (Z.ltb_spec (Z.of_nat j + 1) (Z.of_nat (length buffer)));
      [reflexivity | symmetry; apply nth_overflow; lia].
  - destruct (Z.ltb_spec (Z.of_nat j + 2) (Z.of_nat (length buffer)));
      [reflexivity | symmetry; apply nth_overflow; lia].
Qed.

(** [k] pixels from buffer index [j] on hold the [3 * k] bytes of the
    stream from [j] on: the buffer, then zero padding. *)
Lemma flat_colours (buffer : list uchar) (k : nat) :
  forall j : nat,
    flat_map pixel_bytes (colours buffer k (Z.of_nat j))
    = List.map (byte_at buffer) (seq j (3 * k)).
Proof.
  induction k as [|k IH]; intros j; [reflexivity|].
  replace (3 * S k)%nat with (S (S (S (3 * k)))) by lia.
  cbn [colours flat_map seq List.map].
  rewrite pixel_bytes_colour_at.
  replace (Z.of_nat j + 3) with (Z.of_nat (S (S (S j)))) by lia.
  rewrite IH. reflexivity.
Qed.

Lemma colours_app (buffer : list uchar) (a b : nat) :
  forall i : Z,
    colours buffer (a + b) i
    = colours buffer a i ++ colours buffer b (i + 3 * Z.of_nat a).
Proof.
  induction a as [|a IH]; intros i.
  - cbn [Nat.add colours app]. f_equal. lia.
  - cbn [Nat.add colours app]. rewrite IH. do 3 f_equal. lia.
Qed.

Lemma app_split_length {A : Type} (a c b d : list A) :
  length a = length c -> a ++ b = c ++ d -> a = c /\ b = d.
Proof.
  revert c. induction a as [|x a IH]; intros [|y c] Hlen E;
    try discriminate Hlen.
  - split; [reflexivity | exact E].
  - cbn in Hlen, E. injection E as -> E.
    destruct (IH c) as [-> ->]; [lia | exact E | split; reflexivity].
Qed.

Lemma cursor_add (w : Z) (a b : nat) :
  forall xy, cursor w (a + b) xy = cursor w b (cursor w a xy).
Proof.
  induction a as [|a IH]; intros xy; [reflexivity|].
  cbn [Nat.add cursor]. apply IH.
Qed.

Lemma map_byte_at_all (data : list uchar) :
  List.map (byte_at data) (seq 0 (length data)) = data.
Proof.
  apply nth_ext with (d := byte_at data 0%nat) (d' := x00).
  - rewrite length_map, length_seq. reflexivity.
  - intros i Hi. rewrite length_map, length_seq in Hi.
    rewrite map_nth, seq_nth by exact Hi. reflexivity.
Qed.

Lemma map_byte_at_tail (d : uchar) (data : list uchar) (j m : nat) :
  List.map (byte_at (d :: data)) (seq (S j) m) = List.map (byte_at data) (seq j m).
Proof.
  rewrite <- seq_shift, List.map_map. reflexivity.
Qed.

(** Eight header bytes in front move every index by eight. *)
Lemma map_byte_at_header (h0 h1 h2 h3 h4 h5 h6 h7 : uchar) (data : list uchar) (j m : nat) :
  List.map (byte_at (h0 :: h1 :: h2 :: h3 :: h4 :: h5 :: h6 :: h7 :: data))
           (seq (8 + j) m)
  = List.map (byte_at data) (seq j m).
Proof.
  cbn [Nat.add]. rewrite !map_byte_at_tail. reflexivity.
Qed.

(* ===================================================================== *)
(** ** What the written pixels hold *)
(* ===================================================================== *)

Lemma map_byte_at_beyond (data : list uchar) (e : nat) :
  List.map (byte_at data) (seq (length data) e) = repeat x00 e.
Proof.
  generalize (Nat.le_refl (length data)).
  generalize (length data) at 2 3 as j. revert data.
  induction e as [|e IH]; intros data j Hj; [reflexivity|].
  cbn [seq List.map repeat]. f_equal.
  - unfold byte_at. apply nth_overflow. exact Hj.
  - apply IH. lia.
Qed.

(** Zero padding: after [encodePacket] the pixels it wrote hold the
    serialised buffer followed by as many zero bytes as fill the last
    pixel (none, one or two), and nothing else. *)
Lemma encode_writes_buffer_then_padding (hdc : HDC) (startX startY : Z)
    (data : list uchar) (s : Screen) :
  let buffer := serialize (Packet_of data) in
  let k := pixels_for (vsize buffer) in
  let sent := screen_after (encodePacket (m := SM) hdc startX startY (Packet_of data) s) in
  scan sent k (startX, startY) = buffer ++ repeat x00 (3 * k - length buffer)
  /\ (3 * k - length buffer <= 2)%nat.
Proof.
  cbv zeta. rewrite encodePacket_run. cbn [screen_after fst snd]. split.
  - rewrite scan_pixels_on, horzres_paint. unfold encode_writes.
    rewrite pixels_on_painted by apply colours_length.
    change 0 with (Z.of_nat 0). rewrite flat_colours.
    replace (3 * pixels_for (vsize (serialize (Packet_of data))))%nat
      with (length (serialize (Packet_of data))
            + (3 * pixels_for (vsize (serialize (Packet_of data)))
               - length (serialize (Packet_of data))))%nat at 1
      by (unfold pixels_for, vsize; Z.div_mod_to_equations; lia).
    rewrite seq_app, List.map_app, map_byte_at_all.
    cbn [Nat.add]. rewrite map_byte_at_beyond. reflexivity.
  - unfold pixels_for, vsize. Z.div_mod_to_equations. lia.
Qed.

(* ===================================================================== *)
(** ** Encode, then decode: the general case *)
(* ===================================================================== *)

Section Roundtrip.

Variable hdc : HDC.
Variables startX startY : Z.
Variable data : list uchar.
Variable s : Screen.
Hypothesis data_fits : vsize data < 2 ^ 32.

Let w : Z := horzres s.
Let buffer : list uchar := serialize (Packet_of data).
Let K : nat := pixels_for (vsize buffer).
Let sent : Screen := paint s (encode_writes w startX startY (Packet_of data)).

Lemma K_eq : K = (3 + pixels_for (vsize data - 1))%nat.
Proof.
  unfold K, buffer, pixels_for. rewrite serialize_length. cbn [Packet_of payload].
  unfold vsize. Z.div_mod_to_equations. lia.
Qed.

Lemma sent_horzres : horzres sent = w.
Proof. apply horzres_paint. Qed.

(** The screen after [encodePacket] holds the colours of the buffer on the
    pixels of the scan region. *)
Lemma sent_pixels :
  pixels_on sent (track w K (startX, startY)) = colours buffer K 0.
Proof.
  unfold sent, encode_writes. fold buffer. fold K.
  apply pixels_on_painted. apply colours_length.
Qed.

Lemma sent_header_pixels :
  pixels_on sent (track w 3 (startX, startY)) = colours buffer 3 0.
Proof.
  pose proof sent_pixels as E. rewrite K_eq, track_app, colours_app in E.
  unfold pixels_on in *. rewrite List.map_app in E.
  apply app_split_length in E; [exact (proj1 E)|].
  rewrite length_map, track_length, colours_length. reflexivity.
Qed.

Lemma sent_body_pixels :
  pixels_on sent (track w (pixels_for (vsize data - 1)) (cursor w 3 (startX, startY)))
  = colours buffer (pixels_for (vsize data - 1)) 9.
Proof.
  pose proof sent_pixels as E. rewrite K_eq, track_app, colours_app in E.
  unfold pixels_on in *. rewrite List.map_app in E.
  apply app_split_length in E; [exact (proj2 E)|].
  rewrite length_map, track_length, colours_length. reflexivity.
Qed.

(** The nine bytes the header loop collects. *)
Lemma sent_header :
  header sent startX startY
  = bytes_of_uint32 PREFIX ++ bytes_of_uint32 (vsize data) ++ [byte_at data 0].
Proof.
  unfold header. rewrite scan_pixels_on, sent_horzres, sent_header_pixels.
  change (colours buffer 3 0) with (colours buffer 3 (Z.of_nat 0)).
  rewrite flat_colours. unfold buffer. rewrite serialize_eq.
  cbn [Packet_of prefix size payload]. unfold to_uint32.
  rewrite Z.mod_small by (unfold vsize in *; lia).
  reflexivity.
Qed.

(** Magic and length come back. *)
Lemma sent_header_prefix : header_prefix sent startX startY = PREFIX.
Proof.
  unfold header_prefix. rewrite sent_header, uint32_of_bytes_of_uint32.
  reflexivity.
Qed.

Lemma sent_header_size : header_size sent startX startY = vsize data.
Proof.
  unfold header_size. rewrite sent_header.
  change (skipn 4 (bytes_of_uint32 PREFIX ++ ?l)) with l.
  rewrite uint32_of_bytes_of_uint32. apply Z.mod_small. unfold vsize in *. lia.
Qed.

(** The pixel right after the last one [encodePacket] wrote. *)
Let past_end : Z * Z := cursor w K (startX, startY).

Lemma past_end_untouched :
  pixel sent (fst past_end) (snd past_end) = pixel s (fst past_end) (snd past_end).
Proof.
  unfold sent. apply pixel_paint_other. unfold encode_writes.
  fold buffer. fold K. rewrite map_fst_combine_track by apply colours_length.
  apply (track_beyond w K 1). left. reflexivity.
Qed.

(** The bytes the payload loop collects: the stream from the second
    payload byte on and, when the payload length is 1 modulo 3, the bytes
    of the pixel past the end, which still has its old colour. *)
Lemma sent_payload_scan :
  scan sent (pixels_for (vsize data)) (cursor w 3 (startX, startY))
  = List.map (byte_at data) (seq 1 (3 * pixels_for (vsize data - 1)))
    ++ (if vsize data mod 3 =? 1
        then pixel_bytes (pixel s (fst past_end) (snd past_end))
        else []).
Proof.
  rewrite scan_pixels_on, sent_horzres.
  assert (Hbody : flat_map pixel_bytes (colours buffer (pixels_for (vsize data - 1)) 9)
                  = List.map (byte_at data) (seq 1 (3 * pixels_for (vsize data - 1)))).
  { change 9 with (Z.of_nat 9). rewrite flat_colours.
    unfold buffer. rewrite serialize_eq. unfold bytes_of_uint32. cbn [app].
    apply (map_byte_at_header _ _ _ _ _ _ _ _ data 1). }
  destruct (Z.eqb_spec (vsize data mod 3) 1) as [E1 | E1].
  - replace (pixels_for (vsize data)) with (pixels_for (vsize data - 1) + 1)%nat
      by (unfold pixels_for, vsize in *; Z.div_mod_to_equations; lia).
    rewrite track_app. unfold pixels_on. rewrite List.map_app, flat_map_app.
    fold (pixels_on sent (track w (pixels_for (vsize data - 1)) (cursor w 3 (startX, startY)))).
    rewrite sent_body_pixels, Hbody. f_equal.
    rewrite <- cursor_add, <- K_eq. fold past_end.
    cbn [track List.map flat_map]. rewrite past_end_untouched, app_nil_r.
    reflexivity.
  - replace (pixels_for (vsize data)) with (pixels_for (vsize data - 1))
      by (unfold pixels_for, vsize in *; Z.div_mod_to_equations; lia).
    rewrite sent_body_pixels, Hbody, app_nil_r. reflexivity.
Qed.

End Roundtrip.

Lemma map_byte_at_tl (data : list uchar) :
  List.map (byte_at data) (seq 1 (length data - 1)) = tl data.
Proof.
  destruct data as [|d data]; [reflexivity|].
  cbn [length tl]. rewrite Nat.sub_succ, Nat.sub_0_r, map_byte_at_tail.
  apply map_byte_at_all.
Qed.

(** The packet decoded after an encode, for a non-empty payload of fewer
    than 2^32 bytes. *)
Lemma roundtrip_result (hdc : HDC) (startX startY : Z)
    (data : list uchar) (s : Screen) :
  data <> [] -> vsize data < 2 ^ 32 ->
  let p := result (roundtrip hdc startX startY data s) in
  prefix p = PREFIX
  /\ size p = vsize data
  /\ payload p = tl data ++ [trailing_byte s startX startY data].
Proof.
  intros Hne Hfit. cbv zeta. unfold roundtrip.
  rewrite encodePacket_run. cbn [screen_after fst snd].
  rewrite decodePacket_run. cbv zeta.
  rewrite (sent_header_prefix startX startY data s Hfit).
  rewrite (sent_header_size startX startY data s Hfit).
  rewrite Z.eqb_refl. cbn [result fst prefix size payload].
  split; [reflexivity|]. split; [reflexivity|].
  rewrite sent_horzres.
  rewrite (sent_payload_scan startX startY data s).
  unfold trailing_byte. rewrite serialize_length. cbn [Packet_of payload].
  assert (Hlen : (1 <= length data)%nat) by (destruct data; [contradiction | cbn; lia]).
  unfold vsize in *. rewrite Nat2Z.id.
  destruct (Z.eqb_spec (Z.of_nat (length data) mod 3) 1) as [E1 | E1].
  - replace (3 * pixels_for (Z.of_nat (length data) - 1))%nat with (length data - 1)%nat
      by (unfold pixels_for; Z.div_mod_to_equations; lia).
    rewrite map_byte_at_tl, firstn_app, length_tl.
    rewrite firstn_all2 by (rewrite length_tl; lia).
    replace (length data - (length data - 1))%nat with 1%nat by lia.
    reflexivity.
  - rewrite app_nil_r.
    replace (3 * pixels_for (Z.of_nat (length data) - 1))%nat
      with (S (length data - 1)
            + (3 * pixels_for (Z.of_nat (length data) - 1) - length data))%nat
      by (unfold pixels_for; Z.div_mod_to_equations; lia).
    rewrite seq_app, List.map_app, firstn_app, length_map, length_seq.
    rewrite firstn_all2 by (rewrite length_map, length_seq; lia).
    replace (length data - S (length data - 1))%nat with 0%nat by lia.
    cbn [firstn]. rewrite app_nil_r.
    rewrite seq_S, List.map_app, map_byte_at_tl. cbn [List.map]. do 2 f_equal.
    unfold byte_at. apply nth_overflow. lia.
Qed.

(** A list that is its own tail followed by [z] is made of [z] only. *)
Lemma shifted_fixed (z : uchar) (l : list uchar) :
  forall a, l ++ [z] = a :: l -> a :: l = repeat z (S (length l)).
Proof.
  induction l as [|b l IH]; intros a E.
  - injection E as E. rewrite E. reflexivity.
  - cbn [app] in E. injection E as E1 E2. subst b.
    pose proof (IH a E2) as H. cbn [length].
    change (repeat z (S (S (length l)))) with (z :: repeat z (S (length l))).
    rewrite <- H. f_equal. cbn [repeat] in H. injection H as H _. exact H.
Qed.

(** C1 (what the code does instead). Encode, then decode from the same
    start coordinate: for every non-empty payload of fewer than 2^32 bytes,
    every start coordinate and every surface, the prefix and the size come
    back, but the payload comes back without its first byte and with one
    byte more at its end.  It equals the original only when all its bytes
    are equal to that last byte. *)
Theorem roundtrip_payload_shifted (hdc : HDC) (startX startY : Z)
    (data : list uchar) (s : Screen) :
  data <> [] -> vsize data < 2 ^ 32 ->
  let p := result (roundtrip hdc startX startY data s) in
  prefix p = PREFIX
  /\ size p = vsize data
  /\ payload p = tl data ++ [trailing_byte s startX startY data]
  /\ (payload p = data ->
      data = repeat (trailing_byte s startX startY data) (length data)).
Proof.
  intros Hne Hfit. cbv zeta.
  destruct (roundtrip_result hdc startX startY data s Hne Hfit) as (Hp & Hs & Hd).
  repeat split; try assumption.
  rewrite Hd. destruct data as [|a l]; [contradiction|].
  cbn [tl length]. apply shifted_fixed.
Qed.

(** C1 (the code at the failing input). The payload [0x41,0x42,0x43],
    encoded at (0,0) and decoded from (0,0) on a white screen 1920 pixels
    wide: prefix and size come back, the payload comes back as
    [0x42,0x43,0x00]. *)
Lemma roundtrip_ABC_shifted :
  let p := result (roundtrip 1 0 0 payload_ABC white) in
  (prefix p = PREFIX
   /\ size p = 3
   /\ payload p = [x42; x43; x00]
   /\ (payload p = payload_ABC -> payload_ABC = [x00; x00; x00]))
  /\ payload p <> payload_ABC.
Proof.
  split.
  - apply (roundtrip_payload_shifted 1 0 0 payload_ABC white);
      [discriminate | vm_compute; reflexivity].
  - vm_compute. discriminate.
Defined.

Lemma firstn_one_more (l : list uchar) (z : uchar) (rest : list uchar) :
  firstn (S (length l)) (l ++ z :: rest) = l ++ [z].
Proof.
  induction l as [|a l IH]; [reflexivity|].
  cbn [length app]. rewrite firstn_cons, IH. reflexivity.
Qed.

(** C3 (what the code does instead). For every payload whose length is 2
    modulo 3, [encodePacket] fills the last pixel with two zero bytes, and
    the payload decoded from the same start coordinate has the length the
    [size] field says but ends with the first of those two bytes: it is the
    bytes 9 to 8 + length of what the written pixels hold, where the payload
    was written as the bytes 8 to 7 + length. *)
Theorem roundtrip_reads_padding (hdc : HDC) (startX startY : Z)
    (data : list uchar) (s : Screen) :
  vsize data mod 3 = 2 -> vsize data < 2 ^ 32 ->
  let buffer := serialize (Packet_of data) in
  let sent := screen_after (encodePacket (m := SM) hdc startX startY (Packet_of data) s) in
  let written := scan sent (pixels_for (vsize buffer)) (startX, startY) in
  let p := result (roundtrip hdc startX startY data s) in
  written = buffer ++ [x00; x00]
  /\ size p = vsize data
  /\ vsize (payload p) = size p
  /\ payload p = tl data ++ [x00]
  /\ payload p = firstn (length data) (skipn 9 written).
Proof.
  intros Hmod Hfit. cbv zeta.
  assert (Hne : data <> []) by (intros ->; cbn in Hmod; discriminate Hmod).
  destruct (roundtrip_result hdc startX startY data s Hne Hfit) as (_ & Hs & Hd).
  destruct (encode_writes_buffer_then_padding hdc startX startY data s) as (Hw & _).
  cbv zeta in Hw.
  replace (3 * pixels_for (vsize (serialize (Packet_of data)))
           - length (serialize (Packet_of data)))%nat with 2%nat in Hw
    by (rewrite serialize_length; pose proof (serialize_length (Packet_of data));
        cbn [Packet_of payload] in *; unfold pixels_for, vsize in *;
        Z.div_mod_to_equations; lia).
  assert (Hz : trailing_byte s startX startY data = x00).
  { unfold trailing_byte. rewrite Hmod. reflexivity. }
  rewrite Hz in Hd.
  split; [exact Hw|]. split; [exact Hs|]. split.
  - rewrite Hs, Hd. unfold vsize. rewrite length_app, length_tl. cbn [length].
    destruct data; [contradiction | cbn [length]; lia].
  - split; [exact Hd|]. rewrite Hd, Hw, serialize_eq.
    unfold bytes_of_uint32. cbn [app skipn Packet_of payload].
    destruct data as [|d l]; [contradiction|].
    cbn [tl]. symmetry. apply (firstn_one_more l x00 [x00]).
Qed.

(** C3 (the code at the failing input). The payload [0x41,0x42] on a white
    screen, which held no zero byte: the decoded payload is [0x42,0x00]. *)
Lemma roundtrip_AB_reads_padding :
  let buffer := serialize (Packet_of payload_AB) in
  let sent := screen_after (encodePacket (m := SM) 1 0 0 (Packet_of payload_AB) white) in
  let written := scan sent 4 (0, 0) in
  let p := result (roundtrip 1 0 0 payload_AB white) in
  written = buffer ++ [x00; x00]
  /\ size p = 2
  /\ vsize (payload p) = size p
  /\ payload p = [x42; x00]
  /\ payload p = firstn 2 (skipn 9 written).
Proof.
  apply (roundtrip_reads_padding 1 0 0 payload_AB white); vm_compute; reflexivity.
Defined.

(* ===================================================================== *)
(** ** Where the pixels go *)
(* ===================================================================== *)

(** From a start column inside the surface, pixel [i] of a scan region
    lies [x0 + i] places along the rows of width [w]. *)
Lemma track_formula (w : Z) (n : nat) :
  forall (x0 y0 : Z) (i : nat),
    0 <= x0 < w -> (i < n)%nat ->
    nth i (track w n (x0, y0)) (0, 0)
    = ((x0 + Z.of_nat i) mod w, y0 + (x0 + Z.of_nat i) / w).
Proof.
  induction n as [|n IH]; intros x0 y0 i Hx Hi; [lia|].
  destruct i as [|i].
  - cbn [track nth]. rewrite Z.add_0_r, Z.mod_small, Z.div_small by lia.
    rewrite Z.add_0_r. reflexivity.
  - cbn [track nth]. unfold next_xy.
    destruct (Z.geb_spec (x0 + 1) w) as [Hw | Hw].
    + rewrite IH by lia.
      replace (x0 + Z.of_nat (S i)) with (Z.of_nat i + 1 * w) by lia.
      rewrite Z_mod_plus_full, Z_div_plus_full by lia.
      rewrite !Z.add_0_l. f_equal. lia.
    + rewrite IH by lia.
      replace (x0 + 1 + Z.of_nat i) with (x0 + Z.of_nat (S i)) by lia.
      reflexivity.
Qed.

Lemma colours_nth (buffer : list uchar) (k : nat) :
  forall (j : Z) (i : nat),
    (i < k)%nat ->
    nth i (colours buffer k j) 0 = colour_at buffer (j + 3 * Z.of_nat i).
Proof.
  induction k as [|k IH]; intros j i Hi; [lia|].
  destruct i as [|i]; cbn [colours nth].
  - f_equal. lia.
  - rewrite IH by lia. f_equal. lia.
Qed.

(** Cursor wraparound on the sending side: from a start column inside the
    surface, the [i]-th [SetPixel] of [encodePacket] is at
    ((x0 + i) mod W, y0 + (x0 + i) / W) and carries the buffer bytes
    3i, 3i+1, 3i+2. *)
Theorem encode_write_positions (hdc : HDC) (x0 y0 : Z) (data : list uchar)
    (s : Screen) (i : nat) :
  0 <= x0 < horzres s ->
  (i < pixels_for (8 + vsize data))%nat ->
  nth i (ops (encodePacket (m := SM) hdc x0 y0 (Packet_of data) s)) (OpSet 0 0 0)
  = OpSet ((x0 + Z.of_nat i) mod horzres s)
          (y0 + (x0 + Z.of_nat i) / horzres s)
          (colour_at (serialize (Packet_of data)) (3 * Z.of_nat i)).
Proof.
  intros Hx Hi. rewrite encodePacket_run. cbn [ops snd].
  change (OpSet 0 0 0) with (op_set (0, 0, 0)). rewrite map_nth.
  unfold encode_writes. rewrite serialize_length. cbn [Packet_of payload].
  rewrite combine_nth by (rewrite track_length, colours_length; reflexivity).
  rewrite track_formula, colours_nth by assumption.
  reflexivity.
Qed.

Lemma encode_write_positions_witness :
  nth 2 (ops (encodePacket (m := SM) 1 1 0 (Packet_of payload_A) (blank 0xFFFFFF 2)))
        (OpSet 0 0 0)
  = OpSet 1 1 (RGB x00 x00 x41).
Proof.
  apply (encode_write_positions 1 1 0 payload_A (blank 0xFFFFFF 2) 2);
    [cbn; lia | vm_compute; lia].
Defined.

(* ===================================================================== *)
(** ** Which pixels the decoder visits *)
(* ===================================================================== *)

Lemma map_op_xy_get (l : list (Z * Z)) : List.map op_xy (List.map op_get l) = l.
Proof.
  induction l as [|[x y] l IH]; [reflexivity|]. cbn. rewrite IH. reflexivity.
Qed.

Lemma map_op_xy_set (l : list (Z * Z * COLORREF)) :
  List.map op_xy (List.map op_set l) = List.map fst l.
Proof.
  induction l as [|[[x y] c] l IH]; [reflexivity|]. cbn. rewrite IH. reflexivity.
Qed.

(** C5 (what the code does instead). After an encode, [decodePacket]
    from the same start coordinate visits the pixels [encodePacket] wrote,
    in the same order; when the payload length is 1 modulo 3 it then visits
    one pixel more, the one past the end of what was written. *)
Theorem decode_visits_written_pixels (hdc : HDC) (startX startY : Z)
    (data : list uchar) (s : Screen) :
  vsize data < 2 ^ 32 ->
  let sent := encodePacket (m := SM) hdc startX startY (Packet_of data) s in
  let back := roundtrip hdc startX startY data s in
  let past_end := cursor (horzres s) (pixels_for (8 + vsize data)) (startX, startY) in
  List.map op_xy (ops back)
  = List.map op_xy (ops sent)
    ++ (if vsize data mod 3 =? 1 then [past_end] else []).
Proof.
  intros Hfit. cbv zeta. unfold roundtrip.
  rewrite encodePacket_run. cbn [screen_after ops fst snd].
  rewrite decodePacket_run. cbv zeta.
  rewrite (sent_header_prefix startX startY data s Hfit).
  rewrite (sent_header_size startX startY data s Hfit).
  rewrite Z.eqb_refl. cbn [ops snd].
  rewrite map_op_xy_get, map_op_xy_set, horzres_paint, <- track_app.
  unfold encode_writes.
  rewrite map_fst_combine_track by apply colours_length.
  rewrite serialize_length. cbn [Packet_of payload].
  destruct (Z.eqb_spec (vsize data mod 3) 1) as [E1 | E1].
  - replace (3 + pixels_for (vsize data))%nat
      with (pixels_for (8 + vsize data) + 1)%nat
      by (unfold pixels_for, vsize in *; Z.div_mod_to_equations; lia).
    rewrite track_app. reflexivity.
  - replace (3 + pixels_for (vsize data))%nat
      with (pixels_for (8 + vsize data))
      by (unfold pixels_for, vsize in *; Z.div_mod_to_equations; lia).
    rewrite app_nil_r. reflexivity.
Qed.

(** C5 (the code at the failing input). On a white screen 1920 pixels
    wide, from (0,0), the one-byte payload [0x41] is written to (0,0),
    (1,0), (2,0); [decodePacket] from (0,0) reads those three pixels and
    then a fourth, (3,0), that was never written, and returns its red byte
    as the payload. *)
Lemma roundtrip_A_reads_unwritten_pixel :
  let sent := encodePacket (m := SM) 1 0 0 (Packet_of payload_A) white in
  let back := roundtrip 1 0 0 payload_A white in
  List.map op_xy (ops back) = List.map op_xy (ops sent) ++ [(3, 0)]
  /\ ops sent = [OpSet 0 0 (RGB xbe xba xfe); OpSet 1 0 (RGB xca x01 x00);
                 OpSet 2 0 (RGB x00 x00 x41)]
  /\ ops back = [OpGet 0 0; OpGet 1 0; OpGet 2 0; OpGet 3 0]
  /\ payload (result back) = [xff].
Proof.
  split.
  - apply (decode_visits_written_pixels 1 0 0 payload_A white).
    vm_compute. reflexivity.
  - repeat split.
Defined.

(* ===================================================================== *)
(** ** Scenarios B and C *)
(* ===================================================================== *)

(** Scenario C. The empty payload is written as the three header pixels
    alone, and decoding returns a valid frame of size 0 with an empty
    payload after reading those three pixels. *)
Theorem roundtrip_empty_payload (hdc : HDC) (startX startY : Z) (s : Screen) :
  let sent := encodePacket (m := SM) hdc startX startY (Packet_of []) s in
  let back := roundtrip hdc startX startY [] s in
  length (ops sent) = 3%nat
  /\ result back = {| prefix := PREFIX; size := 0; payload := [] |}
  /\ ops back = List.map op_get (track (horzres s) 3 (startX, startY)).
Proof.
  cbv zeta. split.
  - rewrite encodePacket_run. cbn [ops snd].
    rewrite length_map, encode_writes_length. reflexivity.
  - unfold roundtrip. rewrite encodePacket_run. cbn [screen_after fst snd].
    rewrite decodePacket_run. cbv zeta.
    assert (Hfit : vsize (@nil uchar) < 2 ^ 32) by (cbn; lia).
    rewrite (sent_header_prefix startX startY [] s Hfit).
    rewrite (sent_header_size startX startY [] s Hfit).
    rewrite Z.eqb_refl, horzres_paint. cbn [result ops fst snd].
    change (pixels_for (vsize (@nil uchar))) with 0%nat.
    cbn [track firstn Z.to_nat vsize length Z.of_nat]. rewrite app_nil_r.
    split; reflexivity.
Qed.

(** Scenario B. A surface of one colour, whatever the colour and the
    width, never decodes to a valid frame: its first four bytes are
    (r, g, b, r), and the sentinel's first and fourth byte differ. *)
Theorem decode_blank_surface (hdc : HDC) (startX startY : Z) (c : COLORREF) (w : Z) :
  let r := decodePacket (m := SM) hdc startX startY (blank c w) in
  result r = Packet_empty
  /\ screen_after r = blank c w.
Proof.
  cbv zeta. rewrite decodePacket_run. cbv zeta.
  destruct (Z.eqb_spec (header_prefix (blank c w) startX startY) PREFIX) as [E | _];
    [exfalso | split; reflexivity].
  apply header_prefix_bytes in E. unfold scan in E.
  cbn [track horzres blank flat_map pixel pixel_bytes app firstn] in E.
  change (bytes_of_uint32 PREFIX) with [xbe; xba; xfe; xca] in E.
  injection E as E1 _ _ E4. rewrite E1 in E4. discriminate E4.
Qed.

(* ===================================================================== *)
(** ** Whole runs *)
(* ===================================================================== *)

(** One step of a run: a [Ret] in front of a bind costs nothing, a
    [trigger] in front of a bind is one event. *)
Lemma run_bind_ret {A R : Type} (fuel : nat) (env : Env) (a : A) (k : A -> itree winE R) :
  run fuel env (ITree.bind (Ret a) k) = run fuel env (k a).
Proof. destruct fuel; reflexivity. Qed.

Lemma run_bind_trigger {A R : Type} (fuel : nat) (env : Env) (e : winE A)
    (k : A -> itree winE R) :
  run (S fuel) env (ITree.bind (ITree.trigger e) k)
  = let next := run fuel (snd (answer env e)) (k (fst (answer env e))) in
    (Ev e :: trace next, env_after next, returned next).
Proof.
  change (run (S fuel) env (ITree.bind (ITree.trigger e) k))
    with (let '(a, env') := answer env e in
          let '(tr, env'', r) := run fuel env' (ITree.bind (Ret a) k) in
          (Ev e :: tr, env'', r)).
  destruct (answer env e) as [a env']. rewrite run_bind_ret. cbn [fst snd].
  destruct (run fuel env' (k a)) as [[tr env''] r]. reflexivity.
Qed.

Lemma run_ret {R : Type} (fuel : nat) (env : Env) (r : R) :
  run (S fuel) env (Ret r) = ([], env, Some r).
Proof. reflexivity. Qed.

(** C8. With a device context at hand and any selector other than 1 and 2
    typed at the prompt, the whole run of [main] is six events long: get
    the device context, prompt, read the selector, skip the rest of the
    line, write "Invalid instance number." once, release the device
    context; then [main] returns 0.  No [SetPixel], no [GetPixel], no line
    read and no message printed: neither loop is entered, and the screen is
    as it was. *)
Theorem main_invalid_selector (env : Env) (fuel : nat) :
  env_dc env <> NULL -> env_selector env <> 1 -> env_selector env <> 2 ->
  run (7 + fuel) env main
  = ([Ev EvGetDC;
      Ev (EvCout "Enter instance (1 or 2): "%string);
      Ev EvCinInt;
      Ev EvCinIgnore;
      Ev (EvCerr "Invalid instance number."%string);
      Ev (EvReleaseDC (env_dc env))],
     env,
     Some 0).
Proof.
  intros Hdc H1 H2.
  apply Z.eqb_neq in Hdc, H1, H2.
  unfold main, main_dispatch. cbn [bind ret Monad_itree Nat.add].
  rewrite run_bind_trigger. cbn [answer fst snd]. rewrite Hdc.
  rewrite run_bind_trigger. cbn [answer fst snd].
  rewrite run_bind_trigger. cbn [answer fst snd].
  rewrite run_bind_trigger. cbn [answer fst snd]. rewrite H1, H2.
  rewrite run_bind_trigger. cbn [answer fst snd].
  rewrite run_bind_trigger. cbn [answer fst snd].
  rewrite run_ret. reflexivity.
Qed.

Lemma main_invalid_selector_witness :
  let env := {| env_dc := 1; env_selector := 3; env_lines := [];
                env_screen := white |} in
  run 7 env main
  = ([Ev EvGetDC;
      Ev (EvCout "Enter instance (1 or 2): "%string);
      Ev EvCinInt;
      Ev EvCinIgnore;
      Ev (EvCerr "Invalid instance number."%string);
      Ev (EvReleaseDC 1)],
     env,
     Some 0).
Proof.
  apply (main_invalid_selector
           {| env_dc := 1; env_selector := 3; env_lines := [];
              env_screen := white |} 0); discriminate.
Defined.

(** The one-byte shift as the two users see it.  The sender's user types
    "hi": the sender prompts, reads the line and writes four pixels.  The
    receiver, started on the screen the sender leaves, reads four pixels
    and prints "Them: " followed by the two characters 'i' and NUL. *)
Lemma chat_hi_shown_as_i :
  let sender := run 10 {| env_dc := 1; env_selector := 1;
                          env_lines := ["hi"%string]; env_screen := white |}
                    (senderLoop 1 0 0 0 10) in
  let receiver := run 11 {| env_dc := 1; env_selector := 2; env_lines := [];
                            env_screen := env_screen (env_after sender) |}
                      (receiverLoop 1 0 0 0 10) in
  trace sender
  = [Ev (EvCout "You: "%string); Ev EvGetLine;
     Ev (EvSetPixel 1 0 0 (RGB xbe xba xfe)); Ev (EvHorzRes 1);
     Ev (EvSetPixel 1 1 0 (RGB xca x02 x00)); Ev (EvHorzRes 1);
     Ev (EvSetPixel 1 2 0 (RGB x00 x00 x68)); Ev (EvHorzRes 1);
     Ev (EvSetPixel 1 3 0 (RGB x69 x00 x00)); Ev (EvHorzRes 1)]
  /\ trace receiver
     = [Ev (EvGetPixel 1 0 0); Ev (EvHorzRes 1);
        Ev (EvGetPixel 1 1 0); Ev (EvHorzRes 1);
        Ev (EvGetPixel 1 2 0); Ev (EvHorzRes 1);
        Ev (EvGetPixel 1 3 0); Ev (EvHorzRes 1);
        Ev (EvCout "Them: "%string);
        Ev (EvCout (string_of_payload [x69; x00]));
        Ev EvEndl].
Proof.
  cbv zeta. split; vm_compute; reflexivity.
Qed.

(* ===================================================================== *)
(** ** The wire format *)
(* ===================================================================== *)

(** The serialised frame: the sentinel, least significant byte first,
    then the length, least significant byte first, then the payload; and
    reading the two words back gives the sentinel and the length. *)
Theorem serialize_wire_format (data : list uchar) :
  vsize data < 2 ^ 32 ->
  let buffer := serialize (Packet_of data) in
  buffer = [xbe; xba; xfe; xca] ++ bytes_of_uint32 (vsize data) ++ data
  /\ vsize buffer = 8 + vsize data
  /\ uint32_of_bytes buffer = PREFIX
  /\ uint32_of_bytes (skipn 4 buffer) = vsize data.
Proof.
  intros Hfit. cbv zeta.
  assert (Hs : size (Packet_of data) = vsize data).
  { cbn [Packet_of size]. apply Z.mod_small. unfold vsize in *. lia. }
  rewrite serialize_length, serialize_eq, Hs. cbn [Packet_of prefix payload].
  split; [reflexivity|]. split; [reflexivity|]. split.
  - rewrite uint32_of_bytes_of_uint32. reflexivity.
  - change (skipn 4 (bytes_of_uint32 PREFIX ++ ?l)) with l.
    rewrite uint32_of_bytes_of_uint32. apply Z.mod_small. unfold vsize in *. lia.
Qed.

Lemma serialize_wire_format_witness :
  let buffer := serialize (Packet_of payload_hi) in
  buffer = [xbe; xba; xfe; xca; x02; x00; x00; x00; x68; x69]
  /\ vsize buffer = 10
  /\ uint32_of_bytes buffer = PREFIX
  /\ uint32_of_bytes (skipn 4 buffer) = 2.
Proof.
  apply (serialize_wire_format payload_hi). vm_compute. reflexivity.
Defined.

(* ===================================================================== *)
(** ** What a decode returns when the sentinel is there *)
(* ===================================================================== *)

(** When the first four bytes of the scan region are the sentinel,
    [decodePacket] takes the next four bytes as the length, whatever they
    are, reads that many bytes from the fourth pixel on and returns them:
    it reads 3 + ceil(size / 3) pixels in cursor order and changes
    nothing. *)
Theorem decodePacket_accepts_magic (hdc : HDC) (startX startY : Z) (s : Screen) :
  firstn 4 (scan s 2 (startX, startY)) = bytes_of_uint32 PREFIX ->
  let r := decodePacket (m := SM) hdc startX startY s in
  let n := uint32_of_bytes (skipn 4 (scan s 3 (startX, startY))) in
  prefix (result r) = PREFIX
  /\ size (result r) = n
  /\ 0 <= n < 2 ^ 32
  /\ payload (result r)
     = firstn (Z.to_nat n)
         (scan s (pixels_for n) (cursor (horzres s) 3 (startX, startY)))
  /\ ops r = List.map op_get (track (horzres s) (3 + pixels_for n) (startX, startY))
  /\ screen_after r = s.
Proof.
  intros Hmagic. cbv zeta. rewrite decodePacket_run. cbv zeta.
  apply header_prefix_bytes in Hmagic. rewrite Hmagic, Z.eqb_refl.
  cbn [result ops screen_after fst snd prefix size payload].
  unfold header_size, header.
  split; [reflexivity|]. split; [reflexivity|].
  split; [apply uint32_of_bytes_range|]. split; [reflexivity|].
  split; [|reflexivity]. rewrite track_app. reflexivity.
Qed.

Lemma decodePacket_accepts_magic_witness :
  let s := screen_after (encodePacket (m := SM) 1 0 10 (Packet_of payload_hi) white) in
  let r := decodePacket (m := SM) 1 0 10 s in
  prefix (result r) = PREFIX
  /\ size (result r) = 2
  /\ 0 <= 2 < 2 ^ 32
  /\ payload (result r) = [x69; x00]
  /\ ops r = [OpGet 0 10; OpGet 1 10; OpGet 2 10; OpGet 3 10]
  /\ screen_after r = s.
Proof.
  assert (H : firstn 4 (scan (screen_after (encodePacket (m := SM) 1 0 10
                                             (Packet_of payload_hi) white))
                              2 (0, 10))
              = bytes_of_uint32 PREFIX) by (vm_compute; reflexivity).
  exact (decodePacket_accepts_magic 1 0 10 _ H).
Defined.

(* ===================================================================== *)
(** ** What an encode leaves alone *)
(* ===================================================================== *)

Lemma track_rows (w : Z) (k : nat) (xy p : Z * Z) :
  In p (track w k xy) -> snd xy <= snd p.
Proof.
  intros Hin. destruct (track_lex w k xy p Hin) as [-> | Hlt]; [lia|].
  unfold lex_lt in Hlt. lia.
Qed.

Lemma forallb_is_set (l : list (Z * Z * COLORREF)) :
  forallb is_set (List.map op_set l) = true.
Proof.
  induction l as [|p l IH]; [reflexivity | exact IH].
Qed.

Lemma encode_writes_fst (w startX startY : Z) (packet : Packet) :
  List.map fst (encode_writes w startX startY packet)
  = track w (pixels_for (vsize (serialize packet))) (startX, startY).
Proof.
  unfold encode_writes. apply map_fst_combine_track. apply colours_length.
Qed.

(** [encodePacket] only writes, and only where its cursor goes: the
    horizontal resolution, every pixel above the start row and every pixel
    it did not address are as before. *)
Theorem encodePacket_frame (hdc : HDC) (startX startY : Z) (packet : Packet)
    (s : Screen) :
  let r := encodePacket (m := SM) hdc startX startY packet s in
  horzres (screen_after r) = horzres s
  /\ forallb is_set (ops r) = true
  /\ (forall x y, ~ In (x, y) (List.map op_xy (ops r)) ->
                  pixel (screen_after r) x y = pixel s x y)
  /\ (forall x y, y < startY -> pixel (screen_after r) x y = pixel s x y).
Proof.
  cbv zeta. rewrite encodePacket_run. cbn [screen_after ops fst snd].
  rewrite map_op_xy_set.
  assert (Hother : forall x y,
             ~ In (x, y) (List.map fst (encode_writes (horzres s) startX startY packet)) ->
             pixel (paint s (encode_writes (horzres s) startX startY packet)) x y
             = pixel s x y).
  { intros x y Hn. apply (pixel_paint_other _ s (x, y)). exact Hn. }
  split; [apply horzres_paint|]. split; [apply forallb_is_set|].
  split; [exact Hother|].
  intros x y Hy. apply Hother. rewrite encode_writes_fst. intros Hin.
  apply track_rows in Hin. cbn [snd] in Hin. lia.
Qed.

(* ===================================================================== *)
(** ** Two regions on one surface *)
(* ===================================================================== *)

Lemma scan_agree (s s' : Screen) (n : nat) (xy : Z * Z) :
  agree_on s s' (track (horzres s) n xy) -> scan s' n xy = scan s n xy.
Proof.
  intros [Hw Hp]. unfold scan. rewrite Hw.
  induction (track (horzres s) n xy) as [|p l IH]; [reflexivity|].
  cbn [flat_map]. rewrite Hp by (left; reflexivity).
  rewrite IH; [reflexivity|]. intros q Hq. apply Hp. right. exact Hq.
Qed.

Lemma decode_reads_eq (s : Screen) (startX startY : Z) :
  decode_reads s startX startY
  = track (horzres s)
          (3 + (if header_prefix s startX startY =? PREFIX
                then pixels_for (header_size s startX startY) else 0))
          (startX, startY).
Proof.
  unfold decode_reads. rewrite decodePacket_run. cbv zeta.
  destruct (header_prefix s startX startY =? PREFIX); cbn [ops snd];
    rewrite map_op_xy_get, track_app; [reflexivity|].
  cbn [track]. rewrite app_nil_r. reflexivity.
Qed.

(** A decode sees only the pixels it reads. *)
Lemma decode_agree (hdc : HDC) (startX startY : Z) (s s' : Screen) :
  agree_on s s' (decode_reads s startX startY) ->
  result (decodePacket (m := SM) hdc startX startY s')
  = result (decodePacket (m := SM) hdc startX startY s).
Proof.
  intros Hag. rewrite decode_reads_eq, track_app in Hag.
  destruct Hag as [Hw Hp].
  assert (Hh : header s' startX startY = header s startX startY).
  { unfold header. apply scan_agree. split; [exact Hw|].
    intros p Hin. apply Hp. apply in_or_app. left. exact Hin. }
  rewrite !decodePacket_run. cbv zeta.
  unfold header_prefix, header_size in *. rewrite Hh, Hw.
  destruct (uint32_of_bytes (header s startX startY) =? PREFIX); [|reflexivity].
  cbn [result fst]. f_equal. f_equal. apply scan_agree. split; [exact Hw|].
  intros p Hin. apply Hp. apply in_or_app. right. exact Hin.
Qed.

(** From a start column inside the surface, [k] pixels that fit in the
    rows before [y1] stay before [y1]. *)
Lemma track_rows_before (w : Z) (k : nat) (x0 y0 y1 : Z) (p : Z * Z) :
  0 <= x0 < w -> x0 + Z.of_nat k <= (y1 - y0) * w ->
  In p (track w k (x0, y0)) -> snd p < y1.
Proof.
  intros Hx Hfit Hin.
  destruct (In_nth _ _ (0, 0) Hin) as (i & Hi & <-).
  rewrite track_length in Hi. rewrite track_formula by assumption.
  cbn [snd]. assert ((x0 + Z.of_nat i) / w < y1 - y0); [|lia].
  apply Z.div_lt_upper_bound; lia.
Qed.

Lemma decode_reads_agree (startX startY : Z) (s s' : Screen) :
  agree_on s s' (decode_reads s startX startY) ->
  decode_reads s' startX startY = decode_reads s startX startY.
Proof.
  intros Hag. rewrite decode_reads_eq, track_app in Hag.
  destruct Hag as [Hw Hp].
  assert (Hh : header s' startX startY = header s startX startY).
  { unfold header. apply scan_agree. split; [exact Hw|].
    intros p Hin. apply Hp. apply in_or_app. left. exact Hin. }
  rewrite !decode_reads_eq. unfold header_prefix, header_size. rewrite Hh, Hw.
  reflexivity.
Qed.

Lemma magic_agree (startX startY : Z) (s s' : Screen) :
  agree_on s s' (decode_reads s startX startY) ->
  scan s' 2 (startX, startY) = scan s 2 (startX, startY).
Proof.
  intros [Hw Hp]. apply scan_agree. split; [exact Hw|].
  intros p Hin. apply Hp. rewrite decode_reads_eq.
  set (n := if header_prefix s startX startY =? PREFIX
            then pixels_for (header_size s startX startY) else 0%nat).
  change (3 + n)%nat with (2 + (1 + n))%nat.
  rewrite track_app. apply in_or_app. left. exact Hin.
Qed.

Lemma paint_agree_lower (startX startY x1 y1 : Z) (packet : Packet) (s : Screen) :
  0 <= startX < horzres s ->
  startX + Z.of_nat (pixels_for (8 + vsize (payload packet)))
    <= (y1 - startY) * horzres s ->
  agree_on s (paint s (encode_writes (horzres s) startX startY packet))
           (decode_reads s x1 y1).
Proof.
  intros Hx Hfit. split; [apply horzres_paint|].
  intros p Hin. apply pixel_paint_other.
  rewrite encode_writes_fst, serialize_length. intros Hw.
  apply (track_rows_before _ _ _ _ y1) in Hw; [|assumption..].
  rewrite decode_reads_eq in Hin. apply track_rows in Hin. cbn [snd] in Hin. lia.
Qed.

Lemma paint_agree_upper (startX startY x1 y1 : Z) (packet : Packet) (s : Screen) :
  0 <= startX < horzres s ->
  startX + Z.of_nat (length (decode_reads s startX startY))
    <= (y1 - startY) * horzres s ->
  agree_on s (paint s (encode_writes (horzres s) x1 y1 packet))
           (decode_reads s startX startY).
Proof.
  intros Hx Hfit. split; [apply horzres_paint|].
  intros p Hin. apply pixel_paint_other.
  rewrite encode_writes_fst. intros Hw.
  apply track_rows in Hw. cbn [snd] in Hw.
  rewrite decode_reads_eq in Hin, Hfit. rewrite track_length in Hfit.
  apply (track_rows_before _ _ _ _ y1) in Hin; [lia | assumption..].
Qed.

(** Sending does not disturb the other region.  When the frame written
    from ([startX], [startY]) fits in the rows before [y1], a decode from
    any column of row [y1] returns after the encode what it returned
    before. *)
Theorem encode_keeps_lower_region (hdc : HDC) (startX startY x1 y1 : Z)
    (packet : Packet) (s : Screen) :
  0 <= startX < horzres s ->
  startX + Z.of_nat (pixels_for (8 + vsize (payload packet)))
    <= (y1 - startY) * horzres s ->
  let sent := screen_after (encodePacket (m := SM) hdc startX startY packet s) in
  result (decodePacket (m := SM) hdc x1 y1 sent)
  = result (decodePacket (m := SM) hdc x1 y1 s).
Proof.
  intros Hx Hfit. cbv zeta. apply decode_agree.
  rewrite encodePacket_run. cbn [screen_after fst snd].
  apply paint_agree_lower; assumption.
Qed.

Lemma encode_keeps_lower_region_witness :
  let s := screen_after (encodePacket (m := SM) 1 0 10 (Packet_of payload_ABC) white) in
  let sent := screen_after (encodePacket (m := SM) 1 0 0 (Packet_of payload_hi) s) in
  result (decodePacket (m := SM) 1 0 10 sent)
  = result (decodePacket (m := SM) 1 0 10 s).
Proof.
  apply (encode_keeps_lower_region 1 0 0 0 10 (Packet_of payload_hi)
           (screen_after (encodePacket (m := SM) 1 0 10 (Packet_of payload_ABC) white)));
    vm_compute; [split; [discriminate | reflexivity] | discriminate].
Defined.

(** Replying does not disturb the frame being read.  When the pixels a
    decode from ([startX], [startY]) reads fit in the rows before [y1], an
    encode from any column of row [y1], of any packet, leaves what that
    decode returns unchanged. *)
Theorem encode_keeps_upper_region (hdc : HDC) (startX startY x1 y1 : Z)
    (packet : Packet) (s : Screen) :
  0 <= startX < horzres s ->
  startX + Z.of_nat (length (decode_reads s startX startY))
    <= (y1 - startY) * horzres s ->
  let sent := screen_after (encodePacket (m := SM) hdc x1 y1 packet s) in
  result (decodePacket (m := SM) hdc startX startY sent)
  = result (decodePacket (m := SM) hdc startX startY s).
Proof.
  intros Hx Hfit. cbv zeta. apply decode_agree.
  rewrite encodePacket_run. cbn [screen_after fst snd].
  apply paint_agree_upper; assumption.
Qed.

Lemma encode_keeps_upper_region_witness :
  let s := screen_after (encodePacket (m := SM) 1 0 0 (Packet_of payload_ABC) white) in
  let sent := screen_after (encodePacket (m := SM) 1 0 10 (Packet_of payload_hi) s) in
  result (decodePacket (m := SM) 1 0 0 sent)
  = result (decodePacket (m := SM) 1 0 0 s).
Proof.
  apply (encode_keeps_upper_region 1 0 0 0 10 (Packet_of payload_hi)
           (screen_after (encodePacket (m := SM) 1 0 0 (Packet_of payload_ABC) white)));
    vm_compute; [split; [discriminate | reflexivity] | discriminate].
Defined.

(* ===================================================================== *)
(** ** Runs of composed trees *)
(* ===================================================================== *)

Lemma run_observe {R : Type} (fuel : nat) (env : Env) (t1 t2 : itree winE R) :
  observe t1 = observe t2 -> run fuel env t1 = run fuel env t2.
Proof.
  intros E. destruct fuel; [reflexivity|]. cbn [run]. rewrite E. reflexivity.
Qed.

Lemma observe_bind {A R : Type} (t : itree winE A) (k : A -> itree winE R) :
  observe (ITree.bind t k)
  = match observe t with
    | RetF a => observe (k a)
    | TauF t' => TauF (ITree.bind t' k)
    | VisF e h => VisF e (fun x => ITree.bind (h x) k)
    end.
Proof.
  change (observe (ITree.bind t k))
    with (observe (match observe t with
                   | RetF a => k a
                   | TauF t' => Tau (ITree.bind t' k)
                   | VisF e h => Vis e (fun x => ITree.bind (h x) k)
                   end)).
  destruct (observe t); reflexivity.
Qed.

Lemma run_tau {R : Type} (fuel : nat) (env : Env) (t : itree winE R) :
  run (S fuel) env (Tau t) = run fuel env t.
Proof. reflexivity. Qed.

Lemma run_ret_eq {R : Type} (fuel : nat) (env : Env) (t : itree winE R) (r : R) :
  observe t = RetF r -> run (S fuel) env t = ([], env, Some r).
Proof. intros E. cbn [run]. rewrite E. reflexivity. Qed.

Lemma run_tau_eq {R : Type} (fuel : nat) (env : Env) (t t' : itree winE R) :
  observe t = TauF t' -> run (S fuel) env t = run fuel env t'.
Proof. intros E. cbn [run]. rewrite E. reflexivity. Qed.

Lemma run_vis_eq {A R : Type} (fuel : nat) (env : Env) (t : itree winE R)
    (e : winE A) (h : A -> itree winE R) :
  observe t = VisF e h ->
  run (S fuel) env t
  = prepend [Ev e] (run fuel (snd (answer env e)) (h (fst (answer env e)))).
Proof.
  intros E. cbn [run]. rewrite E. destruct (answer env e) as [a0 env'].
  cbn [fst snd]. destruct (run fuel env' (h a0)) as [[tr env''] r]. reflexivity.
Qed.

Lemma prepend_nil {R : Type} (r : list Event * Env * option R) : prepend [] r = r.
Proof. destruct r as [[tr env] r]. reflexivity. Qed.

(** The run of [bind t k]: the run of [t] and, when [t] returns within
    the fuel, the run of [k] on what is left of it.  The [Ret] that ends
    [t] costs nothing inside a bind. *)
Lemma run_bind {A R : Type} (k : A -> itree winE R) :
  forall (fuel : nat) (env : Env) (t : itree winE A),
    match returned (run fuel env t) with
    | None =>
        run fuel env (ITree.bind t k)
        = (trace (run fuel env t), env_after (run fuel env t), None)
    | Some a =>
        exists fuel', (0 < fuel' <= fuel)%nat
          /\ run fuel env (ITree.bind t k)
             = prepend (trace (run fuel env t))
                       (run fuel' (env_after (run fuel env t)) (k a))
    end.
Proof.
  induction fuel as [|fuel IH]; intros env t; [reflexivity|].
  destruct (observe t) as [a | t' | X e h] eqn:E.
  - assert (Ht : run (S fuel) env t = ([], env, Some a))
      by (cbn [run]; rewrite E; reflexivity).
    rewrite Ht. cbn [returned trace env_after fst snd].
    exists (S fuel). split; [lia|]. rewrite prepend_nil.
    apply run_observe. rewrite observe_bind, E. reflexivity.
  - assert (Ht : run (S fuel) env t = run fuel env t')
      by (cbn [run]; rewrite E; reflexivity).
    assert (Hb : run (S fuel) env (ITree.bind t k) = run fuel env (ITree.bind t' k))
      by (cbn [run]; rewrite observe_bind, E; reflexivity).
    rewrite Ht, Hb. specialize (IH env t').
    destruct (returned (run fuel env t')) as [a|]; [|exact IH].
    destruct IH as (f' & Hf & E'). exists f'. split; [lia | exact E'].
  - assert (Ht : run (S fuel) env t
                 = prepend [Ev e] (run fuel (snd (answer env e)) (h (fst (answer env e))))).
    { cbn [run]. rewrite E. destruct (answer env e) as [a0 env'].
      cbn [fst snd]. destruct (run fuel env' (h a0)) as [[tr env''] r]. reflexivity. }
    assert (Hb : run (S fuel) env (ITree.bind t k)
                 = prepend [Ev e] (run fuel (snd (answer env e))
                                       (ITree.bind (h (fst (answer env e))) k))).
    { cbn [run]. rewrite observe_bind, E. destruct (answer env e) as [a0 env'].
      cbn [fst snd]. destruct (run fuel env' (ITree.bind (h a0) k)) as [[tr env''] r].
      reflexivity. }
    rewrite Ht, Hb. specialize (IH (snd (answer env e)) (h (fst (answer env e)))).
    destruct (run fuel (snd (answer env e)) (h (fst (answer env e)))) as [[tr env''] r].
    unfold prepend in *. cbn [returned trace env_after fst snd] in *.
    destruct r as [a|].
    + destruct IH as (f' & Hf & E'). exists f'. split; [lia|].
      rewrite E'. cbn [trace env_after returned fst snd]. rewrite app_assoc. reflexivity.
    + rewrite IH. reflexivity.
Qed.

(** More fuel only extends a run. *)
Lemma run_more {R : Type} (d : nat) :
  forall (fuel : nat) (env : Env) (t : itree winE R),
    (exists rest, trace (run (fuel + d) env t) = trace (run fuel env t) ++ rest)
    /\ (forall r, returned (run fuel env t) = Some r ->
                  run (fuel + d) env t = run fuel env t).
Proof.
  induction fuel as [|fuel IH]; intros env t.
  - split; [eexists; reflexivity | discriminate].
  - cbn [Nat.add]. destruct (observe t) as [a | t' | X e h] eqn:E.
    + rewrite !(run_ret_eq _ _ _ _ E).
      split; [exists []; reflexivity | reflexivity].
    + rewrite !(run_tau_eq _ _ _ _ E). apply IH.
    + rewrite !(run_vis_eq _ _ _ _ _ E).
      destruct (IH (snd (answer env e)) (h (fst (answer env e)))) as [[rest Hr] Hs].
      unfold prepend. cbn [trace returned fst snd]. split.
      * exists rest. rewrite Hr. reflexivity.
      * intros r Hret. rewrite (Hs r Hret). reflexivity.
Qed.

(* ===================================================================== *)
(** ** Which events a tree can perform *)
(* ===================================================================== *)

Lemma emits_ret {R : Type} (P : Event -> Prop) (r : R) : emits P (Ret r).
Proof. intros [|fuel] env; constructor. Qed.

Lemma emits_trigger {A : Type} (P : Event -> Prop) (e : winE A) :
  P (Ev e) -> emits P (ITree.trigger e).
Proof.
  intros He [|[|fuel]] env; cbn; destruct (answer env e); cbn;
    repeat constructor; exact He.
Qed.

Lemma emits_bind {A R : Type} (P : Event -> Prop) (t : itree winE A)
    (k : A -> itree winE R) :
  emits P t -> (forall a, emits P (k a)) -> emits P (ITree.bind t k).
Proof.
  intros Ht Hk fuel env. pose proof (run_bind k fuel env t) as H.
  destruct (returned (run fuel env t)) as [a|].
  - destruct H as (f' & _ & E). rewrite E. unfold prepend. cbn [trace fst].
    apply Forall_app. split; [apply Ht | apply Hk].
  - rewrite H. apply Ht.
Qed.

(** A loop performs the events of its body, and never returns. *)
Lemma forever_run {A R : Type} (P : Event -> Prop) (t : itree winE A) :
  emits P t ->
  forall (fuel : nat) (env : Env),
    Forall P (trace (run fuel env (ITree.forever t : itree winE R)))
    /\ returned (run fuel env (ITree.forever t : itree winE R)) = None.
Proof.
  intros Ht fuel. induction fuel as [fuel IH] using lt_wf_ind. intros env.
  rewrite (run_observe fuel env (ITree.forever t)
             (ITree.bind t (fun _ => Tau (ITree.forever t)))) by reflexivity.
  pose proof (run_bind (fun _ : A => Tau (ITree.forever t : itree winE R)) fuel env t) as H.
  destruct (returned (run fuel env t)) as [a|].
  - destruct H as (f' & Hf & E). rewrite E. unfold prepend.
    cbn [trace returned fst snd]. destruct f' as [|f']; [lia|].
    rewrite run_tau. destruct (IH f' ltac:(lia) (env_after (run fuel env t))) as [H1 H2].
    split; [|exact H2]. apply Forall_app. split; [apply Ht | exact H1].
  - rewrite H. split; [apply Ht | reflexivity].
Qed.

Lemma emits_forever {A R : Type} (P : Event -> Prop) (t : itree winE A) :
  emits P t -> emits P (ITree.forever t : itree winE R).
Proof.
  intros Ht fuel env. apply (forever_run P t Ht fuel env).
Qed.

Lemma emits_iter {I R : Type} (P : Event -> Prop) (body : I -> itree winE (I + R)) :
  (forall i, emits P (body i)) -> forall i, emits P (ITree.iter body i).
Proof.
  intros Hb i fuel. revert i. induction fuel as [fuel IH] using lt_wf_ind.
  intros i env.
  rewrite (run_observe fuel env (ITree.iter body i)
             (ITree.bind (body i)
                (fun lr => match lr with
                           | inl l => Tau (ITree.iter body l)
                           | inr r => Ret r
                           end))) by reflexivity.
  match goal with |- context [ITree.bind _ ?k] =>
    pose proof (run_bind k fuel env (body i)) as H end.
  destruct (returned (run fuel env (body i))) as [[l | r]|].
  - destruct H as (f' & Hf & E). rewrite E. unfold prepend. cbn [trace fst].
    apply Forall_app. split; [apply Hb|].
    destruct f' as [|f']; [lia|]. rewrite run_tau. apply IH. lia.
  - destruct H as (f' & Hf & E). rewrite E. unfold prepend. cbn [trace fst].
    apply Forall_app. split; [apply Hb | apply emits_ret].
  - rewrite H. apply Hb.
Qed.

Lemma emits_for_loop {St : Type} (P : Event -> Prop) (cond : Z -> bool)
    (step : Z -> Z) (body : Z -> St -> itree winE St) :
  (forall i st, emits P (body i st)) ->
  forall (fuel : nat) (i : Z) (st : St),
    emits P (for_loop fuel cond step body i st).
Proof.
  intros Hb. induction fuel as [|fuel IH]; intros i st; cbn [for_loop].
  - apply emits_ret.
  - destruct (cond i); [|apply emits_ret].
    apply emits_bind; [apply Hb | intros st'; apply IH].
Qed.

(* ===================================================================== *)
(** ** Exact runs *)
(* ===================================================================== *)

Lemma run_bind_assoc {A B R : Type} (h : A -> itree winE B) (k : B -> itree winE R) :
  forall (fuel : nat) (env : Env) (t : itree winE A),
    run fuel env (ITree.bind (ITree.bind t h) k)
    = run fuel env (ITree.bind t (fun a => ITree.bind (h a) k)).
Proof.
  induction fuel as [|fuel IH]; intros env t; [reflexivity|].
  destruct (observe t) as [a | t' | X e g] eqn:E.
  - apply run_observe.
    rewrite (observe_bind (ITree.bind t h)), (observe_bind t h),
      (observe_bind t (fun a => ITree.bind (h a) k)), E.
    symmetry. apply observe_bind.
  - rewrite (run_tau_eq fuel env _ (ITree.bind (ITree.bind t' h) k))
      by (rewrite !observe_bind, E; reflexivity).
    rewrite (run_tau_eq fuel env _ (ITree.bind t' (fun a => ITree.bind (h a) k)))
      by (rewrite observe_bind, E; reflexivity).
    apply IH.
  - rewrite (run_vis_eq fuel env _ e (fun x => ITree.bind (ITree.bind (g x) h) k))
      by (rewrite !observe_bind, E; reflexivity).
    rewrite (run_vis_eq fuel env _ e (fun x => ITree.bind (g x) (fun a => ITree.bind (h a) k)))
      by (rewrite observe_bind, E; reflexivity).
    rewrite IH. reflexivity.
Qed.

Lemma run_bind_ret_r {A : Type} :
  forall (fuel : nat) (env : Env) (t : itree winE A),
    run fuel env (ITree.bind t (fun a => Ret a)) = run fuel env t.
Proof.
  induction fuel as [|fuel IH]; intros env t; [reflexivity|].
  destruct (observe t) as [a | t' | X e g] eqn:E.
  - apply run_observe. rewrite observe_bind, E. reflexivity.
  - rewrite (run_tau_eq fuel env _ (ITree.bind t' (fun a => Ret a)))
      by (rewrite observe_bind, E; reflexivity).
    rewrite (run_tau_eq fuel env t t') by exact E. apply IH.
  - rewrite (run_vis_eq fuel env _ e (fun x => ITree.bind (g x) (fun a => Ret a)))
      by (rewrite observe_bind, E; reflexivity).
    rewrite (run_vis_eq fuel env t e g) by exact E.
    rewrite IH. reflexivity.
Qed.

Lemma prepend_app {R : Type} (tr1 tr2 : list Event) (r : list Event * Env * option R) :
  prepend (tr1 ++ tr2) r = prepend tr1 (prepend tr2 r).
Proof. unfold prepend. cbn [trace env_after returned fst snd]. rewrite app_assoc. reflexivity. Qed.

Lemma runs_as_ret {A : Type} (a : A) (env : Env) : runs_as (Ret a) env [] a env.
Proof.
  intros R k fuel. cbn [length Nat.add]. rewrite run_bind_ret, prepend_nil. reflexivity.
Qed.

Lemma runs_as_trigger {A : Type} (e : winE A) (env : Env) :
  runs_as (ITree.trigger e) env [Ev e] (fst (answer env e)) (snd (answer env e)).
Proof.
  intros R k fuel. cbn [length Nat.add]. rewrite run_bind_trigger. reflexivity.
Qed.

Lemma runs_as_bind {A B : Type} (t : itree winE A) (h : A -> itree winE B)
    (env env1 env2 : Env) (tr1 tr2 : list Event) (a : A) (b : B) :
  runs_as t env tr1 a env1 -> runs_as (h a) env1 tr2 b env2 ->
  runs_as (ITree.bind t h) env (tr1 ++ tr2) b env2.
Proof.
  intros H1 H2 R k fuel. rewrite run_bind_assoc, length_app, <- Nat.add_assoc.
  rewrite H1, H2, prepend_app. reflexivity.
Qed.

(** What an exact run says about a run with any fuel: if the tree
    returns, the run is the exact one; in any case its events are the
    first events of the exact one. *)
Lemma runs_as_whole {A : Type} (t : itree winE A) (env env' : Env)
    (tr : list Event) (a : A) :
  runs_as t env tr a env' -> run (length tr + 1) env t = (tr, env', Some a).
Proof.
  intros H. rewrite <- run_bind_ret_r, H. unfold prepend. cbn. rewrite app_nil_r.
  reflexivity.
Qed.

Lemma runs_as_returned {A : Type} (t : itree winE A) (env env' : Env)
    (tr : list Event) (a r : A) (fuel : nat) :
  runs_as t env tr a env' ->
  returned (run fuel env t) = Some r -> run fuel env t = (tr, env', Some a).
Proof.
  intros H Hr. apply runs_as_whole in H.
  destruct (Nat.le_gt_cases fuel (length tr + 1)) as [Hle | Hgt].
  - destruct (run_more (length tr + 1 - fuel) fuel env t) as [_ Hs].
    replace (fuel + (length tr + 1 - fuel))%nat with (length tr + 1)%nat in Hs by lia.
    rewrite <- (Hs r Hr). exact H.
  - destruct (run_more (fuel - (length tr + 1)) (length tr + 1) env t) as [_ Hs].
    replace (length tr + 1 + (fuel - (length tr + 1)))%nat with fuel in Hs by lia.
    rewrite (Hs a); [exact H | rewrite H; reflexivity].
Qed.

Lemma runs_as_prefix {A : Type} (t : itree winE A) (env env' : Env)
    (tr : list Event) (a : A) (fuel : nat) :
  runs_as t env tr a env' -> prefix_of (trace (run fuel env t)) tr.
Proof.
  intros H. pose proof (runs_as_whole _ _ _ _ _ H) as Hw.
  destruct (Nat.le_gt_cases fuel (length tr + 1)) as [Hle | Hgt].
  - destruct (run_more (length tr + 1 - fuel) fuel env t) as [[rest Hr] _].
    replace (fuel + (length tr + 1 - fuel))%nat with (length tr + 1)%nat in Hr by lia.
    rewrite Hw in Hr. exists rest. exact Hr.
  - destruct (run_more (fuel - (length tr + 1)) (length tr + 1) env t) as [_ Hs].
    replace (length tr + 1 + (fuel - (length tr + 1)))%nat with fuel in Hs by lia.
    rewrite (Hs a) by (rewrite Hw; reflexivity). rewrite Hw.
    exists []. cbn. rewrite app_nil_r. reflexivity.
Qed.

(* ===================================================================== *)
(** ** The codec as the process runs it *)
(* ===================================================================== *)

Lemma with_screen_same (env : Env) : with_screen env (env_screen env) = env.
Proof. destruct env. reflexivity. Qed.

Lemma runs_as_advance (hdc : HDC) (x y : Z) (env : Env) :
  runs_as (advance (m := itree winE) hdc x y) env [Ev (EvHorzRes hdc)]
          (next_xy (horzres (env_screen env)) (x, y)) env.
Proof.
  unfold advance. cbn [bind ret Monad_itree GetDeviceCaps_HORZRES Surface_itree].
  change [Ev (EvHorzRes hdc)] with ([Ev (EvHorzRes hdc)] ++ []).
  eapply runs_as_bind; [apply runs_as_trigger|].
  cbn [answer fst snd next_xy]. destruct (x + 1 >=? horzres (env_screen env));
    apply runs_as_ret.
Qed.

Lemma runs_as_encode_body (hdc : HDC) (buffer : list uchar) (i x y : Z) (env : Env) :
  runs_as (encode_body (m := itree winE) hdc buffer i (x, y)) env
          [Ev (EvSetPixel hdc x y (colour_at buffer i)); Ev (EvHorzRes hdc)]
          (next_xy (horzres (env_screen env)) (x, y))
          (with_screen env (set_pixel (env_screen env) x y (colour_at buffer i))).
Proof.
  unfold encode_body. cbn [bind ret Monad_itree SetPixel Surface_itree].
  change [Ev (EvSetPixel hdc x y (colour_at buffer i)); Ev (EvHorzRes hdc)]
    with ([Ev (EvSetPixel hdc x y (colour_at buffer i))] ++ [Ev (EvHorzRes hdc)]).
  eapply runs_as_bind; [apply runs_as_trigger|].
  cbn [answer fst snd]. apply (runs_as_advance hdc x y
    (with_screen env (set_pixel (env_screen env) x y (colour_at buffer i)))).
Qed.

Lemma runs_as_decode_body (hdc : HDC) (i x y : Z) (acc : list uchar) (env : Env) :
  runs_as (decode_body (m := itree winE) hdc i (x, y, acc)) env
          [Ev (EvGetPixel hdc x y); Ev (EvHorzRes hdc)]
          (next_xy (horzres (env_screen env)) (x, y),
           acc ++ pixel_bytes (pixel (env_screen env) x y))
          env.
Proof.
  unfold decode_body. cbn [bind ret Monad_itree GetPixel Surface_itree].
  change [Ev (EvGetPixel hdc x y); Ev (EvHorzRes hdc)]
    with ([Ev (EvGetPixel hdc x y)] ++ ([Ev (EvHorzRes hdc)] ++ [])).
  eapply runs_as_bind; [apply runs_as_trigger|]. cbn [answer fst snd].
  eapply runs_as_bind; [apply runs_as_advance|].
  destruct (next_xy (horzres (env_screen env)) (x, y)) as [x' y'].
  unfold pixel_bytes. rewrite <- !app_assoc. apply runs_as_ret.
Qed.

(** The pixel loop of [encodePacket], as a run. *)
Lemma runs_as_encode_loop (hdc : HDC) (buffer : list uchar) :
  forall (fuel : nat) (i : Z) (xy : Z * Z) (env : Env),
    0 <= i -> i mod 3 = 0 -> vsize buffer - i <= 3 * Z.of_nat fuel ->
    let w := horzres (env_screen env) in
    let k := pixels_for (vsize buffer - i) in
    let writes := combine (track w k xy) (colours buffer k i) in
    runs_as (for_loop (m := itree winE) fuel (fun j => j <? vsize buffer)
                      (fun j => j + 3) (encode_body hdc buffer) i xy)
            env (write_events hdc writes) (cursor w k xy)
            (with_screen env (paint (env_screen env) writes)).
Proof.
  unfold pixels_for.
  induction fuel as [|fuel IH]; intros i [x y] env Hi Hm Hf; cbv zeta.
  - replace (Z.to_nat ((vsize buffer - i + 2) / 3)) with O
      by (Z.div_mod_to_equations; lia).
    cbn [for_loop track colours combine write_events flat_map cursor paint ret Monad_itree].
    rewrite with_screen_same. apply runs_as_ret.
  - cbn [for_loop]. destruct (Z.ltb_spec i (vsize buffer)) as [Hlt | Hge].
    + replace (Z.to_nat ((vsize buffer - i + 2) / 3))
        with (S (Z.to_nat ((vsize buffer - (i + 3) + 2) / 3)))
        by (Z.div_mod_to_equations; lia).
      cbn [track colours combine write_events flat_map cursor paint bind Monad_itree].
      change (?a :: ?b :: ?l) with ([a; b] ++ l).
      eapply runs_as_bind; [apply runs_as_encode_body|].
      specialize (IH (i + 3) (next_xy (horzres (env_screen env)) (x, y))
                     (with_screen env (set_pixel (env_screen env) x y (colour_at buffer i)))).
      cbv zeta in IH. cbn [with_screen env_screen set_pixel horzres] in IH.
      apply IH; [lia | | lia]. Z.div_mod_to_equations; lia.
    + replace (Z.to_nat ((vsize buffer - i + 2) / 3)) with O
        by (Z.div_mod_to_equations; lia).
      cbn [track colours combine write_events flat_map cursor paint ret Monad_itree].
      rewrite with_screen_same. apply runs_as_ret.
Qed.

(** A reading loop of [decodePacket], as a run. *)
Lemma runs_as_decode_loop (hdc : HDC) (n : Z) (step : Z -> Z) :
  (forall i, 0 <= i < n -> i mod 3 = 0 -> step i = i + 3) ->
  forall (fuel : nat) (i : Z) (xy : Z * Z) (acc : list uchar) (env : Env),
    0 <= i -> i mod 3 = 0 -> n - i <= 3 * Z.of_nat fuel ->
    let s := env_screen env in
    let k := pixels_for (n - i) in
    runs_as (for_loop (m := itree winE) fuel (fun j => j <? n) step
                      (decode_body hdc) i (xy, acc))
            env (read_events hdc (track (horzres s) k xy))
            (cursor (horzres s) k xy, acc ++ scan s k xy) env.
Proof.
  intros Hstep. unfold pixels_for.
  induction fuel as [|fuel IH]; intros i [x y] acc env Hi Hm Hf; cbv zeta.
  - replace (Z.to_nat ((n - i + 2) / 3)) with O by (Z.div_mod_to_equations; lia).
    cbn [for_loop track read_events flat_map cursor scan ret Monad_itree].
    rewrite app_nil_r. apply runs_as_ret.
  - cbn [for_loop]. destruct (Z.ltb_spec i n) as [Hlt | Hge].
    + replace (Z.to_nat ((n - i + 2) / 3))
        with (S (Z.to_nat ((n - (i + 3) + 2) / 3)))
        by (Z.div_mod_to_equations; lia).
      unfold scan.
      cbn [track read_events flat_map cursor bind Monad_itree fst snd].
      change (?a :: ?b :: ?l) with ([a; b] ++ l). rewrite app_assoc.
      eapply runs_as_bind; [apply runs_as_decode_body|].
      rewrite Hstep by lia.
      apply (IH (i + 3) (next_xy (horzres (env_screen env)) (x, y))
                (acc ++ pixel_bytes (pixel (env_screen env) x y)) env);
        [lia | | lia].
      Z.div_mod_to_equations; lia.
    + replace (Z.to_nat ((n - i + 2) / 3)) with O by (Z.div_mod_to_equations; lia).
      cbn [for_loop track read_events flat_map cursor scan ret Monad_itree].
      rewrite app_nil_r. apply runs_as_ret.
Qed.

Lemma runs_as_lock_guard {A : Type} (body : itree winE A) (env env' : Env)
    (tr : list Event) (a : A) :
  runs_as body env tr a env' -> runs_as (lock_guard body) env tr a env'.
Proof.
  intros Hb. unfold lock_guard.
  cbn [bind ret Monad_itree screenMutex_lock screenMutex_unlock Mutex_itree].
  change tr with ([] ++ tr). eapply runs_as_bind; [apply runs_as_ret|].
  rewrite <- (app_nil_r tr). eapply runs_as_bind; [exact Hb|].
  change (@nil Event) with (@nil Event ++ []).
  eapply runs_as_bind; apply runs_as_ret.
Qed.

(** [encodePacket] as the process runs it: the events are the [SetPixel]
    calls of [encode_writes], each followed by the query of the width, and
    the screen afterwards is the one the state instance computes. *)
Lemma runs_as_encodePacket (hdc : HDC) (startX startY : Z) (packet : Packet) (env : Env) :
  let writes := encode_writes (horzres (env_screen env)) startX startY packet in
  runs_as (encodePacket (m := itree winE) hdc startX startY packet) env
          (write_events hdc writes) tt
          (with_screen env (paint (env_screen env) writes)).
Proof.
  cbv zeta. unfold encodePacket. apply runs_as_lock_guard.
  unfold encode_writes. cbn [bind ret Monad_itree].
  rewrite <- (app_nil_r (write_events _ _)).
  eapply runs_as_bind; [|apply runs_as_ret].
  pose proof (runs_as_encode_loop hdc (serialize packet) (length (serialize packet))
                0 (startX, startY) env) as H.
  cbv zeta in H. rewrite Z.sub_0_r in H.
  apply H; [lia | reflexivity | unfold vsize; lia].
Qed.

(** [decodePacket] as the process runs it: the events are the [GetPixel]
    calls of the state instance, each followed by the query of the width;
    the result is the packet the state instance returns; the environment
    is as before. *)
Lemma runs_as_decodePacket (hdc : HDC) (startX startY : Z) (env : Env) :
  runs_as (decodePacket (m := itree winE) hdc startX startY) env
          (read_events hdc (decode_reads (env_screen env) startX startY))
          (result (decodePacket (m := SM) hdc startX startY (env_screen env)))
          env.
Proof.
  rewrite decode_reads_eq, decodePacket_run. cbv zeta.
  unfold decodePacket. apply runs_as_lock_guard.
  cbn [bind ret Monad_itree].
  rewrite track_app. unfold read_events. rewrite flat_map_app.
  fold (read_events hdc (track (horzres (env_screen env)) 3 (startX, startY))).
  eapply runs_as_bind.
  - pose proof (runs_as_decode_loop hdc (4 + 4) (fun i => i + 3)
                  ltac:(intros; reflexivity) 8 0 (startX, startY) [] env) as H.
    cbv zeta in H. apply H; [lia | reflexivity | lia].
  - change (pixels_for (4 + 4 - 0)) with 3%nat. cbn [app].
    destruct (cursor (horzres (env_screen env)) 3 (startX, startY)) as [x y] eqn:Ec.
    fold (header (env_screen env) startX startY).
    fold (header_prefix (env_screen env) startX startY).
    fold (header_size (env_screen env) startX startY).
    destruct (header_prefix (env_screen env) startX startY =? PREFIX); cbn [negb].
    + rewrite <- (app_nil_r (flat_map _ _)).
      eapply runs_as_bind.
      * pose proof (runs_as_decode_loop hdc (header_size (env_screen env) startX startY)
                      (fun i => to_uint32 (i + 3))) as H.
        pose proof (uint32_of_bytes_range (skipn 4 (header (env_screen env) startX startY))) as Hr.
        fold (header_size (env_screen env) startX startY) in Hr.
        specialize (H ltac:(intros; apply (uint32_step_no_wrap
                              (header_size (env_screen env) startX startY)); lia)
                      (Z.to_nat (header_size (env_screen env) startX startY))
                      0 (x, y) [] env).
        cbv zeta in H. rewrite Z.sub_0_r in H. apply H; [lia | reflexivity | lia].
      * cbn [app].
        destruct (cursor (horzres (env_screen env))
                    (pixels_for (header_size (env_screen env) startX startY)) (x, y)).
        cbn [result fst]. apply runs_as_ret.
    + cbn [track flat_map]. cbn [result fst]. apply runs_as_ret.
Qed.

(* ===================================================================== *)
(** ** [main]: no device context, and the two roles *)
(* ===================================================================== *)

Lemma run_bind_trigger_any {A R : Type} (fuel : nat) (env : Env) (e : winE A)
    (k : A -> itree winE R) :
  run fuel env (ITree.bind (ITree.trigger e) k)
  = match fuel with
    | O => ([], env, None)
    | S fuel' =>
        prepend [Ev e] (run fuel' (snd (answer env e)) (k (fst (answer env e))))
    end.
Proof.
  destruct fuel as [|fuel]; [reflexivity|]. rewrite run_bind_trigger. reflexivity.
Qed.

(** Without a device context [main] says so on [std::cerr] and returns 1:
    no prompt, no selector read, no pixel touched, nothing released. *)
Theorem main_no_device_context (env : Env) (fuel : nat) :
  env_dc env = NULL ->
  run (3 + fuel) env main
  = ([Ev EvGetDC; Ev (EvCerr "Failed to get device context."%string)],
     env, Some 1).
Proof.
  intros Hdc. unfold main. cbn [bind ret Monad_itree Nat.add].
  rewrite run_bind_trigger. cbn [answer fst snd]. rewrite Hdc.
  change (NULL =? NULL) with true. cbv iota.
  rewrite run_bind_trigger. cbn [answer fst snd].
  rewrite run_ret. reflexivity.
Qed.

Lemma main_no_device_context_witness :
  let env := {| env_dc := 0; env_selector := 1; env_lines := [];
                env_screen := white |} in
  run 3 env main
  = ([Ev EvGetDC; Ev (EvCerr "Failed to get device context."%string)],
     env, Some 1).
Proof.
  apply (main_no_device_context
           {| env_dc := 0; env_selector := 1; env_lines := [];
              env_screen := white |} 0). reflexivity.
Defined.

Lemma emits_advance (P : Event -> Prop) (hdc : HDC) (x y : Z) :
  P (Ev (EvHorzRes hdc)) -> emits P (advance (m := itree winE) hdc x y).
Proof.
  intros Hw. unfold advance. cbn [bind ret Monad_itree GetDeviceCaps_HORZRES Surface_itree].
  apply emits_bind; [apply emits_trigger; exact Hw|].
  intros w. destruct (x + 1 >=? w); apply emits_ret.
Qed.

Lemma emits_lock_guard {A : Type} (P : Event -> Prop) (body : itree winE A) :
  emits P body -> emits P (lock_guard body).
Proof.
  intros Hb. unfold lock_guard.
  cbn [bind ret Monad_itree screenMutex_lock screenMutex_unlock Mutex_itree].
  apply emits_bind; [apply emits_ret|]. intros _.
  apply emits_bind; [exact Hb|]. intros a.
  apply emits_bind; [apply emits_ret|]. intros _. apply emits_ret.
Qed.

Lemma emits_encodePacket (P : Event -> Prop) (hdc : HDC) (startX startY : Z)
    (packet : Packet) :
  (forall x y c, P (Ev (EvSetPixel hdc x y c))) -> P (Ev (EvHorzRes hdc)) ->
  emits P (encodePacket (m := itree winE) hdc startX startY packet).
Proof.
  intros Hs Hw. unfold encodePacket. apply emits_lock_guard. cbn [bind ret Monad_itree].
  apply emits_bind; [|intros; apply emits_ret].
  apply emits_for_loop. intros i [x y]. unfold encode_body.
  cbn [bind Monad_itree SetPixel Surface_itree].
  apply emits_bind; [apply emits_trigger; apply Hs|].
  intros _. apply emits_advance. exact Hw.
Qed.

Lemma emits_decode_body (P : Event -> Prop) (hdc : HDC) (i : Z)
    (st : Z * Z * list uchar) :
  (forall x y, P (Ev (EvGetPixel hdc x y))) -> P (Ev (EvHorzRes hdc)) ->
  emits P (decode_body (m := itree winE) hdc i st).
Proof.
  intros Hg Hw. destruct st as [[x y] acc]. unfold decode_body.
  cbn [bind ret Monad_itree GetPixel Surface_itree].
  apply emits_bind; [apply emits_trigger; apply Hg|].
  intros c. apply emits_bind; [apply emits_advance; exact Hw|].
  intros [x' y']. apply emits_ret.
Qed.

Lemma emits_decodePacket (P : Event -> Prop) (hdc : HDC) (startX startY : Z) :
  (forall x y, P (Ev (EvGetPixel hdc x y))) -> P (Ev (EvHorzRes hdc)) ->
  emits P (decodePacket (m := itree winE) hdc startX startY).
Proof.
  intros Hg Hw. unfold decodePacket. apply emits_lock_guard. cbn [bind ret Monad_itree].
  apply emits_bind.
  - apply emits_for_loop. intros. apply emits_decode_body; assumption.
  - intros [[x y] buffer].
    destruct (negb (uint32_of_bytes buffer =? PREFIX)); [apply emits_ret|].
    apply emits_bind.
    + apply emits_for_loop. intros. apply emits_decode_body; assumption.
    + intros [[x' y'] buffer']. apply emits_ret.
Qed.

Lemma emits_senderLoop (hdc : HDC) (txStartX txStartY rxStartX rxStartY : Z) :
  emits role_event (senderLoop hdc txStartX txStartY rxStartX rxStartY).
Proof.
  unfold senderLoop. apply emits_forever. cbn [bind ret Monad_itree].
  apply emits_bind; [apply emits_trigger; exact I|]. intros _.
  apply emits_bind; [apply emits_trigger; exact I|]. intros message.
  apply emits_bind; [apply emits_encodePacket; intros; exact I|]. intros _.
  unfold wait_for_reply. apply emits_iter. intros _. cbn [bind ret Monad_itree].
  apply emits_bind; [apply emits_decodePacket; intros; exact I|]. intros reply.
  destruct (prefix reply =? PREFIX).
  - apply emits_bind; [apply emits_trigger; exact I|]. intros _.
    apply emits_bind; [apply emits_trigger; exact I|]. intros _.
    apply emits_bind; [apply emits_trigger; exact I|]. intros _.
    apply emits_ret.
  - apply emits_bind; [apply emits_trigger; exact I|]. intros _.
    apply emits_ret.
Qed.

Lemma emits_receiverLoop (hdc : HDC) (rxStartX rxStartY txStartX txStartY : Z) :
  emits role_event (receiverLoop hdc rxStartX rxStartY txStartX txStartY).
Proof.
  unfold receiverLoop. apply emits_forever. cbn [bind ret Monad_itree].
  apply emits_bind; [apply emits_decodePacket; intros; exact I|]. intros received.
  apply emits_bind; [|intros _; apply emits_trigger; exact I].
  destruct (prefix received =? PREFIX); [|apply emits_ret].
  apply emits_bind; [apply emits_trigger; exact I|]. intros _.
  apply emits_bind; [apply emits_trigger; exact I|]. intros _.
  apply emits_bind; [apply emits_trigger; exact I|]. intros _.
  apply emits_bind; [apply emits_trigger; exact I|]. intros _.
  apply emits_bind; [apply emits_trigger; exact I|]. intros reply.
  apply emits_encodePacket; intros; exact I.
Qed.

Lemma forever_never_returns {A R : Type} (t : itree winE A) (fuel : nat) (env : Env) :
  returned (run fuel env (ITree.forever t : itree winE R)) = None.
Proof.
  apply (forever_run (fun _ => True) t).
  intros f e. apply Forall_forall. intros; exact I.
Qed.

(** A role loop in front of a bind: the bind never gets its turn. *)
Lemma run_loop_then {A R : Type} (t : itree winE A) (k : A -> itree winE R)
    (fuel : nat) (env : Env) :
  (forall f e, returned (run f e t) = None) -> emits role_event t ->
  returned (run fuel env (ITree.bind t k)) = None
  /\ Forall role_event (trace (run fuel env (ITree.bind t k))).
Proof.
  intros Hn He. pose proof (run_bind k fuel env t) as H.
  rewrite Hn in H. rewrite H. split; [reflexivity | apply He].
Qed.

(** Once a role is chosen, [main] never comes back: with selector 1 or 2
    no run of [main], however long, returns, releases the device context
    or writes to [std::cerr]. *)
Theorem main_role_never_exits (env : Env) (fuel : nat) :
  env_dc env <> NULL -> env_selector env = 1 \/ env_selector env = 2 ->
  returned (run fuel env main) = None
  /\ Forall role_event (trace (run fuel env main)).
Proof.
  intros Hdc Hsel. apply Z.eqb_neq in Hdc.
  unfold main. cbn [bind ret Monad_itree].
  rewrite run_bind_trigger_any. destruct fuel as [|fuel]; [split; [reflexivity | constructor]|].
  cbn [answer fst snd]. rewrite Hdc.
  rewrite run_bind_trigger_any. destruct fuel as [|fuel];
    [split; [reflexivity | repeat constructor]|].
  cbn [answer fst snd].
  rewrite run_bind_trigger_any. destruct fuel as [|fuel];
    [split; [reflexivity | repeat constructor]|].
  cbn [answer fst snd].
  rewrite run_bind_trigger_any. destruct fuel as [|fuel];
    [split; [reflexivity | repeat constructor]|].
  cbn [answer fst snd]. unfold main_dispatch. cbn [bind ret Monad_itree].
  unfold prepend. cbn [returned trace fst snd].
  assert (H : returned (run fuel env
                (ITree.bind
                   (if env_selector env =? 1 then senderLoop (env_dc env) 0 0 0 10
                    else if env_selector env =? 2 then receiverLoop (env_dc env) 0 0 0 10
                    else ITree.trigger (EvCerr "Invalid instance number."%string))
                   (fun _ => ITree.bind (ITree.trigger (EvReleaseDC (env_dc env)))
                                        (fun _ => Ret 0)))) = None
              /\ Forall role_event (trace (run fuel env
                (ITree.bind
                   (if env_selector env =? 1 then senderLoop (env_dc env) 0 0 0 10
                    else if env_selector env =? 2 then receiverLoop (env_dc env) 0 0 0 10
                    else ITree.trigger (EvCerr "Invalid instance number."%string))
                   (fun _ => ITree.bind (ITree.trigger (EvReleaseDC (env_dc env)))
                                        (fun _ => Ret 0)))))).
  { destruct Hsel as [-> | ->]; cbn [Z.eqb Pos.eqb]; apply run_loop_then.
    - intros f e. apply forever_never_returns.
    - apply emits_senderLoop.
    - intros f e. apply forever_never_returns.
    - apply emits_receiverLoop. }
  destruct H as [H1 H2]. split; [exact H1|].
  repeat (constructor; [exact I|]). exact H2.
Qed.

Lemma main_role_never_exits_witness :
  let env := {| env_dc := 1; env_selector := 2; env_lines := ["yo"%string];
                env_screen := white |} in
  returned (run 100 env main) = None
  /\ Forall role_event (trace (run 100 env main)).
Proof.
  apply (main_role_never_exits
           {| env_dc := 1; env_selector := 2; env_lines := ["yo"%string];
              env_screen := white |} 100); [discriminate | right; reflexivity].
Defined.

(* ===================================================================== *)
(** ** The sender *)
(* ===================================================================== *)

(** The sender sends what was typed.  Whatever the screen and the line,
    [senderLoop] prompts, reads one line, and writes the frame of exactly
    the bytes of that line from its transmit corner, leaving the screen as
    [encodePacket] computes it; the next thing it does is read the pixel at
    its receive corner. *)
Theorem sender_sends_typed_line (hdc : HDC) (txStartX txStartY rxStartX rxStartY : Z)
    (env : Env) :
  let sent := typed hdc txStartX txStartY env in
  let loop := senderLoop hdc txStartX txStartY rxStartX rxStartY in
  run (length sent) env loop = (sent, after_typed hdc txStartX txStartY env, None)
  /\ trace (run (length sent + 1) env loop)
     = sent ++ [Ev (EvGetPixel hdc rxStartX rxStartY)].
Proof.
  unfold typed, after_typed.
  cbv zeta. rewrite encodePacket_run. cbn [screen_after fst snd].
  set (writes := encode_writes _ _ _ _).
  assert (H : forall fuel,
             run (2 + (length (write_events hdc writes) + fuel)) env
                 (senderLoop hdc txStartX txStartY rxStartX rxStartY)
             = prepend ([Ev (EvCout "You: "%string); Ev EvGetLine]
                        ++ write_events hdc writes)
                 (run fuel (with_screen (line_read env) (paint (env_screen env) writes))
                      (ITree.bind (wait_for_reply hdc rxStartX rxStartY)
                         (fun _ => Tau (senderLoop hdc txStartX txStartY rxStartX rxStartY))))).
  { intros fuel. unfold senderLoop at 1.
    match goal with |- run ?f ?e (ITree.forever ?t) = _ =>
      rewrite (run_observe f e (ITree.forever t)
                 (ITree.bind t (fun _ => Tau (ITree.forever t)))) by reflexivity end.
    fold (senderLoop hdc txStartX txStartY rxStartX rxStartY).
    cbn [bind ret Monad_itree Nat.add].
    rewrite run_bind_assoc, run_bind_trigger. cbn [answer fst snd].
    rewrite run_bind_assoc, run_bind_trigger. cbn [answer fst snd].
    rewrite run_bind_assoc.
    pose proof (runs_as_encodePacket hdc txStartX txStartY
                  (Packet_of (payload_of_string (hd String.EmptyString (env_lines env))))
                  (line_read env)) as He.
    cbv zeta in He. cbn [line_read env_screen] in He. fold writes in He.
    rewrite He. reflexivity. }
  split.
  - replace (length ([Ev (EvCout "You: "%string); Ev EvGetLine] ++ write_events hdc writes))
      with (2 + (length (write_events hdc writes) + 0))%nat
      by (cbn [length app]; lia).
    rewrite (H 0%nat). unfold prepend. cbn [run trace env_after returned fst snd].
    rewrite app_nil_r. reflexivity.
  - replace (length ([Ev (EvCout "You: "%string); Ev EvGetLine] ++ write_events hdc writes) + 1)%nat
      with (2 + (length (write_events hdc writes) + 1))%nat
      by (cbn [length app]; lia).
    rewrite (H 1%nat). unfold prepend. cbn [trace fst]. f_equal.
Qed.

(* ===================================================================== *)
(** ** Polling a region that holds no frame *)
(* ===================================================================== *)

Lemma prefix_of_app {A : Type} (l l1 l2 : list A) :
  prefix_of l1 l2 -> prefix_of (l ++ l1) (l ++ l2).
Proof. intros [rest ->]. exists rest. rewrite app_assoc. reflexivity. Qed.

(** A loop whose body runs exactly as [tr] and leaves the environment as
    it found it repeats [tr] for ever. *)
Lemma forever_repeats {A R : Type} (t : itree winE A) (env : Env)
    (tr : list Event) (a : A) :
  runs_as t env tr a env ->
  forall fuel : nat,
    exists n : nat,
      prefix_of (trace (run fuel env (ITree.forever t : itree winE R)))
                (concat (repeat tr n)).
Proof.
  intros Ht fuel. induction fuel as [fuel IH] using lt_wf_ind.
  rewrite (run_observe fuel env (ITree.forever t)
             (ITree.bind t (fun _ => Tau (ITree.forever t)))) by reflexivity.
  pose proof (run_bind (fun _ : A => Tau (ITree.forever t : itree winE R)) fuel env t) as H.
  destruct (returned (run fuel env t)) as [r|] eqn:Er.
  - destruct H as (f' & Hf & E). rewrite E.
    rewrite (runs_as_returned t env env tr a r fuel Ht Er).
    unfold prepend. cbn [trace env_after fst snd].
    destruct f' as [|f']; [lia|]. rewrite run_tau.
    destruct (IH f' ltac:(lia)) as [n Hn]. exists (S n).
    cbn [repeat concat]. apply prefix_of_app. exact Hn.
  - rewrite H. exists 1%nat. cbn [repeat concat trace fst]. rewrite app_nil_r.
    apply (runs_as_prefix t env env tr a fuel Ht).
Qed.

(** The same for [ITree.iter] when the body asks for another round. *)
Lemma iter_repeats {R : Type} (body : unit -> itree winE (unit + R)) (env : Env)
    (tr : list Event) :
  runs_as (body tt) env tr (inl tt) env ->
  forall fuel : nat,
    returned (run fuel env (ITree.iter body tt)) = None
    /\ exists n : nat,
         prefix_of (trace (run fuel env (ITree.iter body tt)))
                   (concat (repeat tr n)).
Proof.
  intros Ht fuel. induction fuel as [fuel IH] using lt_wf_ind.
  rewrite (run_observe fuel env (ITree.iter body tt)
             (ITree.bind (body tt)
                (fun lr => match lr with
                           | inl l => Tau (ITree.iter body l)
                           | inr r => Ret r
                           end))) by reflexivity.
  match goal with |- context [ITree.bind _ ?k] =>
    pose proof (run_bind k fuel env (body tt)) as H end.
  destruct (returned (run fuel env (body tt))) as [r|] eqn:Er.
  - destruct H as (f' & Hf & E). rewrite E.
    pose proof (runs_as_returned _ _ _ _ _ r fuel Ht Er) as Hrun.
    rewrite Hrun in Er. cbn [returned snd] in Er. injection Er as <-.
    rewrite Hrun. unfold prepend. cbn [trace env_after returned fst snd].
    destruct f' as [|f']; [lia|]. rewrite run_tau.
    destruct (IH f' ltac:(lia)) as [Hnone [n Hn]]. split; [exact Hnone|].
    exists (S n). cbn [repeat concat]. apply prefix_of_app. exact Hn.
  - rewrite H. split; [reflexivity|]. exists 1%nat.
    cbn [repeat concat trace fst]. rewrite app_nil_r.
    apply (runs_as_prefix _ _ _ _ _ fuel Ht).
Qed.

Lemma runs_as_sleep (ms : Z) (env : Env) :
  runs_as (ITree.trigger (EvSleep ms)) env [Ev (EvSleep ms)] tt env.
Proof. exact (runs_as_trigger (EvSleep ms) env). Qed.

Lemma decode_invalid (hdc : HDC) (startX startY : Z) (s : Screen) :
  firstn 4 (scan s 2 (startX, startY)) <> bytes_of_uint32 PREFIX ->
  result (decodePacket (m := SM) hdc startX startY s) = Packet_empty
  /\ decode_reads s startX startY = track (horzres s) 3 (startX, startY).
Proof.
  intros Hne. rewrite decode_reads_eq, decodePacket_run. cbv zeta.
  destruct (Z.eqb_spec (header_prefix s startX startY) PREFIX) as [E | _].
  - exfalso. apply Hne. apply header_prefix_bytes. exact E.
  - split; reflexivity.
Qed.

(* ===================================================================== *)
(** ** Whole rounds of the two loops *)
(* ===================================================================== *)

Lemma decode_valid_prefix (hdc : HDC) (startX startY : Z) (s : Screen) :
  firstn 4 (scan s 2 (startX, startY)) = bytes_of_uint32 PREFIX ->
  prefix (result (decodePacket (m := SM) hdc startX startY s)) = PREFIX.
Proof.
  intros Hmagic. rewrite decodePacket_run. cbv zeta.
  apply header_prefix_bytes in Hmagic. rewrite Hmagic, Z.eqb_refl. reflexivity.
Qed.

(** One round of a [while (true)] whose body runs as [tr]. *)
Lemma forever_round {A R : Type} (t : itree winE A) (env env' : Env)
    (tr : list Event) (a : A) (fuel : nat) :
  runs_as t env tr a env' ->
  run (length tr + S fuel) env (ITree.forever t : itree winE R)
  = prepend tr (run fuel env' (ITree.forever t : itree winE R)).
Proof.
  intros H.
  rewrite (run_observe _ env (ITree.forever t)
             (ITree.bind t (fun _ => Tau (ITree.forever t)))) by reflexivity.
  rewrite H, run_tau. reflexivity.
Qed.

Lemma forever_round_exact {A R : Type} (t : itree winE A) (env env' : Env)
    (tr : list Event) (a : A) :
  runs_as t env tr a env' ->
  run (length tr) env (ITree.forever t : itree winE R) = (tr, env', None).
Proof.
  intros H.
  rewrite (run_observe _ env (ITree.forever t)
             (ITree.bind t (fun _ => Tau (ITree.forever t)))) by reflexivity.
  rewrite <- (Nat.add_0_r (length tr)), H. unfold prepend.
  cbn [run trace env_after returned fst snd]. rewrite app_nil_r. reflexivity.
Qed.

(** A loop with [break]: the round in which the body breaks. *)
Lemma runs_as_iter_done {I A : Type} (body : I -> itree winE (I + A)) (i : I)
    (env env' : Env) (tr : list Event) (a : A) :
  runs_as (body i) env tr (inr a) env' ->
  runs_as (ITree.iter body i) env tr a env'.
Proof.
  intros H R k fuel.
  rewrite (run_observe _ env (ITree.bind (ITree.iter body i) k)
             (ITree.bind
                (ITree.bind (body i)
                   (fun lr => match lr with
                              | inl l => Tau (ITree.iter body l)
                              | inr r => Ret r
                              end)) k)) by reflexivity.
  rewrite run_bind_assoc, H. cbv beta iota. rewrite run_bind_ret. reflexivity.
Qed.

(** [std::cout << "Them: " << message << std::endl]. *)
Lemma runs_as_shown {A : Type} (p : Packet) (a : A) (env : Env) :
  runs_as (ITree.bind (ITree.trigger (EvCout "Them: "%string))
             (fun _ => ITree.bind (ITree.trigger (EvCout (string_of_payload (payload p))))
                (fun _ => ITree.bind (ITree.trigger EvEndl) (fun _ => Ret a))))
          env (shown p) a env.
Proof.
  unfold shown.
  change [Ev (EvCout "Them: "%string); Ev (EvCout (string_of_payload (payload p)));
          Ev EvEndl]
    with ([Ev (EvCout "Them: "%string)]
          ++ [Ev (EvCout (string_of_payload (payload p)))] ++ [Ev EvEndl] ++ []).
  eapply runs_as_bind; [apply runs_as_trigger|]. cbn [answer fst snd].
  eapply runs_as_bind; [apply runs_as_trigger|]. cbn [answer fst snd].
  eapply runs_as_bind; [apply runs_as_trigger|]. cbn [answer fst snd].
  apply runs_as_ret.
Qed.

(** [std::cout << "You: "; std::getline(std::cin, message); ...;
    encodePacket(hdc, txStartX, txStartY, packet)]. *)
Lemma runs_as_typed (hdc : HDC) (txStartX txStartY : Z) (env : Env) :
  runs_as (ITree.bind (ITree.trigger (EvCout "You: "%string))
             (fun _ => ITree.bind (ITree.trigger EvGetLine)
                (fun message =>
                   encodePacket (m := itree winE) hdc txStartX txStartY
                                (Packet_of (payload_of_string message)))))
          env (typed hdc txStartX txStartY env) tt (after_typed hdc txStartX txStartY env).
Proof.
  unfold typed, after_typed. rewrite encodePacket_run. cbn [screen_after fst snd].
  change ([Ev (EvCout "You: "%string); Ev EvGetLine] ++ ?l)
    with ([Ev (EvCout "You: "%string)] ++ [Ev EvGetLine] ++ l).
  eapply runs_as_bind; [apply runs_as_trigger|]. cbn [answer fst snd].
  eapply runs_as_bind; [apply runs_as_trigger|]. cbn [answer fst snd].
  apply (runs_as_encodePacket hdc txStartX txStartY _ (line_read env)).
Qed.

(** The wait of the sender ends at the first poll that finds the
    sentinel. *)
Lemma runs_as_wait_valid (hdc : HDC) (rxStartX rxStartY : Z) (env : Env) :
  firstn 4 (scan (env_screen env) 2 (rxStartX, rxStartY)) = bytes_of_uint32 PREFIX ->
  runs_as (wait_for_reply hdc rxStartX rxStartY) env
          (read_events hdc (decode_reads (env_screen env) rxStartX rxStartY)
           ++ shown (result (decodePacket (m := SM) hdc rxStartX rxStartY (env_screen env))))
          tt env.
Proof.
  intros Hmagic. unfold wait_for_reply. apply runs_as_iter_done.
  cbn [bind ret Monad_itree].
  eapply runs_as_bind; [apply runs_as_decodePacket|].
  rewrite (decode_valid_prefix hdc _ _ _ Hmagic), Z.eqb_refl.
  apply runs_as_shown.
Qed.

Lemma runs_as_receiver_round (hdc : HDC) (rxStartX rxStartY txStartX txStartY : Z)
    (env : Env) :
  firstn 4 (scan (env_screen env) 2 (rxStartX, rxStartY)) = bytes_of_uint32 PREFIX ->
  runs_as
    (received <- decodePacket hdc rxStartX rxStartY ;;
     (if prefix received =? PREFIX then
        ITree.trigger (EvCout "Them: "%string) ;;
        ITree.trigger (EvCout (string_of_payload (payload received))) ;;
        ITree.trigger EvEndl ;;
        ITree.trigger (EvCout "You: "%string) ;;
        reply <- ITree.trigger EvGetLine ;;
        let packet := Packet_of (payload_of_string reply) in
        encodePacket hdc txStartX txStartY packet
      else ret tt) ;;
     ITree.trigger (EvSleep 100))
    env
    (read_events hdc (decode_reads (env_screen env) rxStartX rxStartY)
     ++ shown (result (decodePacket (m := SM) hdc rxStartX rxStartY (env_screen env)))
     ++ typed hdc txStartX txStartY env
     ++ [Ev (EvSleep 100)])
    tt (after_typed hdc txStartX txStartY env).
Proof.
  intros Hmagic. cbn [bind ret Monad_itree].
  eapply runs_as_bind; [apply runs_as_decodePacket|].
  rewrite (decode_valid_prefix hdc _ _ _ Hmagic), Z.eqb_refl.
  rewrite app_assoc.
  eapply runs_as_bind; [|apply runs_as_sleep].
  unfold shown.
  change ([Ev (EvCout "Them: "%string); Ev (EvCout ?m); Ev EvEndl] ++ ?l)
    with ([Ev (EvCout "Them: "%string)] ++ [Ev (EvCout m)] ++ [Ev EvEndl] ++ l).
  eapply runs_as_bind; [apply runs_as_trigger|]. cbn [answer fst snd].
  eapply runs_as_bind; [apply runs_as_trigger|]. cbn [answer fst snd].
  eapply runs_as_bind; [apply runs_as_trigger|]. cbn [answer fst snd].
  apply runs_as_typed.
Qed.

(** The receiver shows what [decodePacket] returned and sends what was
    typed.  When its receive region begins with the sentinel, one round of
    [receiverLoop] reads the frame, prints "Them: ", the payload as text
    and a line end, prompts "You: ", reads one line, writes the frame of
    exactly the bytes of that line from its transmit corner, and sleeps
    100 ms. *)
Theorem receiver_shows_and_replies (hdc : HDC) (rxStartX rxStartY txStartX txStartY : Z)
    (env : Env) :
  firstn 4 (scan (env_screen env) 2 (rxStartX, rxStartY)) = bytes_of_uint32 PREFIX ->
  let received := result (decodePacket (m := SM) hdc rxStartX rxStartY (env_screen env)) in
  let round :=
    read_events hdc (decode_reads (env_screen env) rxStartX rxStartY)
    ++ shown received
    ++ typed hdc txStartX txStartY env
    ++ [Ev (EvSleep 100)] in
  run (length round) env (receiverLoop hdc rxStartX rxStartY txStartX txStartY)
  = (round, after_typed hdc txStartX txStartY env, None).
Proof.
  intros Hmagic. cbv zeta. unfold receiverLoop.
  apply (forever_round_exact _ env _ _ tt).
  apply runs_as_receiver_round. exact Hmagic.
Qed.

Lemma receiver_shows_and_replies_witness :
  let env := {| env_dc := 1; env_selector := 2; env_lines := ["yo"%string];
                env_screen := screen_after (encodePacket (m := SM) 1 0 0
                                              (Packet_of payload_ABC) white) |} in
  trace (run 22 env (receiverLoop 1 0 0 0 10))
  = [Ev (EvGetPixel 1 0 0); Ev (EvHorzRes 1); Ev (EvGetPixel 1 1 0); Ev (EvHorzRes 1);
     Ev (EvGetPixel 1 2 0); Ev (EvHorzRes 1); Ev (EvGetPixel 1 3 0); Ev (EvHorzRes 1);
     Ev (EvCout "Them: "%string);
     Ev (EvCout (string_of_payload [x42; x43; x00]));
     Ev EvEndl;
     Ev (EvCout "You: "%string);
     Ev EvGetLine;
     Ev (EvSetPixel 1 0 10 (RGB xbe xba xfe)); Ev (EvHorzRes 1);
     Ev (EvSetPixel 1 1 10 (RGB xca x02 x00)); Ev (EvHorzRes 1);
     Ev (EvSetPixel 1 2 10 (RGB x00 x00 x79)); Ev (EvHorzRes 1);
     Ev (EvSetPixel 1 3 10 (RGB x6f x00 x00)); Ev (EvHorzRes 1);
     Ev (EvSleep 100)].
Proof.
  assert (H : firstn 4 (scan (screen_after (encodePacket (m := SM) 1 0 0
                                              (Packet_of payload_ABC) white))
                              2 (0, 0))
              = bytes_of_uint32 PREFIX) by (vm_compute; reflexivity).
  exact (f_equal trace
           (receiver_shows_and_replies 1 0 0 0 10
              {| env_dc := 1; env_selector := 2; env_lines := ["yo"%string];
                 env_screen := screen_after (encodePacket (m := SM) 1 0 0
                                               (Packet_of payload_ABC) white) |} H)).
Defined.

(** The frame is never consumed.  [receiverLoop] does not clear or mark
    the frame it has shown: when the pixels of the frame lie in the rows
    before the transmit row, the round after the reply reads the same
    pixels, prints the same message again and prompts again. *)
Theorem receiver_shows_frame_again (hdc : HDC) (rxStartX rxStartY txStartX txStartY : Z)
    (env : Env) :
  firstn 4 (scan (env_screen env) 2 (rxStartX, rxStartY)) = bytes_of_uint32 PREFIX ->
  0 <= rxStartX < horzres (env_screen env) ->
  rxStartX + Z.of_nat (length (decode_reads (env_screen env) rxStartX rxStartY))
    <= (txStartY - rxStartY) * horzres (env_screen env) ->
  let received := result (decodePacket (m := SM) hdc rxStartX rxStartY (env_screen env)) in
  let reads := read_events hdc (decode_reads (env_screen env) rxStartX rxStartY) in
  let replied := after_typed hdc txStartX txStartY env in
  let first := reads ++ shown received ++ typed hdc txStartX txStartY env
               ++ [Ev (EvSleep 100)] in
  let second := reads ++ shown received ++ typed hdc txStartX txStartY replied
                ++ [Ev (EvSleep 100)] in
  trace (run (length first + S (length second)) env
             (receiverLoop hdc rxStartX rxStartY txStartX txStartY))
  = first ++ second.
Proof.
  intros Hmagic Hx Hfit. cbv zeta.
  set (packet := Packet_of (payload_of_string (hd String.EmptyString (env_lines env)))).
  pose proof (paint_agree_upper rxStartX rxStartY txStartX txStartY packet
                (env_screen env) Hx Hfit) as Hag.
  assert (Hs : env_screen (after_typed hdc txStartX txStartY env)
               = paint (env_screen env)
                       (encode_writes (horzres (env_screen env)) txStartX txStartY packet)).
  { unfold after_typed. rewrite encodePacket_run. reflexivity. }
  assert (Hmagic' : firstn 4 (scan (env_screen (after_typed hdc txStartX txStartY env)) 2
                                (rxStartX, rxStartY))
                    = bytes_of_uint32 PREFIX).
  { rewrite Hs, <- Hmagic. f_equal. apply magic_agree. exact Hag. }
  unfold receiverLoop.
  rewrite (forever_round _ env _ _ tt _
             (runs_as_receiver_round hdc rxStartX rxStartY txStartX txStartY env Hmagic)).
  pose proof (runs_as_receiver_round hdc rxStartX rxStartY txStartX txStartY _ Hmagic')
    as Hsecond.
  rewrite Hs in Hsecond at 1 2.
  rewrite (decode_reads_agree _ _ _ _ Hag), (decode_agree hdc _ _ _ _ Hag) in Hsecond.
  rewrite (forever_round_exact _ _ _ _ tt Hsecond).
  reflexivity.
Qed.

Lemma receiver_shows_frame_again_witness :
  let env := {| env_dc := 1; env_selector := 2; env_lines := ["yo"%string];
                env_screen := screen_after (encodePacket (m := SM) 1 0 0
                                              (Packet_of payload_ABC) white) |} in
  let heard := [Ev (EvGetPixel 1 0 0); Ev (EvHorzRes 1); Ev (EvGetPixel 1 1 0);
                Ev (EvHorzRes 1); Ev (EvGetPixel 1 2 0); Ev (EvHorzRes 1);
                Ev (EvGetPixel 1 3 0); Ev (EvHorzRes 1);
                Ev (EvCout "Them: "%string);
                Ev (EvCout (string_of_payload [x42; x43; x00]));
                Ev EvEndl;
                Ev (EvCout "You: "%string);
                Ev EvGetLine] in
  trace (run 43 env (receiverLoop 1 0 0 0 10))
  = heard
    ++ [Ev (EvSetPixel 1 0 10 (RGB xbe xba xfe)); Ev (EvHorzRes 1);
        Ev (EvSetPixel 1 1 10 (RGB xca x02 x00)); Ev (EvHorzRes 1);
        Ev (EvSetPixel 1 2 10 (RGB x00 x00 x79)); Ev (EvHorzRes 1);
        Ev (EvSetPixel 1 3 10 (RGB x6f x00 x00)); Ev (EvHorzRes 1);
        Ev (EvSleep 100)]
    ++ heard
    ++ [Ev (EvSetPixel 1 0 10 (RGB xbe xba xfe)); Ev (EvHorzRes 1);
        Ev (EvSetPixel 1 1 10 (RGB xca x00 x00)); Ev (EvHorzRes 1);
        Ev (EvSetPixel 1 2 10 (RGB x00 x00 x00)); Ev (EvHorzRes 1);
        Ev (EvSleep 100)].
Proof.
  assert (H : firstn 4 (scan (screen_after (encodePacket (m := SM) 1 0 0
                                              (Packet_of payload_ABC) white))
                              2 (0, 0))
              = bytes_of_uint32 PREFIX) by (vm_compute; reflexivity).
  assert (Hx : 0 <= 0 < 1920) by lia.
  assert (Hfit : 0 + Z.of_nat (length (decode_reads
                                         (screen_after (encodePacket (m := SM) 1 0 0
                                                          (Packet_of payload_ABC) white))
                                         0 0))
                 <= (10 - 0) * 1920) by (vm_compute; discriminate).
  exact (receiver_shows_frame_again 1 0 0 0 10
           {| env_dc := 1; env_selector := 2; env_lines := ["yo"%string];
              env_screen := screen_after (encodePacket (m := SM) 1 0 0
                                            (Packet_of payload_ABC) white) |}
           H Hx Hfit).
Defined.

(** An old reply ends the wait.  When the receive region already begins
    with the sentinel and the frame being sent lies in the rows before it,
    one round of [senderLoop] is: prompt, read one line, write its frame,
    read the receive region once and print what it holds, without any
    sleep; the next round then starts with the prompt. *)
Theorem sender_shows_reply (hdc : HDC) (txStartX txStartY rxStartX rxStartY : Z)
    (env : Env) :
  firstn 4 (scan (env_screen env) 2 (rxStartX, rxStartY)) = bytes_of_uint32 PREFIX ->
  0 <= txStartX < horzres (env_screen env) ->
  txStartX
  + Z.of_nat (pixels_for
                (8 + vsize (payload_of_string (hd String.EmptyString (env_lines env)))))
    <= (rxStartY - txStartY) * horzres (env_screen env) ->
  let reply := result (decodePacket (m := SM) hdc rxStartX rxStartY (env_screen env)) in
  let round :=
    typed hdc txStartX txStartY env
    ++ read_events hdc (decode_reads (env_screen env) rxStartX rxStartY)
    ++ shown reply in
  let loop := senderLoop hdc txStartX txStartY rxStartX rxStartY in
  run (length round) env loop = (round, after_typed hdc txStartX txStartY env, None)
  /\ trace (run (length round + 2) env loop) = round ++ [Ev (EvCout "You: "%string)].
Proof.
  intros Hmagic Hx Hfit. cbv zeta.
  set (packet := Packet_of (payload_of_string (hd String.EmptyString (env_lines env)))).
  pose proof (paint_agree_lower txStartX txStartY rxStartX rxStartY packet
                (env_screen env) Hx Hfit) as Hag.
  assert (Hs : env_screen (after_typed hdc txStartX txStartY env)
               = paint (env_screen env)
                       (encode_writes (horzres (env_screen env)) txStartX txStartY packet)).
  { unfold after_typed. rewrite encodePacket_run. reflexivity. }
  assert (Hmagic' : firstn 4 (scan (env_screen (after_typed hdc txStartX txStartY env)) 2
                                (rxStartX, rxStartY))
                    = bytes_of_uint32 PREFIX).
  { rewrite Hs, <- Hmagic. f_equal. apply magic_agree. exact Hag. }
  pose proof (runs_as_wait_valid hdc rxStartX rxStartY _ Hmagic') as Hwait.
  rewrite Hs in Hwait at 1 2.
  rewrite (decode_reads_agree _ _ _ _ Hag), (decode_agree hdc _ _ _ _ Hag) in Hwait.
  assert (Hround :
            runs_as
              (ITree.trigger (EvCout "You: "%string) ;;
               message <- ITree.trigger EvGetLine ;;
               let packet := Packet_of (payload_of_string message) in
               encodePacket hdc txStartX txStartY packet ;;
               wait_for_reply hdc rxStartX rxStartY)
              env
              (typed hdc txStartX txStartY env
               ++ read_events hdc (decode_reads (env_screen env) rxStartX rxStartY)
               ++ shown (result (decodePacket (m := SM) hdc rxStartX rxStartY
                                   (env_screen env))))
              tt (after_typed hdc txStartX txStartY env)).
  { cbn [bind ret Monad_itree]. unfold typed. rewrite <- app_assoc.
    change ([Ev (EvCout "You: "%string); Ev EvGetLine] ++ ?l)
      with ([Ev (EvCout "You: "%string)] ++ [Ev EvGetLine] ++ l).
    unfold after_typed in *. rewrite encodePacket_run in *.
    cbn [screen_after fst snd] in *.
    eapply runs_as_bind; [apply runs_as_trigger|]. cbn [answer fst snd].
    eapply runs_as_bind; [apply runs_as_trigger|]. cbn [answer fst snd].
    eapply runs_as_bind;
      [apply (runs_as_encodePacket hdc txStartX txStartY _ (line_read env))|].
    exact Hwait. }
  unfold senderLoop. split.
  - apply (forever_round_exact _ env _ _ tt Hround).
  - replace (length _ + 2)%nat with (length
        (typed hdc txStartX txStartY env
         ++ read_events hdc (decode_reads (env_screen env) rxStartX rxStartY)
         ++ shown (result (decodePacket (m := SM) hdc rxStartX rxStartY (env_screen env))))
        + S 1)%nat by lia.
    rewrite (forever_round _ env _ _ tt 1 Hround). unfold prepend. cbn [trace fst].
    f_equal.
Qed.

Lemma sender_shows_reply_witness :
  let env := {| env_dc := 1; env_selector := 1; env_lines := ["hi"%string];
                env_screen := screen_after (encodePacket (m := SM) 1 0 10
                                              (Packet_of payload_ABC) white) |} in
  trace (run 23 env (senderLoop 1 0 0 0 10))
  = [Ev (EvCout "You: "%string);
     Ev EvGetLine;
     Ev (EvSetPixel 1 0 0 (RGB xbe xba xfe)); Ev (EvHorzRes 1);
     Ev (EvSetPixel 1 1 0 (RGB xca x02 x00)); Ev (EvHorzRes 1);
     Ev (EvSetPixel 1 2 0 (RGB x00 x00 x68)); Ev (EvHorzRes 1);
     Ev (EvSetPixel 1 3 0 (RGB x69 x00 x00)); Ev (EvHorzRes 1);
     Ev (EvGetPixel 1 0 10); Ev (EvHorzRes 1); Ev (EvGetPixel 1 1 10); Ev (EvHorzRes 1);
     Ev (EvGetPixel 1 2 10); Ev (EvHorzRes 1); Ev (EvGetPixel 1 3 10); Ev (EvHorzRes 1);
     Ev (EvCout "Them: "%string);
     Ev (EvCout (string_of_payload [x42; x43; x00]));
     Ev EvEndl;
     Ev (EvCout "You: "%string)].
Proof.
  assert (H : firstn 4 (scan (screen_after (encodePacket (m := SM) 1 0 10
                                              (Packet_of payload_ABC) white))
                              2 (0, 10))
              = bytes_of_uint32 PREFIX) by (vm_compute; reflexivity).
  assert (Hx : 0 <= 0 < 1920) by lia.
  assert (Hfit : 0 + Z.of_nat (pixels_for (8 + vsize (payload_of_string "hi"%string)))
                 <= (10 - 0) * 1920) by (vm_compute; discriminate).
  exact (proj2 (sender_shows_reply 1 0 0 0 10
           {| env_dc := 1; env_selector := 1; env_lines := ["hi"%string];
              env_screen := screen_after (encodePacket (m := SM) 1 0 10
                                            (Packet_of payload_ABC) white) |}
           H Hx Hfit)).
Defined.

(* ===================================================================== *)
(** ** No rejection path *)
(* ===================================================================== *)

Lemma track_nth (w : Z) (n : nat) :
  forall (xy : Z * Z) (i : nat),
    (i < n)%nat -> nth i (track w n xy) (0, 0) = cursor w i xy.
Proof.
  induction n as [|n IH]; intros xy i Hi; [lia|].
  destruct i as [|i]; cbn [track nth cursor]; [reflexivity|].
  apply IH. lia.
Qed.

Lemma colour_at_byte_at (buffer : list uchar) (j : nat) :
  colour_at buffer (Z.of_nat j)
  = RGB (byte_at buffer j) (byte_at buffer (S j)) (byte_at buffer (S (S j))).
Proof.
  unfold colour_at, vget, byte_at, vsize.
  rewrite Nat2Z.id.
  replace (Z.to_nat (Z.of_nat j + 1)) with (S j) by lia.
  replace (Z.to_nat (Z.of_nat j + 2)) with (S (S j)) by lia.
  f_equal.
  - destruct (Z.ltb_spec (Z.of_nat j + 1) (Z.of_nat (length buffer)));
      [reflexivity | symmetry; apply nth_overflow; lia].
  - destruct (Z.ltb_spec (Z.of_nat j + 2) (Z.of_nat (length buffer)));
      [reflexivity | symmetry; apply nth_overflow; lia].
Qed.

(** The operations of an encode, one by one. *)
Lemma encode_ops_nth (hdc : HDC) (startX startY : Z) (packet : Packet) (s : Screen)
    (i : nat) :
  (i < pixels_for (8 + vsize (payload packet)))%nat ->
  nth i (ops (encodePacket (m := SM) hdc startX startY packet s)) (OpGet 0 0)
  = OpSet (fst (cursor (horzres s) i (startX, startY)))
          (snd (cursor (horzres s) i (startX, startY)))
          (colour_at (serialize packet) (3 * Z.of_nat i)).
Proof.
  intros Hi. rewrite encodePacket_run. cbn [ops snd].
  rewrite (nth_indep _ (OpGet 0 0) (op_set (0, 0, 0)))
    by (rewrite length_map, encode_writes_length; exact Hi).
  rewrite map_nth. unfold encode_writes. rewrite serialize_length.
  rewrite combine_nth by (rewrite track_length, colours_length; reflexivity).
  rewrite track_nth, colours_nth by assumption.
  reflexivity.
Qed.

(** C6 (amended). [encodePacket] has no rejection path.  For every payload,
    whatever its length: the constructor stores the length reduced modulo
    2^32 in [size]; the serialised buffer is the sentinel, that size and
    the whole payload; [encodePacket] performs ceil((8 + length) / 3)
    operations, and the i-th of them is the [SetPixel] at the i-th place of
    the cursor with the colour made of the buffer bytes 3i, 3i+1 and 3i+2
    (zero past the end); afterwards the pixels of the scan region hold the
    whole buffer followed by at most two zero bytes. *)
Theorem encodePacket_accepts_every_length (hdc : HDC) (startX startY : Z)
    (data : list uchar) (s : Screen) :
  let packet := Packet_of data in
  let buffer := serialize packet in
  let r := encodePacket (m := SM) hdc startX startY packet s in
  let k := pixels_for (8 + vsize data) in
  size packet = vsize data mod 2 ^ 32
  /\ buffer = [xbe; xba; xfe; xca] ++ bytes_of_uint32 (vsize data mod 2 ^ 32) ++ data
  /\ length (ops r) = k
  /\ (forall i : nat,
        (i < k)%nat ->
        nth i (ops r) (OpGet 0 0)
        = OpSet (fst (cursor (horzres s) i (startX, startY)))
                (snd (cursor (horzres s) i (startX, startY)))
                (colour_at buffer (3 * Z.of_nat i)))
  /\ (exists rest, ops r = OpSet startX startY (RGB xbe xba xfe) :: rest)
  /\ scan (screen_after r) k (startX, startY)
     = buffer ++ repeat x00 (3 * k - length buffer)
  /\ (3 * k - length buffer <= 2)%nat.
Proof.
  cbv zeta.
  split; [reflexivity|].
  split; [rewrite serialize_eq; reflexivity|].
  split; [rewrite encodePacket_run; cbn [ops snd];
          rewrite length_map, encode_writes_length; reflexivity|].
  split; [intros i Hi; apply encode_ops_nth; exact Hi|].
  split.
  - rewrite encodePacket_run. cbn [ops snd].
    destruct (encode_writes_first (horzres s) startX startY data) as [rest E].
    rewrite E. eexists. reflexivity.
  - pose proof (encode_writes_buffer_then_padding hdc startX startY data s) as H.
    cbv zeta in H. rewrite serialize_length in H. exact H.
Qed.

(* ===================================================================== *)
(** ** Scenario A: where the payload lies *)
(* ===================================================================== *)

(** C2 (what the code does instead). [encodePacket] does not give the
    payload pixels of its own.  For every non-empty payload of fewer than
    2^32 bytes it writes 3 + ceil((n - 1) / 3) pixels; the third of them
    carries the last two bytes of the length and, as its blue byte, the
    first byte of the payload; the pixels from the fourth on hold the
    payload from its second byte on.  [decodePacket], reading the result,
    takes its payload from the fourth pixel on. *)
Theorem encode_payload_straddles_header (hdc : HDC) (startX startY : Z)
    (data : list uchar) (s : Screen) :
  data <> [] -> vsize data < 2 ^ 32 ->
  let r := encodePacket (m := SM) hdc startX startY (Packet_of data) s in
  let sent := screen_after r in
  let w := horzres s in
  let third := cursor w 2 (startX, startY) in
  let fourth := cursor w 3 (startX, startY) in
  let rest := pixels_for (vsize data - 1) in
  length (ops r) = (3 + rest)%nat
  /\ nth 2 (ops r) (OpGet 0 0)
     = OpSet (fst third) (snd third)
             (RGB (nth 2 (bytes_of_uint32 (vsize data)) x00)
                  (nth 3 (bytes_of_uint32 (vsize data)) x00)
                  (hd x00 data))
  /\ scan sent rest fourth = tl data ++ repeat x00 (3 * rest - (length data - 1))
  /\ payload (result (decodePacket (m := SM) hdc startX startY sent))
     = firstn (length data) (scan sent (pixels_for (vsize data)) fourth).
Proof.
  intros Hne Hfit. cbv zeta.
  assert (Hlen : (1 <= length data)%nat) by (destruct data; [contradiction | cbn; lia]).
  assert (Hk : pixels_for (8 + vsize data) = (3 + pixels_for (vsize data - 1))%nat)
    by (unfold pixels_for, vsize; Z.div_mod_to_equations; lia).
  split; [|split; [|split]].
  - rewrite encodePacket_run. cbn [ops snd].
    rewrite length_map, encode_writes_length. exact Hk.
  - rewrite encode_ops_nth by (cbn [Packet_of payload]; rewrite Hk; lia).
    f_equal. change (3 * Z.of_nat 2) with (Z.of_nat 6). rewrite colour_at_byte_at.
    rewrite serialize_eq. cbn [Packet_of prefix size payload].
    unfold to_uint32. rewrite Z.mod_small by (unfold vsize in *; lia).
    destruct data as [|d data]; [contradiction|]. reflexivity.
  - rewrite encodePacket_run. cbn [screen_after fst snd].
    rewrite scan_pixels_on, horzres_paint.
    rewrite (sent_body_pixels startX startY data s).
    change 9 with (Z.of_nat 9). rewrite flat_colours.
    rewrite serialize_eq. unfold bytes_of_uint32. cbn [app].
    rewrite (map_byte_at_header _ _ _ _ _ _ _ _ data 1).
    replace (3 * pixels_for (vsize data - 1))%nat
      with ((length data - 1)
            + (3 * pixels_for (vsize data - 1) - (length data - 1)))%nat at 1
      by (unfold pixels_for, vsize; Z.div_mod_to_equations; lia).
    rewrite seq_app, List.map_app, map_byte_at_tl. f_equal.
    replace (1 + (length data - 1))%nat with (length data) by lia.
    apply map_byte_at_beyond.
  - rewrite encodePacket_run. cbn [screen_after fst snd].
    rewrite decodePacket_run. cbv zeta.
    rewrite (sent_header_prefix startX startY data s Hfit).
    rewrite (sent_header_size startX startY data s Hfit).
    rewrite Z.eqb_refl. cbn [result fst payload].
    rewrite horzres_paint. unfold vsize. rewrite Nat2Z.id. reflexivity.
Qed.

(** C2 (the failing input). Scenario A on the white surface, from (0,0):
    four pixels are written; the third is (00,00,41) and the fourth holds
    42 43 00, so that no pixel is (41,42,43), and [decodePacket] returns
    the payload 42 43 00. *)
Lemma scenario_A_payload_straddles :
  let r := encodePacket (m := SM) 1 0 0 (Packet_of payload_ABC) white in
  let sent := screen_after r in
  length (ops r) = 4%nat
  /\ nth 2 (ops r) (OpGet 0 0) = OpSet 2 0 (RGB x00 x00 x41)
  /\ scan sent 1 (3, 0) = [x42; x43; x00]
  /\ payload (result (decodePacket (m := SM) 1 0 0 sent)) = [x42; x43; x00].
Proof.
  assert (Hne : payload_ABC <> []) by discriminate.
  assert (Hfit : vsize payload_ABC < 2 ^ 32) by (vm_compute; reflexivity).
  pose proof (encode_payload_straddles_header 1 0 0 payload_ABC white Hne Hfit) as H.
  cbv zeta in H. destruct H as (H1 & H2 & H3 & H4).
  split; [exact H1|]. split; [exact H2|]. split; [exact H3|].
  rewrite H4. vm_compute. reflexivity.
Defined.

(** The layout of Scenario A is the one [decodePacket] reads.  When the
    header has its three pixels to itself and the payload starts in the
    fourth, [decodePacket] returns the sentinel, the length and the payload
    itself, for every payload of fewer than 2^32 bytes, whatever the byte
    that fills the third pixel. *)
Theorem decode_of_aligned_layout (hdc : HDC) (startX startY : Z) (data : list uchar)
    (filling : uchar) (s : Screen) :
  vsize data < 2 ^ 32 ->
  let laid := paint s (aligned_writes (horzres s) startX startY data filling) in
  result (decodePacket (m := SM) hdc startX startY laid)
  = {| prefix := PREFIX; size := vsize data; payload := data |}.
Proof.
  intros Hfit. cbv zeta. unfold aligned_writes. cbv zeta.
  set (w := horzres s). set (n := pixels_for (vsize data)).
  set (head := bytes_of_uint32 PREFIX ++ bytes_of_uint32 (vsize data) ++ [filling]).
  set (laid := paint s _).
  assert (Hw : horzres laid = w) by apply horzres_paint.
  assert (Hpix : pixels_on laid (track w (3 + n) (startX, startY))
                 = colours head 3 0 ++ colours data n 0).
  { apply pixels_on_painted. rewrite length_app, !colours_length. reflexivity. }
  rewrite track_app in Hpix. unfold pixels_on in Hpix. rewrite List.map_app in Hpix.
  apply app_split_length in Hpix;
    [|rewrite length_map, track_length, colours_length; reflexivity].
  destruct Hpix as [Hhead Hbody].
  assert (Hheader : header laid startX startY = head).
  { unfold header. rewrite scan_pixels_on, Hw. unfold pixels_on. rewrite Hhead.
    change 0 with (Z.of_nat 0). rewrite flat_colours. reflexivity. }
  assert (Hscan : scan laid n (cursor w 3 (startX, startY))
                  = data ++ repeat x00 (3 * n - length data)).
  { rewrite scan_pixels_on, Hw. unfold pixels_on. rewrite Hbody.
    change 0 with (Z.of_nat 0). rewrite flat_colours.
    replace (3 * n)%nat with (length data + (3 * n - length data))%nat at 1
      by (unfold n, pixels_for, vsize; Z.div_mod_to_equations; lia).
    rewrite seq_app, List.map_app, map_byte_at_all. cbn [Nat.add].
    rewrite map_byte_at_beyond. reflexivity. }
  assert (Hp : header_prefix laid startX startY = PREFIX).
  { unfold header_prefix. rewrite Hheader. unfold head.
    rewrite uint32_of_bytes_of_uint32. reflexivity. }
  assert (Hn : header_size laid startX startY = vsize data).
  { unfold header_size. rewrite Hheader. unfold head.
    change (skipn 4 (bytes_of_uint32 PREFIX ++ ?l)) with l.
    rewrite uint32_of_bytes_of_uint32. apply Z.mod_small. unfold vsize in *. lia. }
  rewrite decodePacket_run. cbv zeta. rewrite Hp, Hn, Z.eqb_refl, Hw.
  cbn [result fst]. f_equal. fold n. rewrite Hscan.
  unfold vsize. rewrite Nat2Z.id. rewrite firstn_app, Nat.sub_diag, firstn_all.
  cbn [firstn]. apply app_nil_r.
Qed.

Lemma decode_of_aligned_layout_witness :
  let laid := paint white [(0, 0, RGB xbe xba xfe); (1, 0, RGB xca x03 x00);
                           (2, 0, RGB x00 x00 x00); (3, 0, RGB x41 x42 x43)] in
  result (decodePacket (m := SM) 1 0 0 laid)
  = {| prefix := PREFIX; size := 3; payload := [x41; x42; x43] |}.
Proof.
  assert (Hfit : vsize payload_ABC < 2 ^ 32) by (vm_compute; reflexivity).
  exact (decode_of_aligned_layout 1 0 0 payload_ABC x00 white Hfit).
Defined.

(* ===================================================================== *)
(** ** [main] hands over to the role *)
(* ===================================================================== *)

Lemma run_never (A R : Type) (t : itree winE A) (k : A -> itree winE R)
    (fuel : nat) (env : Env) :
  (forall f e, returned (run f e t) = None) ->
  trace (run fuel env (ITree.bind t k)) = trace (run fuel env t)
  /\ env_after (run fuel env (ITree.bind t k)) = env_after (run fuel env t).
Proof.
  intros Hn. pose proof (run_bind k fuel env t) as H.
  rewrite Hn in H. rewrite H. split; reflexivity.
Qed.

(** With a device context, [main] asks four things of its environment:
    the device context, the prompt, the selector, and [cin.ignore()],
    which drops one character.  With selector 1 everything after that is
    [senderLoop(hdc, 0, 0, 0, 10)] on the device context it got, with
    selector 2 it is [receiverLoop(hdc, 0, 0, 0, 10)]: the two roles use
    the same two corners, crosswise. *)
Theorem main_runs_role (env : Env) (fuel : nat) :
  env_dc env <> NULL ->
  let hdc := env_dc env in
  let asked := [Ev EvGetDC; Ev (EvCout "Enter instance (1 or 2): "%string);
                Ev EvCinInt; Ev EvCinIgnore] in
  let r := run (4 + fuel) env main in
  (env_selector env = 1 ->
   trace r = asked ++ trace (run fuel env (senderLoop hdc 0 0 0 10))
   /\ env_after r = env_after (run fuel env (senderLoop hdc 0 0 0 10)))
  /\ (env_selector env = 2 ->
      trace r = asked ++ trace (run fuel env (receiverLoop hdc 0 0 0 10))
      /\ env_after r = env_after (run fuel env (receiverLoop hdc 0 0 0 10))).
Proof.
  intros Hdc. cbv zeta. apply Z.eqb_neq in Hdc.
  unfold main. cbn [bind ret Monad_itree Nat.add].
  rewrite run_bind_trigger. cbn [answer fst snd]. rewrite Hdc.
  rewrite run_bind_trigger. cbn [answer fst snd].
  rewrite run_bind_trigger. cbn [answer fst snd].
  rewrite run_bind_trigger. cbn [answer fst snd].
  unfold main_dispatch. cbn [bind ret Monad_itree trace env_after fst snd].
  split; intros ->; cbn [Z.eqb Pos.eqb].
  - destruct (run_never _ _ (senderLoop (env_dc env) 0 0 0 10)
                (fun _ => ITree.bind (ITree.trigger (EvReleaseDC (env_dc env)))
                                     (fun _ => Ret 0))
                fuel env) as [Ht He].
    { intros f e. apply forever_never_returns. }
    unfold trace, env_after in *. rewrite Ht, He. split; reflexivity.
  - destruct (run_never _ _ (receiverLoop (env_dc env) 0 0 0 10)
                (fun _ => ITree.bind (ITree.trigger (EvReleaseDC (env_dc env)))
                                     (fun _ => Ret 0))
                fuel env) as [Ht He].
    { intros f e. apply forever_never_returns. }
    unfold trace, env_after in *. rewrite Ht, He. split; reflexivity.
Qed.

Lemma main_runs_role_witness :
  let env := {| env_dc := 1; env_selector := 1; env_lines := ["hi"%string];
                env_screen := white |} in
  trace (run 7 env main)
  = [Ev EvGetDC; Ev (EvCout "Enter instance (1 or 2): "%string);
     Ev EvCinInt; Ev EvCinIgnore;
     Ev (EvCout "You: "%string); Ev EvGetLine;
     Ev (EvSetPixel 1 0 0 (RGB xbe xba xfe))].
Proof.
  assert (Hdc : (1 : HDC) <> NULL) by discriminate.
  exact (proj1 (proj1 (main_runs_role
                         {| env_dc := 1; env_selector := 1; env_lines := ["hi"%string];
                            env_screen := white |} 3 Hdc) eq_refl)).
Defined.

(* ===================================================================== *)
(** ** Polling, round by round *)
(* ===================================================================== *)

(** One round of a loop with [break] whose body asks for another round. *)
Lemma iter_round {R : Type} (body : unit -> itree winE (unit + R)) (env env' : Env)
    (tr : list Event) (fuel : nat) :
  runs_as (body tt) env tr (inl tt) env' ->
  run (length tr + S fuel) env (ITree.iter body tt)
  = prepend tr (run fuel env' (ITree.iter body tt)).
Proof.
  intros H.
  rewrite (run_observe _ env (ITree.iter body tt)
             (ITree.bind (body tt)
                (fun lr => match lr with
                           | inl l => Tau (ITree.iter body l)
                           | inr r => Ret r
                           end))) by reflexivity.
  rewrite H. cbv iota. rewrite run_tau. reflexivity.
Qed.

(** [n] rounds of a body that leaves the environment as it found it: one
    unit of fuel for each event and one for going round. *)
Lemma iter_rounds {R : Type} (body : unit -> itree winE (unit + R)) (env : Env)
    (tr : list Event) :
  runs_as (body tt) env tr (inl tt) env ->
  forall n : nat,
    run (n * S (length tr)) env (ITree.iter body tt)
    = (concat (repeat tr n), env, (None : option R)).
Proof.
  intros H n. induction n as [|n IH]; [reflexivity|].
  replace (S n * S (length tr))%nat with (length tr + S (n * S (length tr)))%nat by lia.
  rewrite (iter_round body env env tr _ H), IH. unfold prepend.
  cbn [trace env_after returned fst snd repeat concat]. reflexivity.
Qed.

Lemma forever_rounds {A R : Type} (t : itree winE A) (env : Env) (tr : list Event)
    (a : A) :
  runs_as t env tr a env ->
  forall n : nat,
    run (n * S (length tr)) env (ITree.forever t : itree winE R)
    = (concat (repeat tr n), env, None).
Proof.
  intros H n. induction n as [|n IH]; [reflexivity|].
  replace (S n * S (length tr))%nat with (length tr + S (n * S (length tr)))%nat by lia.
  rewrite (forever_round t env env tr a _ H), IH. unfold prepend.
  cbn [trace env_after returned fst snd repeat concat]. reflexivity.
Qed.

(** One poll of a region without the sentinel, in the sender's wait. *)
Lemma runs_as_wait_idle (hdc : HDC) (rxStartX rxStartY : Z) (env : Env) :
  firstn 4 (scan (env_screen env) 2 (rxStartX, rxStartY)) <> bytes_of_uint32 PREFIX ->
  runs_as
    (reply <- decodePacket hdc rxStartX rxStartY ;;
     if prefix reply =? PREFIX then
       ITree.trigger (EvCout "Them: "%string) ;;
       ITree.trigger (EvCout (string_of_payload (payload reply))) ;;
       ITree.trigger EvEndl ;;
       ret (inr tt)
     else
       ITree.trigger (EvSleep 100) ;;
       ret (inl tt))
    env (idle_poll hdc (horzres (env_screen env)) rxStartX rxStartY) (inl tt) env.
Proof.
  intros Hne. cbn [bind ret Monad_itree]. unfold idle_poll.
  destruct (decode_invalid hdc rxStartX rxStartY (env_screen env) Hne) as [Hres Hreads].
  eapply runs_as_bind.
  - rewrite <- Hreads. apply runs_as_decodePacket.
  - rewrite Hres. change (prefix Packet_empty =? PREFIX) with false. cbv iota.
    rewrite <- (app_nil_r [Ev (EvSleep 100)]).
    eapply runs_as_bind; [apply runs_as_trigger | apply runs_as_ret].
Qed.

(** One poll of a region without the sentinel, in the receiver. *)
Lemma runs_as_receiver_idle (hdc : HDC) (rxStartX rxStartY txStartX txStartY : Z)
    (env : Env) :
  firstn 4 (scan (env_screen env) 2 (rxStartX, rxStartY)) <> bytes_of_uint32 PREFIX ->
  runs_as
    (received <- decodePacket hdc rxStartX rxStartY ;;
     (if prefix received =? PREFIX then
        ITree.trigger (EvCout "Them: "%string) ;;
        ITree.trigger (EvCout (string_of_payload (payload received))) ;;
        ITree.trigger EvEndl ;;
        ITree.trigger (EvCout "You: "%string) ;;
        reply <- ITree.trigger EvGetLine ;;
        let packet := Packet_of (payload_of_string reply) in
        encodePacket hdc txStartX txStartY packet
      else ret tt) ;;
     ITree.trigger (EvSleep 100))
    env (idle_poll hdc (horzres (env_screen env)) rxStartX rxStartY) tt env.
Proof.
  intros Hne. cbn [bind ret Monad_itree]. unfold idle_poll.
  destruct (decode_invalid hdc rxStartX rxStartY (env_screen env) Hne) as [Hres Hreads].
  eapply runs_as_bind.
  - rewrite <- Hreads. apply runs_as_decodePacket.
  - rewrite Hres. change (prefix Packet_empty =? PREFIX) with false. cbv iota.
    change [Ev (EvSleep 100)] with ([] ++ [Ev (EvSleep 100)]).
    eapply runs_as_bind; [apply runs_as_ret | apply runs_as_sleep].
Qed.

(** No timeout.  While the receive region does not begin with the
    sentinel, the sender's wait polls for ever.  For every [n], after
    [n] rounds (one unit of fuel for each event and one for going round)
    the run is exactly [n] polls, each of them the [GetPixel] of the three
    header pixels, each followed by the query of the width, and then the
    sleep of 100 ms; the environment is as before and the wait has not
    ended.  No run of any length returns, and no run does anything but
    these polls. *)
Theorem sender_waits_forever (hdc : HDC) (rxStartX rxStartY : Z) (env : Env) :
  firstn 4 (scan (env_screen env) 2 (rxStartX, rxStartY)) <> bytes_of_uint32 PREFIX ->
  let wait := wait_for_reply hdc rxStartX rxStartY in
  let poll := idle_poll hdc (horzres (env_screen env)) rxStartX rxStartY in
  (forall n : nat,
      run (n * S (length poll)) env wait = (concat (repeat poll n), env, None))
  /\ (forall fuel : nat, returned (run fuel env wait) = None)
  /\ (forall fuel : nat,
         exists n : nat, prefix_of (trace (run fuel env wait)) (concat (repeat poll n))).
Proof.
  intros Hne. cbv zeta.
  pose proof (runs_as_wait_idle hdc rxStartX rxStartY env Hne) as Hbody.
  unfold wait_for_reply. split; [|split].
  - intros n. apply (iter_rounds _ env _ Hbody n).
  - intros fuel. apply (iter_repeats _ env _ Hbody fuel).
  - intros fuel. apply (iter_repeats _ env _ Hbody fuel).
Qed.

Lemma sender_waits_forever_witness :
  let env := {| env_dc := 1; env_selector := 1; env_lines := [];
                env_screen := white |} in
  run 16 env (wait_for_reply 1 0 10)
  = ([Ev (EvGetPixel 1 0 10); Ev (EvHorzRes 1); Ev (EvGetPixel 1 1 10); Ev (EvHorzRes 1);
      Ev (EvGetPixel 1 2 10); Ev (EvHorzRes 1); Ev (EvSleep 100);
      Ev (EvGetPixel 1 0 10); Ev (EvHorzRes 1); Ev (EvGetPixel 1 1 10); Ev (EvHorzRes 1);
      Ev (EvGetPixel 1 2 10); Ev (EvHorzRes 1); Ev (EvSleep 100)],
     env, None).
Proof.
  assert (Hne : firstn 4 (scan white 2 (0, 10)) <> bytes_of_uint32 PREFIX)
    by (vm_compute; discriminate).
  exact (proj1 (sender_waits_forever 1 0 10
                  {| env_dc := 1; env_selector := 1; env_lines := [];
                     env_screen := white |} Hne) 2%nat).
Defined.

(** A receiver without a frame only polls.  While its receive region does
    not begin with the sentinel, for every [n], after [n] rounds the run of
    [receiverLoop] is exactly [n] polls, each of them the [GetPixel] of the
    three header pixels, each followed by the query of the width, and then
    the sleep of 100 ms: nothing is printed, no input is asked for, no
    pixel is written, the environment is as before.  No run of any length
    returns, and no run does anything but these polls. *)
Theorem receiver_polls_quietly (hdc : HDC) (rxStartX rxStartY txStartX txStartY : Z)
    (env : Env) :
  firstn 4 (scan (env_screen env) 2 (rxStartX, rxStartY)) <> bytes_of_uint32 PREFIX ->
  let loop := receiverLoop hdc rxStartX rxStartY txStartX txStartY in
  let poll := idle_poll hdc (horzres (env_screen env)) rxStartX rxStartY in
  (forall n : nat,
      run (n * S (length poll)) env loop = (concat (repeat poll n), env, None))
  /\ (forall fuel : nat, returned (run fuel env loop) = None)
  /\ (forall fuel : nat,
         exists n : nat, prefix_of (trace (run fuel env loop)) (concat (repeat poll n))).
Proof.
  intros Hne. cbv zeta.
  pose proof (runs_as_receiver_idle hdc rxStartX rxStartY txStartX txStartY env Hne)
    as Hbody.
  unfold receiverLoop. split; [|split].
  - intros n. apply (forever_rounds _ env _ tt Hbody n).
  - intros fuel. apply forever_never_returns.
  - intros fuel. apply (forever_repeats _ env _ tt Hbody fuel).
Qed.

Lemma receiver_polls_quietly_witness :
  let env := {| env_dc := 1; env_selector := 2; env_lines := ["yo"%string];
                env_screen := white |} in
  run 16 env (receiverLoop 1 0 0 0 10)
  = ([Ev (EvGetPixel 1 0 0); Ev (EvHorzRes 1); Ev (EvGetPixel 1 1 0); Ev (EvHorzRes 1);
      Ev (EvGetPixel 1 2 0); Ev (EvHorzRes 1); Ev (EvSleep 100);
      Ev (EvGetPixel 1 0 0); Ev (EvHorzRes 1); Ev (EvGetPixel 1 1 0); Ev (EvHorzRes 1);
      Ev (EvGetPixel 1 2 0); Ev (EvHorzRes 1); Ev (EvSleep 100)],
     env, None).
Proof.
  assert (Hne : firstn 4 (scan white 2 (0, 0)) <> bytes_of_uint32 PREFIX)
    by (vm_compute; discriminate).
  exact (proj1 (receiver_polls_quietly 1 0 0 0 10
                  {| env_dc := 1; env_selector := 2; env_lines := ["yo"%string];
                     env_screen := white |} Hne) 2%nat).
Defined.

(* ===================================================================== *)
(** ** Mutual exclusion *)
(* ===================================================================== *)

Lemma surface_only_bind {A B : Type} (p : Prog A) (f : A -> Prog B) :
  surface_only p -> (forall a, surface_only (f a)) -> surface_only (Prog_bind p f).
Proof.
  intros Hp Hf. induction p as [a|k IH|k IH|hdc x y c k IH|hdc x y k IH|hdc k IH];
    cbn in *; auto; contradiction.
Qed.

Lemma surface_only_for_loop {St : Type} (cond : Z -> bool) (step : Z -> Z)
    (body : Z -> St -> Prog St) :
  (forall i st, surface_only (body i st)) ->
  forall (fuel : nat) (i : Z) (st : St),
    surface_only (for_loop fuel cond step body i st).
Proof.
  intros Hb fuel. induction fuel as [|fuel IH]; intros i st; cbn [for_loop].
  - exact I.
  - destruct (cond i); [|exact I].
    apply surface_only_bind; [apply Hb | intros; apply IH].
Qed.

Lemma surface_only_advance (hdc : HDC) (x y : Z) :
  surface_only (advance (m := Prog) hdc x y).
Proof.
  unfold advance. cbn. intros w. destruct (x + 1 >=? w); exact I.
Qed.

Lemma surface_only_encode_body (hdc : HDC) (buffer : list uchar) (i : Z) (xy : Z * Z) :
  surface_only (encode_body (m := Prog) hdc buffer i xy).
Proof.
  destruct xy as [x y]. unfold encode_body. cbn [bind ret Monad_Prog SetPixel Surface_Prog].
  cbn [Prog_bind surface_only]. apply surface_only_advance.
Qed.

Lemma surface_only_decode_body (hdc : HDC) (i : Z) (st : Z * Z * list uchar) :
  surface_only (decode_body (m := Prog) hdc i st).
Proof.
  destruct st as [[x y] acc]. unfold decode_body.
  cbn [bind ret Monad_Prog GetPixel Surface_Prog Prog_bind surface_only].
  intros c. apply surface_only_bind; [apply surface_only_advance|].
  intros [x' y']. exact I.
Qed.

Lemma guarded_body_bind {A : Type} (p : Prog A) :
  surface_only p -> guarded_body (Prog_bind p (fun a => DoUnlock (Done a))).
Proof.
  induction p as [a|k IH|k IH|hdc x y c k IH|hdc x y k IH|hdc k IH];
    cbn; auto; contradiction.
Qed.

Lemma whole_call_lock_guard {A : Type} (body : Prog A) :
  surface_only body -> whole_call (lock_guard body).
Proof.
  intros Hb. unfold lock_guard.
  cbn [bind ret Monad_Prog screenMutex_lock screenMutex_unlock Mutex_Prog Prog_bind whole_call].
  apply guarded_body_bind. exact Hb.
Qed.

Lemma whole_call_encodePacket (hdc : HDC) (startX startY : Z) (packet : Packet) :
  whole_call (encodePacket (m := Prog) hdc startX startY packet).
Proof.
  unfold encodePacket. apply whole_call_lock_guard. cbv zeta.
  cbn [bind ret Monad_Prog]. apply surface_only_bind; [|intros; exact I].
  apply surface_only_for_loop. intros. apply surface_only_encode_body.
Qed.

Lemma whole_call_decodePacket (hdc : HDC) (startX startY : Z) :
  whole_call (decodePacket (m := Prog) hdc startX startY).
Proof.
  unfold decodePacket. apply whole_call_lock_guard.
  cbn [bind ret Monad_Prog]. apply surface_only_bind.
  - apply surface_only_for_loop. intros. apply surface_only_decode_body.
  - intros [[x y] buffer].
    destruct (negb (uint32_of_bytes buffer =? PREFIX)); [exact I|].
    apply surface_only_bind.
    + apply surface_only_for_loop. intros. apply surface_only_decode_body.
    + intros [[x' y'] buffer']. exact I.
Qed.

Lemma guarded_body_then {A B : Type} (p : Prog A) (f : A -> Prog B) :
  guarded_body p -> (forall a, disciplined false (f a)) ->
  disciplined true (Prog_bind p f).
Proof.
  intros Hp Hf. induction p as [a|k IH|k IH|hdc x y c k IH|hdc x y k IH|hdc k IH];
    cbn in *; try contradiction; auto.
  destruct k; try contradiction. cbn. auto.
Qed.

Lemma whole_call_then {A B : Type} (p : Prog A) (f : A -> Prog B) :
  whole_call p -> (forall a, disciplined false (f a)) ->
  disciplined false (Prog_bind p f).
Proof.
  intros Hp Hf. destruct p; try contradiction. cbn in *.
  split; [reflexivity|]. apply guarded_body_then; assumption.
Qed.

Lemma disciplined_play (sc : Script) : disciplined false (play sc).
Proof.
  induction sc as [|hdc x y packet next IH|hdc x y next IH]; cbn [play].
  - reflexivity.
  - apply whole_call_then; [apply whole_call_encodePacket | intros; exact IH].
  - apply whole_call_then; [apply whole_call_decodePacket | intros; apply IH].
Qed.

Lemma nth_error_set_nth {A : Type} (l : list A) (i j : nat) (p : A) :
  (i < length l)%nat ->
  nth_error (set_nth i p l) j = if Nat.eqb j i then Some p else nth_error l j.
Proof.
  revert i j. induction l as [|q l IH]; intros i j Hi; cbn in Hi; [lia|].
  destruct i as [|i]; destruct j as [|j]; cbn; try reflexivity.
  apply IH. lia.
Qed.

Lemma length_set_nth {A : Type} (l : list A) (i : nat) (p : A) :
  length (set_nth i p l) = length l.
Proof.
  revert i. induction l as [|q l IH]; intros i; destruct i; cbn; try reflexivity.
  rewrite IH. reflexivity.
Qed.

Lemma well_locked_start (s : Screen) (scripts : list Script) :
  well_locked (start s scripts).
Proof.
  split.
  - intros i p Hp. unfold owned_by, start. cbn [m_owner].
    cbn [start m_threads] in Hp. rewrite nth_error_map in Hp.
    destruct (nth_error scripts i); [|discriminate]. injection Hp as <-.
    apply disciplined_play.
  - intros j Hj. discriminate.
Qed.

(** One step: it needs the mutex free if it is a [lock] and owned by the
    stepping thread otherwise, it moves the mutex as a [lock] or [unlock]
    does, and the discipline is kept. *)
Lemma step_well_locked (i : nat) (m m' : Machine) (t : Tag) :
  well_locked m -> step i m = Some (t, m') ->
  well_locked m'
  /\ match t with TLock => m_owner m = None | _ => m_owner m = Some i end
  /\ m_owner m' = match t with
                  | TLock => Some i
                  | TUnlock => None
                  | _ => m_owner m
                  end.
Proof.
  intros [Hd Ho] Hs. unfold step in Hs.
  destruct (nth_error (m_threads m) i) as [p|] eqn:Ep; [|discriminate].
  assert (Hi : (i < length (m_threads m))%nat).
  { apply nth_error_Some. rewrite Ep. discriminate. }
  pose proof (Hd i p Ep) as Hp.
  assert (Hkeep : forall (k : Prog unit) (s' : Screen) (o : option nat),
             (forall j, o = Some j -> (j < length (m_threads m))%nat) ->
             (forall j q, j <> i -> nth_error (m_threads m) j = Some q ->
                          disciplined (match o with Some h => Nat.eqb h j | None => false end) q) ->
             disciplined (match o with Some h => Nat.eqb h i | None => false end) k ->
             well_locked {| m_screen := s'; m_owner := o;
                            m_threads := set_nth i k (m_threads m) |}).
  { intros k s' o Hlt Hothers Hk. split.
    - intros j q Hq. cbn [m_threads] in Hq. unfold owned_by. cbn [m_owner].
      rewrite nth_error_set_nth in Hq by exact Hi.
      destruct (Nat.eqb_spec j i) as [-> | Hne].
      + injection Hq as <-. exact Hk.
      + apply Hothers; assumption.
    - intros j Hj. cbn [m_owner m_threads] in *. rewrite length_set_nth.
      apply Hlt. exact Hj. }
  assert (Hsame : forall j q, j <> i -> nth_error (m_threads m) j = Some q ->
                              owned_by m i = true ->
                              disciplined (owned_by m j) q /\ owned_by m j = false).
  { intros j q Hne Hq Hown. split; [apply Hd; exact Hq|].
    unfold owned_by in *. destruct (m_owner m) as [h|]; [|reflexivity].
    apply Nat.eqb_eq in Hown. subst h. apply Nat.eqb_neq. auto. }
  destruct p as [a|k|k|hdc x y c k|hdc x y k|hdc k]; cbn in Hp.
  - discriminate.
  - destruct Hp as [Hfree Hk].
    destruct (m_owner m) as [h|] eqn:Eo; [discriminate|].
    injection Hs as <- <-. cbn [m_owner]. split; [|split; reflexivity].
    apply Hkeep.
    + intros j Hj. injection Hj as <-. exact Hi.
    + intros j q Hne Hq. pose proof (Hd j q Hq) as Hdq.
      unfold owned_by in Hdq. rewrite Eo in Hdq.
      replace (Nat.eqb i j) with false; [exact Hdq|].
      symmetry. apply Nat.eqb_neq. auto.
    + rewrite Nat.eqb_refl. exact Hk.
  - destruct Hp as [Hheld Hk].
    destruct (m_owner m) as [h|] eqn:Eo; [|discriminate].
    destruct (Nat.eqb_spec h i) as [-> | Hne]; [|discriminate].
    injection Hs as <- <-. cbn [m_owner]. split; [|split; reflexivity].
    apply Hkeep.
    + intros j Hj. discriminate.
    + intros j q Hne Hq. destruct (Hsame j q Hne Hq Hheld) as [Hdq Hf].
      rewrite Hf in Hdq. exact Hdq.
    + exact Hk.
  - destruct Hp as [Hheld Hk]. injection Hs as <- <-. cbn [m_owner].
    assert (Eo : m_owner m = Some i).
    { unfold owned_by in Hheld. destruct (m_owner m) as [h|]; [|discriminate].
      apply Nat.eqb_eq in Hheld. subst h. reflexivity. }
    split; [|split; [exact Eo | reflexivity]].
    apply Hkeep.
    + exact Ho.
    + intros j q Hne Hq. apply (Hd j q Hq).
    + rewrite Eo, Nat.eqb_refl. exact Hk.
  - destruct Hp as [Hheld Hk]. injection Hs as <- <-. cbn [m_owner].
    assert (Eo : m_owner m = Some i).
    { unfold owned_by in Hheld. destruct (m_owner m) as [h|]; [|discriminate].
      apply Nat.eqb_eq in Hheld. subst h. reflexivity. }
    split; [|split; [exact Eo | reflexivity]].
    apply Hkeep.
    + exact Ho.
    + intros j q Hne Hq. apply (Hd j q Hq).
    + rewrite Eo, Nat.eqb_refl. apply Hk.
  - destruct Hp as [Hheld Hk]. injection Hs as <- <-. cbn [m_owner].
    assert (Eo : m_owner m = Some i).
    { unfold owned_by in Hheld. destruct (m_owner m) as [h|]; [|discriminate].
      apply Nat.eqb_eq in Hheld. subst h. reflexivity. }
    split; [|split; [exact Eo | reflexivity]].
    apply Hkeep.
    + exact Ho.
    + intros j q Hne Hq. apply (Hd j q Hq).
    + rewrite Eo, Nat.eqb_refl. apply Hk.
Qed.

Lemma exec_well_locked (sched : list nat) :
  forall m : Machine, well_locked m -> well_locked (snd (exec sched m)).
Proof.
  induction sched as [|i sched IH]; intros m Hm; cbn [exec]; [exact Hm|].
  destruct (step i m) as [[t m']|] eqn:Es; [|apply IH; exact Hm].
  destruct (step_well_locked i m m' t Hm Es) as [Hm' _].
  specialize (IH m' Hm'). destruct (exec sched m') as [tr m'']. exact IH.
Qed.

(** Every step of every interleaving finds the mutex as it needs it. *)
Lemma exec_holder (sched : list nat) :
  forall (m : Machine) (pre post : list (nat * Tag)) (i : nat) (t : Tag),
    well_locked m ->
    fst (exec sched m) = pre ++ (i, t) :: post ->
    match t with
    | TLock => holder_from (m_owner m) pre = None
    | _ => holder_from (m_owner m) pre = Some i
    end.
Proof.
  induction sched as [|j sched IH]; intros m pre post i t Hm Htr; cbn [exec] in Htr.
  - destruct pre; discriminate.
  - destruct (step j m) as [[t0 m']|] eqn:Es; [|apply (IH m pre post); assumption].
    destruct (step_well_locked j m m' t0 Hm Es) as (Hm' & Hneeds & Hmoves).
    specialize (IH m'). destruct (exec sched m') as [tr m''] eqn:Ee.
    cbn [fst] in Htr, IH. destruct pre as [|e pre].
    + cbn [app] in Htr. injection Htr as <- <- _. cbn [holder_from fold_left].
      destruct t0; exact Hneeds.
    + cbn [app] in Htr. injection Htr as <- Htr.
      specialize (IH pre post i t Hm' Htr).
      unfold holder_from in *. cbn [fold_left fst snd]. rewrite Hmoves in IH.
      destruct t0; exact IH.
Qed.

Lemma holder_from_app (o : option nat) (a b : list (nat * Tag)) :
  holder_from o (a ++ b) = holder_from (holder_from o a) b.
Proof. unfold holder_from. apply fold_left_app. Qed.

(** From any step of thread [i] that is not an [unlock] to its next
    [unlock], every step is a step of thread [i]. *)
Lemma holder_excludes (tr : list (nat * Tag)) :
  (forall pre i t post, tr = pre ++ (i, t) :: post ->
     match t with
     | TLock => holder pre = None
     | _ => holder pre = Some i
     end) ->
  forall (pre : list (nat * Tag)) (i : nat) (t0 : Tag) (mid post : list (nat * Tag)),
    tr = pre ++ (i, t0) :: mid ++ post ->
    t0 <> TUnlock ->
    ~ In (i, TUnlock) mid ->
    (forall j t, In (j, t) mid -> j = i)
    /\ holder (pre ++ (i, t0) :: mid) = Some i.
Proof.
  intros Hall pre i t0 mid. induction mid as [|[j t] mid IH] using rev_ind;
    intros post Htr Ht0 Hno.
  - split; [intros j t []|].
    pose proof (Hall pre i t0 post Htr) as H0.
    unfold holder in *. rewrite holder_from_app. cbn [holder_from fold_left fst snd].
    destruct t0; try exact H0; [reflexivity | exfalso; apply Ht0; reflexivity].
  - rewrite <- app_assoc in Htr. cbn [app] in Htr.
    destruct (IH ((j, t) :: post) Htr Ht0) as [Hmid Hh].
    { intros Hin. apply Hno. apply in_or_app. left. exact Hin. }
    pose proof (Hall (pre ++ (i, t0) :: mid) j t post) as Hjt.
    rewrite <- app_assoc in Hjt. cbn [app] in Hjt. specialize (Hjt Htr).
    assert (Hj : j = i).
    { destruct t; rewrite Hh in Hjt; try discriminate; injection Hjt as <-; reflexivity. }
    subst j. split.
    + intros j' t' Hin. apply in_app_or in Hin. destruct Hin as [Hin | [Hin | []]].
      * apply (Hmid j' t' Hin).
      * injection Hin as <- _. reflexivity.
    + change (pre ++ (i, t0) :: mid ++ [(i, t)])
        with (pre ++ ((i, t0) :: mid) ++ [(i, t)]).
      rewrite app_assoc. unfold holder in *. rewrite holder_from_app, Hh.
      destruct t; try reflexivity.
      exfalso. apply Hno. apply in_or_app. right. left. reflexivity.
Qed.

Lemma all_done_or_lock (l : list (Prog unit)) :
  (forall i p, nth_error l i = Some p -> disciplined false p) ->
  (forall p, In p l -> exists a, p = Done a)
  \/ exists i k, nth_error l i = Some (DoLock k).
Proof.
  induction l as [|q l IH]; intros Hd.
  - left. intros p [].
  - pose proof (Hd 0%nat q eq_refl) as Hq.
    destruct q as [a|k|k|hdc x y c k|hdc x y k|hdc k]; cbn in Hq;
      try (destruct Hq; discriminate).
    + destruct IH as [Hall | (i & k & Hi)].
      * intros i p Hp. apply (Hd (S i) p Hp).
      * left. intros p [<- | Hin]; [exists a; reflexivity | apply Hall; exact Hin].
      * right. exists (S i), k. exact Hi.
    + right. exists 0%nat, k. reflexivity.
Qed.

(** No deadlock, and the mutex is given back: a machine that keeps the
    discipline either has a thread that can step, or every thread has
    returned and the mutex is free. *)
Lemma well_locked_progress (m : Machine) :
  well_locked m ->
  ((forall p, In p (m_threads m) -> exists a, p = Done a) /\ m_owner m = None)
  \/ exists i, step i m <> None.
Proof.
  intros [Hd Ho]. destruct (m_owner m) as [j|] eqn:Eo.
  - right. exists j. specialize (Ho j eq_refl).
    destruct (nth_error (m_threads m) j) as [p|] eqn:Ep;
      [|apply nth_error_None in Ep; lia].
    pose proof (Hd j p Ep) as Hp. unfold owned_by in Hp. rewrite Eo, Nat.eqb_refl in Hp.
    unfold step. rewrite Ep, Eo.
    destruct p as [a|k|k|hdc x y c k|hdc x y k|hdc k]; cbn in Hp;
      try (destruct Hp; discriminate); try discriminate.
    rewrite Nat.eqb_refl. discriminate.
  - destruct (all_done_or_lock (m_threads m)) as [Hall | (i & k & Hi)].
    + intros i p Hp. pose proof (Hd i p Hp) as Hdp. unfold owned_by in Hdp.
      rewrite Eo in Hdp. exact Hdp.
    + left. split; [exact Hall | reflexivity].
    + right. exists i. unfold step. rewrite Hi, Eo. discriminate.
Qed.

(** While a thread holds the mutex no other thread can step. *)
Lemma well_locked_blocks (m : Machine) (i j : nat) :
  well_locked m -> m_owner m = Some i -> j <> i -> step j m = None.
Proof.
  intros [Hd _] Eo Hne. unfold step.
  destruct (nth_error (m_threads m) j) as [p|] eqn:Ep; [|reflexivity].
  pose proof (Hd j p Ep) as Hp. unfold owned_by in Hp. rewrite Eo in Hp.
  replace (Nat.eqb i j) with false in Hp by (symmetry; apply Nat.eqb_neq; auto).
  rewrite Eo.
  destruct p as [a|k|k|hdc x y c k|hdc x y k|hdc k]; cbn in Hp;
    try reflexivity; destruct Hp; discriminate.
Qed.

(** C9.  Mutual exclusion within one process.  [encodePacket] and
    [decodePacket] each take [screenMutex] as their first action and give
    it back as their last, with only pixel operations and width queries in
    between.  For any number of threads that each make any finite sequence
    of such calls, on any screen and under any interleaving: a [lock]
    happens only while the mutex is free, and every pixel operation, width
    query and [unlock] is a step of the thread that holds the mutex; from
    the [lock] of a thread, and from each of its pixel operations, to its
    [unlock] every step is a step of that thread, so the pixel operations
    of two calls never interleave and no read of one call falls between
    two writes of another; while a thread holds the mutex no other thread
    can step; and the machine never deadlocks: either some thread can
    step, or all have returned and the mutex is free. *)
Theorem screenMutex_calls_never_interleave (s : Screen) (scripts : list Script)
    (sched : list nat) :
  let tr := fst (exec sched (start s scripts)) in
  let m' := snd (exec sched (start s scripts)) in
  (forall hdc startX startY packet,
      whole_call (encodePacket (m := Prog) hdc startX startY packet))
  /\ (forall hdc startX startY,
         whole_call (decodePacket (m := Prog) hdc startX startY))
  /\ (forall pre i t post,
         tr = pre ++ (i, t) :: post ->
         match t with
         | TLock => holder pre = None
         | _ => holder pre = Some i
         end)
  /\ (forall pre i t mid post,
         tr = pre ++ (i, t) :: mid ++ post ->
         t <> TUnlock ->
         ~ In (i, TUnlock) mid ->
         forall j t', In (j, t') mid -> j = i)
  /\ (forall i j, m_owner m' = Some i -> j <> i -> step j m' = None)
  /\ (((forall p, In p (m_threads m') -> exists a, p = Done a) /\ m_owner m' = None)
      \/ exists i, step i m' <> None).
Proof.
  cbv zeta.
  assert (Hall : forall pre i t post,
             fst (exec sched (start s scripts)) = pre ++ (i, t) :: post ->
             match t with
             | TLock => holder pre = None
             | _ => holder pre = Some i
             end).
  { intros pre i t post Htr.
    apply (exec_holder sched (start s scripts) pre post i t);
      [apply well_locked_start | exact Htr]. }
  split; [intros; apply whole_call_encodePacket|].
  split; [intros; apply whole_call_decodePacket|].
  split; [exact Hall|]. split.
  - intros pre i t mid post Htr Ht Hno.
    apply (holder_excludes _ Hall pre i t mid post Htr Ht Hno).
  - split.
    + intros i j. apply well_locked_blocks, exec_well_locked, well_locked_start.
    + apply well_locked_progress, exec_well_locked, well_locked_start.
Qed.

(** The two calls of [writer_and_reader] under a scheduler that gives the
    turn to each thread alternately: the reader is kept out until the
    writer has given the mutex back, then reads the whole frame. *)
Lemma writer_and_reader_round_robin :
  let r := exec (concat (repeat [0; 1] 20))%nat (start white writer_and_reader) in
  fst r
  = [(0, TLock);
     (0, TPixel (OpSet 0 0 (RGB xbe xba xfe))); (0, TCaps);
     (0, TPixel (OpSet 1 0 (RGB xca x02 x00))); (0, TCaps);
     (0, TPixel (OpSet 2 0 (RGB x00 x00 x68))); (0, TCaps);
     (0, TPixel (OpSet 3 0 (RGB x69 x00 x00))); (0, TCaps);
     (0, TUnlock);
     (1, TLock);
     (1, TPixel (OpGet 0 0)); (1, TCaps);
     (1, TPixel (OpGet 1 0)); (1, TCaps);
     (1, TPixel (OpGet 2 0)); (1, TCaps);
     (1, TPixel (OpGet 3 0)); (1, TCaps);
     (1, TUnlock)]%nat
  /\ m_owner (snd r) = None
  /\ m_threads (snd r) = [Done tt; Done tt].
Proof. vm_compute. repeat split; reflexivity. Qed.

(** The machine itself keeps no thread from the pixels: without the guard
    the same scheduler lets the read of the first pixel fall between the
    two writes. *)
Lemma unguarded_pair_interleaves :
  fst (exec [0; 1; 0; 1]%nat
            {| m_screen := white; m_owner := None; m_threads := unguarded_pair |})
  = [(0, TPixel (OpSet 0 0 (RGB xbe xba xfe)));
     (1, TPixel (OpGet 0 0));
     (0, TPixel (OpSet 1 0 (RGB xca x02 x00)));
     (1, TPixel (OpGet 1 0))]%nat.
Proof. vm_compute. reflexivity. Qed.

(* ===================================================================== *)
(** ** Every interleaving is the calls one after another *)
(* ===================================================================== *)

Lemma solo_bind {A B : Type} (p : Prog A) (f : A -> Prog B) (s : Screen) :
  solo (Prog_bind p f) s
  = bind (m := SM) (solo p) (fun a => solo (f a)) s.
Proof.
  revert s. induction p as [a|k IH|k IH|hdc x y c k IH|hdc x y k IH|hdc k IH];
    intros s; cbn [Prog_bind solo].
  - cbn. destruct (solo (f a) s) as [[b s'] l]. reflexivity.
  - apply IH.
  - apply IH.
  - rewrite IH. cbn. destruct (solo k (set_pixel s x y c)) as [[a s1] l1].
    destruct (solo (f a) s1) as [[b s2] l2]. reflexivity.
  - rewrite IH. cbn. destruct (solo (k (pixel s x y)) s) as [[a s1] l1].
    destruct (solo (f a) s1) as [[b s2] l2]. reflexivity.
  - apply IH.
Qed.

Lemma SM_bind_ext {A B : Type} (c c' : SM A) (f f' : A -> SM B) (s : Screen) :
  c s = c' s -> (forall a s1, f a s1 = f' a s1) ->
  bind (m := SM) c f s = bind (m := SM) c' f' s.
Proof.
  intros Hc Hf. cbn. rewrite Hc. destruct (c' s) as [[a s1] l1]. rewrite Hf. reflexivity.
Qed.

Lemma solo_advance (hdc : HDC) (x y : Z) (s : Screen) :
  solo (advance (m := Prog) hdc x y) s = advance (m := SM) hdc x y s.
Proof.
  unfold advance. cbn. destruct (x + 1 >=? horzres s); reflexivity.
Qed.

Lemma solo_encode_body (hdc : HDC) (buffer : list uchar) (i : Z) (xy : Z * Z)
    (s : Screen) :
  solo (encode_body (m := Prog) hdc buffer i xy) s
  = encode_body (m := SM) hdc buffer i xy s.
Proof.
  destruct xy as [x y]. rewrite encode_body_run.
  change (encode_body (m := Prog) hdc buffer i (x, y))
    with (DoSetPixel hdc x y (colour_at buffer i) (advance (m := Prog) hdc x y)).
  cbn [solo]. rewrite solo_advance, advance_run. cbn [horzres set_pixel]. reflexivity.
Qed.

Lemma solo_decode_body (hdc : HDC) (i : Z) (st : Z * Z * list uchar) (s : Screen) :
  solo (decode_body (m := Prog) hdc i st) s = decode_body (m := SM) hdc i st s.
Proof.
  destruct st as [[x y] acc]. rewrite decode_body_run.
  change (decode_body (m := Prog) hdc i (x, y, acc))
    with (DoGetPixel hdc x y (fun color =>
            Prog_bind (advance (m := Prog) hdc x y)
              (fun xy => let '(x', y') := xy in
                         Done (x', y', ((acc ++ [GetRValue color]) ++ [GetGValue color])
                                       ++ [GetBValue color])))).
  cbn [solo]. rewrite solo_bind. cbn [bind Monad_SM].
  rewrite solo_advance, advance_run.
  destruct (next_xy (horzres s) (x, y)) as [x' y']. cbn [solo].
  unfold pixel_bytes. rewrite <- !app_assoc. reflexivity.
Qed.

Lemma solo_for_loop {St : Type} (cond : Z -> bool) (step : Z -> Z)
    (body : Z -> St -> Prog St) (body' : Z -> St -> SM St) :
  (forall i st s, solo (body i st) s = body' i st s) ->
  forall (fuel : nat) (i : Z) (st : St) (s : Screen),
    solo (for_loop fuel cond step body i st) s
    = for_loop (m := SM) fuel cond step body' i st s.
Proof.
  intros Hb fuel. induction fuel as [|fuel IH]; intros i st s; cbn [for_loop].
  - reflexivity.
  - destruct (cond i); [|reflexivity].
    cbn [bind Monad_Prog]. rewrite solo_bind.
    apply SM_bind_ext; [apply Hb | intros; apply IH].
Qed.

(** The body of [encodePacket] under the guard, run alone, is the call of
    the first instance. *)
Lemma solo_encode (hdc : HDC) (startX startY : Z) (packet : Packet) (s : Screen) :
  solo (let buffer := serialize packet in
        for_loop (length buffer) (fun i => i <? vsize buffer) (fun i => i + 3)
                 (encode_body (m := Prog) hdc buffer) 0 (startX, startY) ;;
        ret tt) s
  = encodePacket (m := SM) hdc startX startY packet s.
Proof.
  unfold encodePacket. rewrite lock_guard_run. cbv zeta.
  cbn [bind Monad_Prog]. rewrite solo_bind.
  apply SM_bind_ext; [|intros; reflexivity].
  apply solo_for_loop. intros. apply solo_encode_body.
Qed.

Lemma solo_decode (hdc : HDC) (startX startY : Z) (s : Screen) :
  solo ('(x, y, buffer) <-
          for_loop 8 (fun i => i <? 4 + 4) (fun i => i + 3)
                   (decode_body (m := Prog) hdc) 0 (startX, startY, []) ;;
        let packet_prefix := uint32_of_bytes buffer in
        let packet_size := uint32_of_bytes (skipn 4 buffer) in
        if negb (packet_prefix =? PREFIX) then ret Packet_empty
        else
          '(_, _, buffer) <-
            for_loop (Z.to_nat packet_size) (fun i => i <? packet_size)
                     (fun i => to_uint32 (i + 3))
                     (decode_body hdc) 0 (x, y, []) ;;
          ret {| prefix := packet_prefix;
                 size := packet_size;
                 payload := firstn (Z.to_nat packet_size) buffer |}) s
  = decodePacket (m := SM) hdc startX startY s.
Proof.
  unfold decodePacket. rewrite lock_guard_run.
  cbn [bind Monad_Prog]. rewrite solo_bind.
  apply SM_bind_ext.
  - apply solo_for_loop. intros. apply solo_decode_body.
  - intros [[x y] buffer] s1. cbv zeta.
    destruct (negb (uint32_of_bytes buffer =? PREFIX)); [reflexivity|].
    cbn [bind Monad_Prog]. rewrite solo_bind.
    apply SM_bind_ext.
    + apply solo_for_loop. intros. apply solo_decode_body.
    + intros [[x' y'] buffer'] s2. reflexivity.
Qed.

(** A guarded body in front of what comes after the call: run alone up to
    the [unlock], it leaves the screen of the body and the rest of the
    thread. *)
Lemma completes_guarded {A B : Type} (body : Prog A) (k : A -> Prog B) (s : Screen) :
  surface_only body ->
  completes (Prog_bind (Prog_bind body (fun a => DoUnlock (Done a))) k) s
  = (screen_after (solo body s), k (result (solo body s))).
Proof.
  revert s. induction body as [a|b IH|b IH|hdc x y c b IH|hdc x y b IH|hdc b IH];
    intros s Hs; cbn in Hs; try contradiction; cbn [Prog_bind completes solo].
  - reflexivity.
  - rewrite IH by exact Hs.
    destruct (solo b (set_pixel s x y c)) as [[a s1] l1]. reflexivity.
  - rewrite IH by apply Hs.
    destruct (solo (b (pixel s x y)) s) as [[a s1] l1]. reflexivity.
  - apply IH. apply Hs.
Qed.

Lemma DoLock_inj {A : Type} (p q : Prog A) : DoLock p = DoLock q -> p = q.
Proof. intros E. injection E as E. exact E. Qed.

Lemma play_call (sc : Script) (k : Prog unit) :
  play sc = DoLock k ->
  forall s, exists s' sc', call_step sc s = Some (s', sc') /\ completes k s = (s', play sc').
Proof.
  intros E s. destruct sc as [|hdc x y packet next|hdc x y next]; cbn [play] in E.
  - discriminate.
  - unfold encodePacket in E.
    match type of E with
    | bind (lock_guard ?b) ?f = _ =>
        change (DoLock (Prog_bind (Prog_bind b (fun a => DoUnlock (Done a))) f) = DoLock k)
          in E;
        assert (Hsolo : solo b s = encodePacket (m := SM) hdc x y packet s)
          by apply solo_encode;
        assert (Hsurf : surface_only b)
    end.
    { cbv zeta. cbn [bind ret Monad_Prog]. apply surface_only_bind; [|intros; exact I].
      apply surface_only_for_loop. intros. apply surface_only_encode_body. }
    apply DoLock_inj in E. subst k. eexists _, _. split; [reflexivity|].
    rewrite completes_guarded by exact Hsurf. rewrite Hsolo. reflexivity.
  - unfold decodePacket in E.
    match type of E with
    | bind (lock_guard ?b) ?f = _ =>
        change (DoLock (Prog_bind (Prog_bind b (fun a => DoUnlock (Done a))) f) = DoLock k)
          in E;
        assert (Hsolo : solo b s = decodePacket (m := SM) hdc x y s)
          by apply solo_decode;
        assert (Hsurf : surface_only b)
    end.
    { cbn [bind ret Monad_Prog]. apply surface_only_bind.
      - apply surface_only_for_loop. intros. apply surface_only_decode_body.
      - intros [[x0 y0] buffer].
        destruct (negb (uint32_of_bytes buffer =? PREFIX)); [exact I|].
        apply surface_only_bind.
        + apply surface_only_for_loop. intros. apply surface_only_decode_body.
        + intros [[x' y'] buffer']. exact I. }
    apply DoLock_inj in E. subst k. eexists _, _. split; [reflexivity|].
    rewrite completes_guarded by exact Hsurf. rewrite Hsolo. reflexivity.
Qed.

Lemma map_set_nth {A B : Type} (f : A -> B) (l : list A) (i : nat) (a : A) :
  List.map f (set_nth i a l) = set_nth i (f a) (List.map f l).
Proof.
  revert i. induction l as [|b l IH]; intros i; destruct i; cbn; try reflexivity.
  rewrite IH. reflexivity.
Qed.

(** One step of the machine, seen from the calls: a [lock] makes the
    call, every other step changes nothing. *)
Lemma step_settles (i : nat) (m m' : Machine) (t : Tag) (s0 : Screen)
    (scripts : list Script) :
  well_locked m -> settles m s0 scripts -> step i m = Some (t, m') ->
  match t with
  | TLock =>
      exists sc s1 sc1,
        nth_error scripts i = Some sc
        /\ call_step sc s0 = Some (s1, sc1)
        /\ settles m' s1 (set_nth i sc1 scripts)
  | _ => settles m' s0 scripts
  end.
Proof.
  intros Hwl Hset Hs.
  destruct (step_well_locked i m m' t Hwl Hs) as (_ & Hneeds & Hmoves).
  unfold step in Hs.
  destruct (nth_error (m_threads m) i) as [p|] eqn:Ep; [|discriminate].
  assert (Hi : (i < length (m_threads m))%nat).
  { apply nth_error_Some. rewrite Ep. discriminate. }
  unfold settles in *.
  destruct p as [a|k|k|hdc x y c k|hdc x y k|hdc k].
  - discriminate.
  - destruct (m_owner m) as [h|] eqn:Eo; [discriminate|].
    injection Hs as <- <-. cbn [m_owner m_threads m_screen].
    destruct Hset as [Hscreen Hthreads].
    rewrite Hthreads, nth_error_map in Ep.
    destruct (nth_error scripts i) as [sc|] eqn:Esc; [|discriminate].
    injection Ep as Ep.
    destruct (play_call sc k Ep s0) as (s1 & sc1 & Hcall & Hcomp).
    assert (Hi1 : (i < length scripts)%nat).
    { apply nth_error_Some. rewrite Esc. discriminate. }
    assert (Hi2 : (i < length (List.map play scripts))%nat).
    { rewrite length_map. exact Hi1. }
    exists sc, s1, sc1. split; [reflexivity|]. split; [exact Hcall|].
    rewrite Hthreads. split.
    + intros j Hj. rewrite map_set_nth, !nth_error_set_nth by exact Hi2.
      replace (Nat.eqb j i) with false by (symmetry; apply Nat.eqb_neq; exact Hj).
      reflexivity.
    + exists k, sc1. rewrite nth_error_set_nth, Nat.eqb_refl by exact Hi2.
      rewrite nth_error_set_nth, Nat.eqb_refl by exact Hi1.
      split; [reflexivity|]. split; [reflexivity|]. rewrite Hscreen. exact Hcomp.
  - destruct (m_owner m) as [h|] eqn:Eo; [|discriminate].
    destruct (Nat.eqb_spec h i) as [-> | Hne]; [|discriminate].
    injection Hs as <- <-. cbn [m_owner m_threads m_screen].
    destruct Hset as (Hothers & p & sc & Hp & Hsc & Hcomp).
    rewrite Ep in Hp. injection Hp as <-. cbn [completes] in Hcomp.
    injection Hcomp as Hscreen Hk. split; [exact Hscreen|].
    apply nth_error_ext. intros j. rewrite nth_error_set_nth by exact Hi.
    destruct (Nat.eqb_spec j i) as [-> | Hne].
    + rewrite nth_error_map, Hsc, Hk. reflexivity.
    + apply Hothers. exact Hne.
  - injection Hs as <- <-. cbn [m_owner m_threads m_screen].
    rewrite Hneeds in *. destruct Hset as (Hothers & p & sc & Hp & Hsc & Hcomp).
    rewrite Ep in Hp. injection Hp as <-. cbn [completes] in Hcomp. split.
    + intros j Hj. rewrite nth_error_set_nth by exact Hi.
      replace (Nat.eqb j i) with false by (symmetry; apply Nat.eqb_neq; exact Hj).
      apply Hothers. exact Hj.
    + exists k, sc. rewrite nth_error_set_nth, Nat.eqb_refl by exact Hi.
      split; [reflexivity|]. split; [exact Hsc | exact Hcomp].
  - injection Hs as <- <-. cbn [m_owner m_threads m_screen].
    rewrite Hneeds in *. destruct Hset as (Hothers & p & sc & Hp & Hsc & Hcomp).
    rewrite Ep in Hp. injection Hp as <-. cbn [completes] in Hcomp. split.
    + intros j Hj. rewrite nth_error_set_nth by exact Hi.
      replace (Nat.eqb j i) with false by (symmetry; apply Nat.eqb_neq; exact Hj).
      apply Hothers. exact Hj.
    + exists (k (pixel (m_screen m) x y)), sc.
      rewrite nth_error_set_nth, Nat.eqb_refl by exact Hi.
      split; [reflexivity|]. split; [exact Hsc | exact Hcomp].
  - injection Hs as <- <-. cbn [m_owner m_threads m_screen].
    rewrite Hneeds in *. destruct Hset as (Hothers & p & sc & Hp & Hsc & Hcomp).
    rewrite Ep in Hp. injection Hp as <-. cbn [completes] in Hcomp. split.
    + intros j Hj. rewrite nth_error_set_nth by exact Hi.
      replace (Nat.eqb j i) with false by (symmetry; apply Nat.eqb_neq; exact Hj).
      apply Hothers. exact Hj.
    + exists (k (horzres (m_screen m))), sc.
      rewrite nth_error_set_nth, Nat.eqb_refl by exact Hi.
      split; [reflexivity|]. split; [exact Hsc | exact Hcomp].
Qed.

Lemma exec_settles (sched : list nat) :
  forall (m : Machine) (s0 : Screen) (scripts : list Script),
    well_locked m -> settles m s0 scripts ->
    m_owner (snd (exec sched m)) = None ->
    m_screen (snd (exec sched m))
    = fst (serial (lock_order (fst (exec sched m))) s0 scripts)
    /\ m_threads (snd (exec sched m))
       = List.map play (snd (serial (lock_order (fst (exec sched m))) s0 scripts)).
Proof.
  induction sched as [|i sched IH]; intros m s0 scripts Hwl Hset Hfree; cbn [exec] in *.
  - cbn [fst snd] in *. cbn [lock_order filter List.map serial fst snd].
    unfold settles in Hset. rewrite Hfree in Hset. exact Hset.
  - destruct (step i m) as [[t m']|] eqn:Es; [|apply IH; assumption].
    destruct (step_well_locked i m m' t Hwl Es) as (Hwl' & _ & _).
    pose proof (step_settles i m m' t s0 scripts Hwl Hset Es) as Hstep.
    specialize (IH m'). destruct (exec sched m') as [tr m''] eqn:Ee.
    cbn [fst snd] in *.
    destruct t.
    + destruct Hstep as (sc & s1 & sc1 & Hsc & Hcall & Hset').
      unfold lock_order. cbn [filter snd List.map fst serial].
      rewrite Hsc, Hcall. apply IH; assumption.
    + unfold lock_order. cbn [filter snd]. apply IH; assumption.
    + unfold lock_order. cbn [filter snd]. apply IH; assumption.
    + unfold lock_order. cbn [filter snd]. apply IH; assumption.
Qed.

(** Every interleaving is the calls one after another.  For any threads
    making calls of [encodePacket] and [decodePacket], on any screen and
    under any scheduler: whenever the mutex is free at the end, the screen
    and what is left of every thread are those obtained by making the
    calls whole, one at a time, in the order in which they took the mutex.
    No call sees the screen while another call is at work on it. *)
Theorem interleaving_is_serial (s : Screen) (scripts : list Script) (sched : list nat) :
  let r := exec sched (start s scripts) in
  let whole := serial (lock_order (fst r)) s scripts in
  m_owner (snd r) = None ->
  m_screen (snd r) = fst whole /\ m_threads (snd r) = List.map play (snd whole).
Proof.
  cbv zeta. intros Hfree. apply exec_settles.
  - apply well_locked_start.
  - split; reflexivity.
  - exact Hfree.
Qed.

Lemma interleaving_is_serial_witness :
  let r := exec (concat (repeat [1; 0] 20))%nat (start white writer_and_reader) in
  lock_order (fst r) = [1; 0]%nat
  /\ m_screen (snd r) = fst (serial [1; 0]%nat white writer_and_reader)
  /\ m_threads (snd r) = [Done tt; Done tt].
Proof.
  assert (Hfree : m_owner (snd (exec (concat (repeat [1; 0] 20))%nat
                                     (start white writer_and_reader))) = None)
    by (vm_compute; reflexivity).
  pose proof (interleaving_is_serial white writer_and_reader
                (concat (repeat [1; 0] 20))%nat Hfree) as [Hs Ht].
  split; [vm_compute; reflexivity|]. split; [exact Hs|].
  rewrite Ht. vm_compute. reflexivity.
Defined.
